(** * video-translator: segment reconciliation and subtitle serialization

    A shallow embedding of the core of the repository
    (core/merger.py, core/translator.py, utils/time_utils.py,
    utils/ass_generator.py) together with the properties stated about it.

    Modelling conventions.
    - A Python [float] is an exact rational ([Q]); the rounding of binary
      floating point, infinities and NaN are outside the model, except for
      the result of [float(...)] on a string, which may denote [inf]/[nan].
    - A Python [str] is a [string]: the UTF-8 bytes of the text.  The
      character classes [\s] and [\d], [str.strip], [int] and [float] are
      modelled on their ASCII members.
    - The segment dictionaries are objects of a store ([heap]); a list of
      segments is a list of references ([loc]).  [dict.copy] and a dict
      display allocate, [d[k] = v] updates in place, [d[k]] raises
      [KeyError] when the key is absent.
    - Functions that touch the store, call the translation API, sleep or
      write a file run in the monad [M] of state and exceptions over
      [world]. *)

From Stdlib Require Import ZArith NArith QArith Qround Qabs Qminmax Lia Lqa.
From Stdlib Require Import String Ascii List DecimalString DecimalN Sorted.
From stdpp Require Import base option list gmap strings.
Import ListNotations.

(* ===================================================================== *)
(** * Python primitives                                                   *)
(* ===================================================================== *)

Module Py.

(** ** Exceptions and results *)

Inductive exn_class :=
| KeyError
| IndexError
| ValueError
| TranslationError
| RateLimitError
| APIError
| OtherError.

(** An exception object: its class, its message and the exception it was
    raised [from], if any. *)
Record exn := Exn {
  exn_cls : exn_class;
  exn_msg : string;
  exn_cause : option (exn_class * string)
}.

(** [raise cls(msg)] and [raise cls(msg) from e]. *)
Definition exn_new (cls : exn_class) (msg : string) : exn := Exn cls msg None.
Definition exn_from (cls : exn_class) (msg : string) (e : exn) : exn :=
Exn cls msg (Some (exn_cls e, exn_msg e)).

Inductive result (A : Type) :=
| Ok (a : A)
| Raise (e : exn).
Arguments Ok {A} a.
Arguments Raise {A} e.

Definition is_ok {A} (r : result A) : bool :=
match r with Ok _ => true | Raise _ => false end.

(** ** Characters *)

Definition LF : ascii := "010"%char.

(** [str.isspace] on ASCII: TAB, LF, VT, FF, CR, FS, GS, RS, US, SPACE. *)
Definition is_space (c : ascii) : bool :=
let n := nat_of_ascii c in
((9 <=? n) && (n <=? 13)) || ((28 <=? n) && (n <=? 32)).

Definition is_digit (c : ascii) : bool :=
let n := nat_of_ascii c in (48 <=? n) && (n <=? 57).

Definition digit_val (c : ascii) : N := N.of_nat (nat_of_ascii c - 48).

Definition lower (c : ascii) : ascii :=
let n := nat_of_ascii c in
if (65 <=? n) && (n <=? 90) then ascii_of_nat (n + 32) else c.

(** ** Strings *)

Abbreviation chars := list_ascii_of_string.
Abbreviation of_chars := string_of_list_ascii.

(** [len(s) == 0], i.e. [not s]. *)
Definition str_empty (s : string) : bool :=
match s with EmptyString => true | String _ _ => false end.

(** [s.replace(c, rep)] for a pattern [c] of one character. *)
Fixpoint str_replace (c : ascii) (rep : string) (s : string) : string :=
match s with
| EmptyString => EmptyString
| String a s' =>
    if Ascii.eqb a c then rep +:+ str_replace c rep s'
    else String a (str_replace c rep s')
end.

(** [s.split(sep)] for a separator of one character, as the pair of the
    first field and the remaining fields. *)
Fixpoint split_fields (sep : ascii) (s : string) : string * list string :=
match s with
| EmptyString => (EmptyString, [])
| String a s' =>
    let '(f, fs) := split_fields sep s' in
    if Ascii.eqb a sep then (EmptyString, f :: fs) else (String a f, fs)
end.

Definition str_split (sep : ascii) (s : string) : list string :=
let '(f, fs) := split_fields sep s in f :: fs.

Fixpoint drop_spaces (l : list ascii) : list ascii :=
match l with
| c :: l' => if is_space c then drop_spaces l' else l
| [] => []
end.

Definition lstrip_chars (l : list ascii) : list ascii := drop_spaces l.
Definition rstrip_chars (l : list ascii) : list ascii :=
rev (drop_spaces (rev l)).
Definition strip_chars (l : list ascii) : list ascii :=
rstrip_chars (lstrip_chars l).

(** [s.strip()]. *)
Definition str_strip (s : string) : string := of_chars (strip_chars (chars s)).

(** [sep.join(l)]. *)
Fixpoint str_join (sep : string) (l : list string) : string :=
match l with
| [] => EmptyString
| [s] => s
| s :: l' => s +:+ sep +:+ str_join sep l'
end.

(** ** Integers as text *)

(** [str(n)] for a natural number. *)
Definition str_of_N (n : N) : string := NilEmpty.string_of_uint (N.to_uint n).

(** [str(z)], also [f"{z}"] and [f"{z:d}"]. *)
Definition str_of_Z (z : Z) : string :=
match z with
| Zneg p => "-" +:+ str_of_N (Npos p)
| _ => str_of_N (Z.to_N z)
end.

Fixpoint zeros (n : nat) : string :=
match n with O => EmptyString | S n' => String "0"%char (zeros n') end.

(** The sign-aware zero padding of the [0w] format specifications: the
    digits [body] behind the optional sign are padded to [width]. *)
Definition zero_pad (width : nat) (neg : bool) (body : string) : string :=
let sign := if neg then "-" else "" in
sign +:+ zeros (width - String.length sign - String.length body) +:+ body.

(** [f"{z:0wd}"]. *)
Definition format_0d (width : nat) (z : Z) : string :=
zero_pad width (z <? 0)%Z (str_of_N (Z.abs_N z)).

(** Rounding to the nearest integer, ties to even, as the [f] presentation
    type rounds the exact value of its argument. *)
Definition round_half_even (q : Q) : Z :=
let f := Qfloor q in
let r := (q - inject_Z f)%Q in
match (r ?= 1 # 2)%Q with
| Lt => f
| Gt => (f + 1)%Z
| Eq => if Z.even f then f else (f + 1)%Z
end.

(** [f"{q:0w.2f}"]: two decimals, zero padded to [width]. *)
Definition format_0_2f (width : nat) (q : Q) : string :=
let c := Z.abs_N (round_half_even (Qabs q * 100)) in
zero_pad width (negb (Qle_bool 0 q))
  (str_of_N (c / 100) +:+ "." +:+ zero_pad 2 false (str_of_N (c mod 100))).

(** ** Text as numbers: [int(s)] and [float(s)] *)

(** The fold of [int] over a run of decimal digits. *)
Definition digits_value (ds : list ascii) : N :=
fold_left (fun a c => (10 * a + digit_val c)%N) ds 0%N.

(** After a digit: more digits, each optionally preceded by one
    underscore.  Returns the digits read and the rest of the input. *)
Fixpoint scan_more (l : list ascii) : list ascii * list ascii :=
match l with
| c :: l' =>
    if is_digit c then
      let '(ds, r) := scan_more l' in (c :: ds, r)
    else if Ascii.eqb c "_"%char then
      match l' with
      | d :: l'' =>
          if is_digit d then
            let '(ds, r) := scan_more l'' in (d :: ds, r)
          else ([], l)
      | [] => ([], l)
      end
    else ([], l)
| [] => ([], [])
end.

(** A digit part [digit (["_"] digit)*]; no digits read when the input does
    not start with a digit. *)
Definition scan_digits (l : list ascii) : list ascii * list ascii :=
match l with
| c :: l' =>
    if is_digit c then let '(ds, r) := scan_more l' in (c :: ds, r)
    else ([], l)
| [] => ([], [])
end.

(** An optional sign; [true] for minus. *)
Definition scan_sign (l : list ascii) : bool * list ascii :=
match l with
| c :: l' =>
    if Ascii.eqb c "-"%char then (true, l')
    else if Ascii.eqb c "+"%char then (false, l')
    else (false, l)
| [] => (false, [])
end.

(** [int(s)]: surrounding whitespace, an optional sign, a digit part. *)
Definition py_int (s : string) : option Z :=
let '(neg, l) := scan_sign (strip_chars (chars s)) in
match scan_digits l with
| ((_ :: _) as ds, []) =>
    let v := Z.of_N (digits_value ds) in
    Some (if neg then (- v)%Z else v)
| _ => None
end.

(** The value of [float(s)]: a number, an infinity or a NaN. *)
Inductive pyfloat :=
| PFin (q : Q)
| PInf (neg : bool)
| PNaN.

Definition pow10 (e : Z) : Q :=
match e with
| Zneg p => (1 # (10 ^ p))%Q
| _ => inject_Z (10 ^ e)
end.

(** The optional exponent [("e"|"E") [sign] digitpart] at the end of a
    decimal literal. *)
Definition scan_exponent (l : list ascii) : option Z :=
match l with
| [] => Some 0%Z
| c :: l' =>
    if Ascii.eqb (lower c) "e"%char then
      let '(neg, l'') := scan_sign l' in
      match scan_digits l'' with
      | ((_ :: _) as ds, []) =>
          let v := Z.of_N (digits_value ds) in
          Some (if neg then (- v)%Z else v)
      | _ => None
      end
    else None
end.

(** A decimal literal [digitpart ["." [digitpart]] [exponent]] or
    ["." digitpart [exponent]]. *)
Definition scan_decimal (l : list ascii) : option Q :=
let '(ip, r) := scan_digits l in
let '(fp, r') :=
  match r with
  | c :: r0 => if Ascii.eqb c "."%char then scan_digits r0 else ([], r)
  | [] => ([], [])
  end in
match ip, fp with
| [], [] => None
| _, _ =>
    match scan_exponent r' with
    | Some e =>
        Some (inject_Z (Z.of_N (digits_value (ip ++ fp)))
              * pow10 (e - Z.of_nat (length fp)))%Q
    | None => None
    end
end.

(** [float(s)]: surrounding whitespace, an optional sign, then [inf],
    [infinity] or [nan] in any case, or a decimal literal. *)
Definition py_float (s : string) : option pyfloat :=
let '(neg, l) := scan_sign (strip_chars (chars s)) in
let w := of_chars (map lower l) in
if String.eqb w "inf" || String.eqb w "infinity" then Some (PInf neg)
else if String.eqb w "nan" then Some PNaN
else
  match scan_decimal l with
  | Some q => Some (PFin (if neg then (- q)%Q else q))
  | None => None
  end.

#[global] Instance result_ret : MRet result := fun A a => Ok a.
#[global] Instance result_bind : MBind result := fun A B f r =>
match r with Ok a => f a | Raise e => Raise e end.

(** The builtins as fallible functions. *)
Definition int_of_str (s : string) : result Z :=
match py_int s with
| Some z => Ok z
| None => Raise (exn_new ValueError "invalid literal for int() with base 10")
end.

Definition float_of_str (s : string) : result pyfloat :=
match py_float s with
| Some x => Ok x
| None => Raise (exn_new ValueError "could not convert string to float")
end.

(** [n + x] for an [int] and a [float]. *)
Definition int_add_float (n : Z) (x : pyfloat) : pyfloat :=
match x with
| PFin q => PFin (inject_Z n + q)
| PInf s => PInf s
| PNaN => PNaN
end.

End Py.

(* ===================================================================== *)
(** * utils/time_utils.py                                                 *)
(* ===================================================================== *)

Module TimeUtils.
Import Py.

(** [x // y] and [x % y] on floats (the divisors used are positive
    constants), and [int(x)]. *)
Definition float_floordiv (x y : Q) : Q := inject_Z (Qfloor (x / y)).
Definition float_mod (x y : Q) : Q := (x - y * inject_Z (Qfloor (x / y)))%Q.
Definition int_of_float (x : Q) : Z := Z.quot (Qnum x) (Zpos (Qden x)).

Definition Qltb (x y : Q) : bool := negb (Qle_bool y x).

Definition seconds_to_ass_time (seconds : Q) : string :=
let seconds := if Qltb seconds 0 then 0%Q else seconds in
let hours := int_of_float (float_floordiv seconds 3600) in
let minutes := int_of_float (float_floordiv (float_mod seconds 3600) 60) in
let secs := float_mod seconds 60 in
str_of_Z hours +:+ ":" +:+ format_0d 2 minutes +:+ ":" +:+ format_0_2f 5 secs.

Definition invalid_format (time_str : string) : string :=
"Invalid ASS time format: " +:+ time_str.

(** The body of the [try] block. *)
Definition parse_parts (parts : list string) : result pyfloat :=
hours ← int_of_str (nth 0 parts "");
minutes ← int_of_str (nth 1 parts "");
seconds ← float_of_str (nth 2 parts "");
Ok (int_add_float (hours * 3600 + minutes * 60) seconds).

Definition ass_time_to_seconds (time_str : string) : result pyfloat :=
let parts := str_split ":" time_str in
if negb (length parts =? 3)%nat then
  Raise (exn_new ValueError (invalid_format time_str))
else
  match parse_parts parts with
  | Ok v => Ok v
  | Raise e =>
      match exn_cls e with
      | ValueError | IndexError =>
          Raise (exn_from ValueError (invalid_format time_str) e)
      | _ => Raise e
      end
  end.

Definition format_duration (seconds : Q) : string :=
let seconds := if Qltb seconds 0 then 0%Q else seconds in
let hours := int_of_float (float_floordiv seconds 3600) in
let minutes := int_of_float (float_floordiv (float_mod seconds 3600) 60) in
let secs := int_of_float (float_mod seconds 60) in
let parts := [] in
let parts :=
  if (0 <? hours)%Z then parts ++ [str_of_Z hours +:+ "h"] else parts in
let parts :=
  if (0 <? minutes)%Z || (0 <? hours)%Z
  then parts ++ [str_of_Z minutes +:+ "m"] else parts in
let parts := parts ++ [str_of_Z secs +:+ "s"] in
str_join " " parts.

End TimeUtils.

(* ===================================================================== *)
(** * The store of segment dictionaries and the monad of effects          *)
(* ===================================================================== *)

Module Store.
Import Py.

(** A segment dictionary, over the five keys the program uses.  A key
    that is absent from the dictionary is [None]. *)
Record pydict := Dict {
  d_start : option Q;
  d_end : option Q;
  d_text : option string;
  d_speaker : option string;
  d_translation : option string
}.

Definition empty_dict : pydict := Dict None None None None None.

(** A key with the type of its values: its name, how it is read and how
    it is written. *)
Record key (A : Type) := Key {
  key_name : string;
  key_get : pydict -> option A;
  key_set : A -> pydict -> pydict
}.
Arguments key_name {A} k.
Arguments key_get {A} k d.
Arguments key_set {A} k v d.

Definition k_start : key Q :=
Key Q "start" d_start
  (fun v d => Dict (Some v) (d_end d) (d_text d) (d_speaker d) (d_translation d)).
Definition k_end : key Q :=
Key Q "end" d_end
  (fun v d => Dict (d_start d) (Some v) (d_text d) (d_speaker d) (d_translation d)).
Definition k_text : key string :=
Key string "text" d_text
  (fun v d => Dict (d_start d) (d_end d) (Some v) (d_speaker d) (d_translation d)).
Definition k_speaker : key string :=
Key string "speaker" d_speaker
  (fun v d => Dict (d_start d) (d_end d) (d_text d) (Some v) (d_translation d)).
Definition k_translation : key string :=
Key string "translation" d_translation
  (fun v d => Dict (d_start d) (d_end d) (d_text d) (d_speaker d) (Some v)).

(** References to dictionaries are indices into the store. *)
Abbreviation loc := nat.
Abbreviation heap := (list pydict).

(** Everything a run can observe or change: the store, the number of
    requests sent to the translation API, the delays slept, the calls of
    the progress callback and the files written. *)
Record world := World {
  w_heap : heap;
  w_api_calls : nat;
  w_sleeps : list Q;
  w_progress : list (nat * nat);
  w_files : gmap string string
}.

Definition set_heap (h : heap) (w : world) : world :=
World h (w_api_calls w) (w_sleeps w) (w_progress w) (w_files w).

Definition M (A : Type) : Type := world -> result A * world.

#[global] Instance M_ret : MRet M := fun A a w => (Ok a, w).
#[global] Instance M_bind : MBind M := fun A B f m w =>
match m w with
| (Ok a, w') => f a w'
| (Raise e, w') => (Raise e, w')
end.

Definition raise {A} (e : exn) : M A := fun w => (Raise e, w).

Definition dangling : exn := exn_new OtherError "dangling reference".

(** The dictionary a reference points to. *)
Definition deref (l : loc) : M pydict := fun w =>
match w_heap w !! l with
| Some d => (Ok d, w)
| None => (Raise dangling, w)
end.

(** A dict display, or any other creation of a dictionary. *)
Definition new_dict (d : pydict) : M loc := fun w =>
(Ok (length (w_heap w)), set_heap (w_heap w ++ [d]) w).

(** [d.copy()]. *)
Definition dict_copy (l : loc) : M loc :=
d ← deref l; new_dict d.

(** [d[k]]. *)
Definition getitem {A} (k : key A) (l : loc) : M A :=
d ← deref l;
match key_get k d with
| Some v => mret v
| None => raise (exn_new KeyError (key_name k))
end.

(** [d.get(k, default)]. *)
Definition dict_get {A} (k : key A) (default : A) (l : loc) : M A :=
d ← deref l; mret (from_option id default (key_get k d)).

(** [d[k] = v]. *)
Definition setitem {A} (k : key A) (l : loc) (v : A) : M unit := fun w =>
match w_heap w !! l with
| Some d => (Ok tt, set_heap (<[l := key_set k v d]> (w_heap w)) w)
| None => (Raise dangling, w)
end.

(** A [for] loop whose body updates the local variables [s]. *)
Fixpoint for_each {A S} (l : list A) (body : S -> A -> M S) (s : S) : M S :=
match l with
| [] => mret s
| x :: l' => s' ← body s x; for_each l' body s'
end.

(** A list comprehension [[f x for x in l]]. *)
Fixpoint comprehension {A B} (f : A -> M B) (l : list A) : M (list B) :=
match l with
| [] => mret []
| x :: l' => y ← f x; ys ← comprehension f l'; mret (y :: ys)
end.

End Store.

(* ===================================================================== *)
(** * core/merger.py                                                      *)
(* ===================================================================== *)

Module Merger.
Import Py Store TimeUtils.

(** [max(a, b)] and [min(a, b)] keep their first argument unless the
    second is strictly greater (smaller). *)
Definition py_max (a b : Q) : Q := if Qltb a b then b else a.
Definition py_min (a b : Q) : Q := if Qltb b a then b else a.

(** The body of the loop of [find_best_speaker], on the local variables
    [best_speaker] and [best_overlap]. *)
Definition best_speaker_body (trans_start trans_end : Q)
  (vars : string * Q) (d_seg : loc) : M (string * Q) :=
let '(best_speaker, best_overlap) := vars in
d_start ← getitem k_start d_seg;
let overlap_start := py_max trans_start d_start in
d_end ← getitem k_end d_seg;
let overlap_end := py_min trans_end d_end in
let overlap := py_max 0 (overlap_end - overlap_start) in
if Qltb best_overlap overlap then
  d_speaker ← getitem k_speaker d_seg;
  mret (d_speaker, overlap)
else mret (best_speaker, best_overlap).

Definition find_best_speaker (trans_start trans_end : Q)
  (diarization_segments : list loc) : M string :=
'(best_speaker, best_overlap) ←
  for_each diarization_segments
    (best_speaker_body trans_start trans_end) ("UNKNOWN", 0%Q);
mret best_speaker.

(** [not l] for a list, and for an optional list ([None] or empty). *)
Definition list_empty {A} (l : list A) : bool :=
match l with [] => true | _ :: _ => false end.
Definition opt_list_empty {A} (l : option (list A)) : bool :=
match l with None => true | Some l => list_empty l end.

(** The element of the list comprehension of [merge_segments]. *)
Definition default_speaker_dict (seg : loc) : M loc :=
s ← getitem k_start seg;
e ← getitem k_end seg;
t ← getitem k_text seg;
new_dict (Dict (Some s) (Some e) (Some t) (Some "SPEAKER_00") None).

(** The body of the loop of [merge_segments], on the local variable
    [merged]. *)
Definition merge_body (diarization_segments : list loc)
  (merged : list loc) (trans_seg : loc) : M (list loc) :=
s ← getitem k_start trans_seg;
e ← getitem k_end trans_seg;
speaker ← find_best_speaker s e diarization_segments;
s ← getitem k_start trans_seg;
e ← getitem k_end trans_seg;
t ← getitem k_text trans_seg;
d ← new_dict (Dict (Some s) (Some e) (Some t) (Some speaker) None);
mret (merged ++ [d]).

Definition merge_segments (transcription_segments : list loc)
  (diarization_segments : option (list loc)) : M (list loc) :=
if list_empty transcription_segments then mret []
else if opt_list_empty diarization_segments then
  comprehension default_speaker_dict transcription_segments
else
  for_each transcription_segments
    (merge_body (default [] diarization_segments)) [].

(** The body of the loop of [consolidate_segments], on the local variables
    [consolidated] and [current]. *)
Definition consolidate_body (max_gap max_duration : Q)
  (vars : list loc * option loc) (seg : loc) : M (list loc * option loc) :=
let '(consolidated, current) := vars in
match current with
| None =>
    c ← dict_copy seg;
    mret (consolidated, Some c)
| Some cur =>
    seg_speaker ← getitem k_speaker seg;
    cur_speaker ← getitem k_speaker cur;
    let same_speaker := String.eqb seg_speaker cur_speaker in
    seg_start ← getitem k_start seg;
    cur_end ← getitem k_end cur;
    let small_gap := Qle_bool (seg_start - cur_end) max_gap in
    seg_end ← getitem k_end seg;
    cur_start ← getitem k_start cur;
    let within_duration := Qle_bool (seg_end - cur_start) max_duration in
    if same_speaker && small_gap && within_duration then
      seg_end ← getitem k_end seg;
      setitem k_end cur seg_end;;
      cur_text ← getitem k_text cur;
      seg_text ← getitem k_text seg;
      setitem k_text cur (cur_text +:+ " " +:+ seg_text);;
      mret (consolidated, Some cur)
    else
      c ← dict_copy seg;
      mret (consolidated ++ [cur], Some c)
end.

Definition consolidate_segments (segments : list loc)
  (max_gap max_duration : Q) : M (list loc) :=
if list_empty segments then mret []
else
  '(consolidated, current) ←
    for_each segments (consolidate_body max_gap max_duration) ([], None);
  match current with
  | Some cur => mret (consolidated ++ [cur])
  | None => mret consolidated
  end.

End Merger.

(* ===================================================================== *)
(** * core/translator.py                                                  *)
(* ===================================================================== *)

Module Translator.
Import Py Store TimeUtils Merger.

Definition NL : string := String LF "".

Definition TRANSLATION_PROMPT (input_text : string) : string :=
"あなたはアイドルコンテンツの専門翻訳者です。
以下の日本語を中国語（簡体字）に翻訳してください。

ルール:
- 自然で流暢な中国語にする
- アイドル用語は適切に翻訳する（例: 推し→本命/推、センター→C位、握手会→握手会/签名会）
- 番号付きで出力する
- 翻訳のみ出力し、説明は不要
- 各行の番号は入力と同じ番号を使用する

入力:
" +:+ input_text +:+ "

出力:".

(** ** The numbered-line pattern *)

(** The longest prefix of characters of a class, and the rest. *)
Fixpoint span (p : ascii -> bool) (l : list ascii) : list ascii * list ascii :=
match l with
| c :: l' =>
    if p c then let '(a, b) := span p l' in (c :: a, b) else ([], l)
| [] => ([], [])
end.

(** The class [[.:\s]]. *)
Definition is_sep (c : ascii) : bool :=
Ascii.eqb c "."%char || Ascii.eqb c ":"%char || is_space c.

(** The class of [.]: any character but a line feed. *)
Definition is_dot (c : ascii) : bool := negb (Ascii.eqb c LF).

(** [(.+)$] against the rest of the input: the longest run of [.], not
    empty, up to the end of the input or to a final line feed. *)
Definition dot_plus_end (t : list ascii) : option (list ascii) :=
match span is_dot t with
| ((_ :: _) as r, []) => Some r
| ((_ :: _) as r, [_]) => Some r
| _ => None
end.

(** [[.:\s]+(.+)$] with backtracking: [taken] are the separators consumed,
    the last one first, and [t] is the input after them; the separators
    are given back one at a time until the rest of the pattern matches. *)
Fixpoint seps_then_text (taken : list ascii) (t : list ascii)
  : option (list ascii) :=
match taken with
| [] => None
| c :: taken' =>
    match dot_plus_end t with
    | Some r => Some r
    | None => seps_then_text taken' (c :: t)
    end
end.

(** [re.match(r"^\s*(\d+)[.:\s]+(.+)$", line)]: the groups 1 and 2 of the
    match, if there is one. *)
Definition re_match (line : string) : option (string * string) :=
let '(_, l1) := span is_space (chars line) in
let '(ds, l2) := span is_digit l1 in
match ds with
| [] => None
| _ :: _ =>
    let '(seps, t) := span is_sep l2 in
    match seps_then_text (rev seps) t with
    | Some r => Some (of_chars ds, of_chars r)
    | None => None
    end
end.

(** [int(s)] on group 1, a run of digits. *)
Definition int_of_digits (s : string) : N := digits_value (chars s).

Definition parse_numbered_response (response : string) (expected_count : nat)
  : list string :=
let translations : gmap N string :=
  fold_left
    (fun translations line =>
       match re_match (str_strip line) with
       | Some (g1, g2) =>
           let num := int_of_digits g1 in
           let text := str_strip g2 in
           <[num := text]> translations
       | None => translations
       end)
    (str_split LF (str_strip response)) ∅ in
map (fun i => match translations !! N.of_nat i with
              | Some t => t
              | None => ""
              end)
    (seq 1 expected_count).

(** ** The translation collaborator *)

(** What one request to the API amounts to: the text of the first content
    block of the message, or an exception. *)
Inductive api_outcome :=
| Returns (response_text : string)
| Raises (e : exn).

Section WithClient.

(** The collaborator: the outcome of the [n]-th request ever made, for a
    model and a prompt; and whether the [anthropic] package can be
    imported. *)
Variable create : nat -> string -> string -> api_outcome.
Variable anthropic_installed : bool.

Definition messages_create (model content : string) : M api_outcome := fun w =>
(Ok (create (w_api_calls w) model content),
 World (w_heap w) (S (w_api_calls w)) (w_sleeps w) (w_progress w) (w_files w)).

(** [time.sleep(secs)]. *)
Definition sleep (secs : Q) : M unit := fun w =>
if Qltb secs 0 then
  (Raise (exn_new ValueError "sleep length must be non-negative"), w)
else
  (Ok tt,
   World (w_heap w) (w_api_calls w) (w_sleeps w ++ [secs]) (w_progress w)
     (w_files w)).

(** [str(last_error)]. *)
Definition str_of_error (last_error : option exn) : string :=
match last_error with
| Some e => exn_msg e
| None => "None"
end.

Definition numbered_input (texts : list string) : string :=
str_join NL (imap (fun i text => str_of_N (N.of_nat (i + 1)) +:+ ". " +:+ text) texts).

(** The retry loop of [translate_batch] over the remaining attempts. *)
Fixpoint attempt_loop (texts : list string) (model : string)
  (max_retries : nat) (retry_delay_base : Q) (input_text : string)
  (attempts : list nat) (last_error : option exn) : M (list string) :=
match attempts with
| [] =>
    raise (exn_new TranslationError
             ("Translation failed after " +:+ str_of_N (N.of_nat max_retries)
              +:+ " attempts: " +:+ str_of_error last_error))
| attempt :: attempts' =>
    r ← messages_create model (TRANSLATION_PROMPT input_text);
    match r with
    | Returns response_text =>
        let translations :=
          parse_numbered_response response_text (length texts) in
        mret translations
    | Raises e =>
        match exn_cls e with
        | RateLimitError =>
            let wait_time := (retry_delay_base * inject_Z (2 ^ Z.of_nat attempt))%Q in
            sleep wait_time;;
            attempt_loop texts model max_retries retry_delay_base input_text
              attempts' (Some e)
        | APIError =>
            if (attempt <? max_retries - 1)%nat then
              let wait_time := (retry_delay_base * inject_Z (2 ^ Z.of_nat attempt))%Q in
              sleep wait_time;;
              attempt_loop texts model max_retries retry_delay_base input_text
                attempts' (Some e)
            else
              raise (exn_from TranslationError
                       ("Claude API error: " +:+ exn_msg e) e)
        | _ => raise e
        end
    end
end.

Definition translate_batch (texts : list string) (api_key : string)
  (model : string) (max_retries : nat) (retry_delay_base : Q)
  : M (list string) :=
if list_empty texts then mret []
else if str_empty api_key then
  raise (exn_new TranslationError
           "Claude API key is required. Set it via CLAUDE_API_KEY environment variable.")
else if negb anthropic_installed then
  raise (exn_new TranslationError
           "anthropic package is not installed. Please install it with: pip install anthropic")
else
  let input_text := numbered_input texts in
  attempt_loop texts model max_retries retry_delay_base input_text
    (seq 0 max_retries) None.

(** A call [progress_callback(current, total)]: the callback records its
    arguments. *)
Definition call_progress (current total : nat) : M unit := fun w =>
(Ok tt,
 World (w_heap w) (w_api_calls w) (w_sleeps w)
   (w_progress w ++ [(current, total)]) (w_files w)).

(** [range(0, stop, step)]. *)
Definition range_step (stop : nat) (step : Z) : M (list nat) :=
match step with
| Z0 => raise (exn_new ValueError "range() arg 3 must not be zero")
| Zneg _ => mret []
| Zpos p =>
    let n := Pos.to_nat p in
    mret (map (fun k => k * n)%nat (seq 0 ((stop + n - 1) / n)))
end.

(** [l[i:j]] for [0 <= i <= j]. *)
Definition slice {A} (l : list A) (i j : nat) : list A := take (j - i) (drop i l).

(** The body of the inner loop of [translate_segments], on the local
    variable [result]. *)
Definition attach_body (result : list loc) (pair : loc * string)
  : M (list loc) :=
let '(seg, translation) := pair in
new_seg ← dict_copy seg;
setitem k_translation new_seg translation;;
mret (result ++ [new_seg]).

(** The body of the outer loop of [translate_segments], on the local
    variable [result]. *)
Definition batch_body (segments : list loc) (api_key : string)
  (batch_size : Z) (model : string) (max_retries : nat)
  (progress_callback : bool) (total : nat)
  (result : list loc) (i : nat) : M (list loc) :=
let batch := slice segments i (i + Z.to_nat batch_size) in
texts ← comprehension (getitem k_text) batch;
translations ← translate_batch texts api_key model max_retries 1;
result ← for_each (zip batch translations) attach_body result;
(if progress_callback then
   call_progress (Nat.min (i + Z.to_nat batch_size) total) total
 else mret tt);;
mret result.

Definition translate_segments (segments : list loc) (api_key : string)
  (batch_size : Z) (model : string) (max_retries : nat)
  (progress_callback : bool) : M (list loc) :=
if list_empty segments then mret []
else
  let total := length segments in
  starts ← range_step total batch_size;
  for_each starts
    (batch_body segments api_key batch_size model max_retries
       progress_callback total)
    [].

End WithClient.

End Translator.

(* ===================================================================== *)
(** * models/segment.py                                                   *)
(* ===================================================================== *)

Module Models.
Import Py.

Record Suggestion := {
  type : string;
  field : string;
  original : string;
  suggested : string;
  reason : string;
  add_to_dict : bool
}.

Record Segment := {
  id : Z;
  start : Q;
  end_ : Q;
  speaker : string;
  text_ja : string;
  text_zh : string;
  status : string;
  suggestions : list Suggestion
}.

(** The dictionaries [to_dict] builds and [from_dict] reads, over the keys
    the two methods use; a key that is absent is [None]. *)
Record suggestion_dict := {
  sd_type : option string;
  sd_field : option string;
  sd_original : option string;
  sd_suggested : option string;
  sd_reason : option string;
  sd_add_to_dict : option bool
}.

Record segment_dict := {
  gd_id : option Z;
  gd_start : option Q;
  gd_end : option Q;
  gd_speaker : option string;
  gd_text_ja : option string;
  gd_text_zh : option string;
  gd_status : option string;
  gd_suggestions : option (list suggestion_dict)
}.

(** [d[name]] on the value [o] the dictionary holds for the key. *)
Definition item {A} (name : string) (o : option A) : result A :=
match o with
| Some v => Ok v
| None => Raise (exn_new KeyError name)
end.

(** A list comprehension whose element may raise. *)
Fixpoint list_comprehension {A B} (f : A -> result B) (l : list A) : result (list B) :=
match l with
| [] => Ok []
| x :: l' => y ← f x; ys ← list_comprehension f l'; Ok (y :: ys)
end.

Definition suggestion_to_dict (s : Suggestion) : suggestion_dict :=
{| sd_type := Some (type s);
   sd_field := Some (field s);
   sd_original := Some (original s);
   sd_suggested := Some (suggested s);
   sd_reason := Some (reason s);
   sd_add_to_dict := Some (add_to_dict s) |}.

Definition to_dict (self : Segment) : segment_dict :=
{| gd_id := Some (id self);
   gd_start := Some (start self);
   gd_end := Some (end_ self);
   gd_speaker := Some (speaker self);
   gd_text_ja := Some (text_ja self);
   gd_text_zh := Some (text_zh self);
   gd_status := Some (status self);
   gd_suggestions := Some (map suggestion_to_dict (suggestions self)) |}.

Definition suggestion_from_dict (s : suggestion_dict) : result Suggestion :=
type ← item "type" (sd_type s);
field ← item "field" (sd_field s);
original ← item "original" (sd_original s);
suggested ← item "suggested" (sd_suggested s);
reason ← item "reason" (sd_reason s);
Ok {| type := type; field := field; original := original;
      suggested := suggested; reason := reason;
      add_to_dict := default false (sd_add_to_dict s) |}.

Definition from_dict (data : segment_dict) : result Segment :=
suggestions ←
  list_comprehension suggestion_from_dict (default [] (gd_suggestions data));
id ← item "id" (gd_id data);
start ← item "start" (gd_start data);
end_ ← item "end" (gd_end data);
speaker ← item "speaker" (gd_speaker data);
text_ja ← item "text_ja" (gd_text_ja data);
Ok {| id := id; start := start; end_ := end_; speaker := speaker;
      text_ja := text_ja;
      text_zh := default "" (gd_text_zh data);
      status := default "ok" (gd_status data);
      suggestions := suggestions |}.

Definition duration (self : Segment) : Q := (end_ self - start self)%Q.

End Models.

(* ===================================================================== *)
(** * utils/ass_generator.py                                              *)
(* ===================================================================== *)

Module AssGenerator.
Import Py Store TimeUtils Merger Translator.

Definition SPEAKER_COLORS : gmap string string :=
list_to_map
  [("SPEAKER_00", "&H00FFFFFF");
   ("SPEAKER_01", "&H0000FFFF");
   ("SPEAKER_02", "&H00FF8080");
   ("SPEAKER_03", "&H008000FF");
   ("UNKNOWN", "&H00C0C0C0")].

Definition DEFAULT_STYLE_TEMPLATE (name color : string) : string :=
"Style: " +:+ name +:+ ",Arial,48," +:+ color
+:+ ",&H000000FF,&H00000000,&H80000000,"
+:+ "0,0,0,0,100,100,0,0,1,2,1,2,10,10,10,1".

Definition ASS_HEADER (styles : string) : string :=
"[Script Info]
Title: Generated Subtitles
ScriptType: v4.00+
PlayResX: 1920
PlayResY: 1080
WrapStyle: 0

[V4+ Styles]
Format: Name, Fontname, Fontsize, PrimaryColour, SecondaryColour, OutlineColour, BackColour, Bold, Italic, Underline, StrikeOut, ScaleX, ScaleY, Spacing, Angle, BorderStyle, Outline, Shadow, Alignment, MarginL, MarginR, MarginV, Encoding
" +:+ styles +:+ "

[Events]
Format: Layer, Start, End, Style, Name, MarginL, MarginR, MarginV, Effect, Text
".

(** [SPEAKER_COLORS["UNKNOWN"]]. *)
Definition unknown_color : string := default "" (SPEAKER_COLORS !! "UNKNOWN").

(** [x in l] for a list of strings. *)
Definition str_in (x : string) (l : list string) : bool :=
existsb (String.eqb x) l.

Definition generate_styles (speakers : list string) : string :=
let styles :=
  map (fun speaker =>
         let color := default unknown_color (SPEAKER_COLORS !! speaker) in
         DEFAULT_STYLE_TEMPLATE speaker color)
      speakers in
let styles :=
  if negb (str_in "UNKNOWN" speakers) then
    styles ++ [DEFAULT_STYLE_TEMPLATE "UNKNOWN" unknown_color]
  else styles in
str_join NL styles.

Definition escape_ass_text (text : string) : string :=
let text := str_replace LF "\N" text in
let text := str_replace "}"%char "\}" (str_replace "{"%char "\{" text) in
text.

(** The value of the local variable [text] of [generate_dialogue_line]:
    the rendered text of the cue. *)
Definition dialogue_text (text_ja text_zh : string) : string :=
if negb (str_empty text_zh) then
  escape_ass_text text_ja +:+ "\N" +:+ escape_ass_text text_zh
else escape_ass_text text_ja.

Definition generate_dialogue_line (start end_ : Q) (speaker text_ja text_zh : string)
  : string :=
let start_time := seconds_to_ass_time start in
let end_time := seconds_to_ass_time end_ in
let text := dialogue_text text_ja text_zh in
"Dialogue: 0," +:+ start_time +:+ "," +:+ end_time +:+ "," +:+ speaker
+:+ ",,0,0,0,," +:+ text.

(** [sorted(set(l))]: the distinct strings of [l] in ascending order. *)
Fixpoint insert_sorted (x : string) (l : list string) : list string :=
match l with
| [] => [x]
| y :: l' =>
    match String.compare x y with
    | Lt => x :: l
    | Eq => l
    | Gt => y :: insert_sorted x l'
    end
end.

Definition sorted_set (l : list string) : list string :=
fold_left (fun acc x => insert_sorted x acc) l [].

(** The body of the loop of [generate_ass], on the local variable
    [dialogues]. *)
Definition dialogue_body (include_translation : bool)
  (dialogues : list string) (seg : loc) : M (list string) :=
text_ja ← dict_get k_text "" seg;
text_zh ← (if include_translation then dict_get k_translation "" seg
           else mret "");
speaker ← dict_get k_speaker "UNKNOWN" seg;
start ← getitem k_start seg;
end_ ← getitem k_end seg;
let dialogue := generate_dialogue_line start end_ speaker text_ja text_zh in
mret (dialogues ++ [dialogue]).

(** [open(path, "w").write(content)]. *)
Definition write_file (path content : string) : M unit := fun w =>
(Ok tt,
 World (w_heap w) (w_api_calls w) (w_sleeps w) (w_progress w)
   (<[path := content]> (w_files w))).

(** [generate_ass]; the paths are kept as the strings given (the
    normalisation of [pathlib.Path] and the creation of the parent
    directory are not modelled). *)
Definition generate_ass (segments : list loc) (output_path : string)
  (include_translation : bool) : M string :=
if list_empty segments then raise (exn_new ValueError "No segments provided")
else
  names ← comprehension (dict_get k_speaker "UNKNOWN") segments;
  let speakers := sorted_set names in
  let styles := generate_styles speakers in
  dialogues ← for_each segments (dialogue_body include_translation) [];
  let ass_content := ASS_HEADER styles +:+ str_join NL dialogues +:+ NL in
  write_file output_path ass_content;;
  mret output_path.

(** The body of the loop of [generate_ass_from_model], on the local
    variable [dict_segments]. *)
Definition model_dict_body (dict_segments : list loc) (seg : Models.Segment)
  : M (list loc) :=
d ← new_dict (Dict (Some (Models.start seg)) (Some (Models.end_ seg))
                (Some (Models.text_ja seg)) (Some (Models.speaker seg))
                (Some (Models.text_zh seg)));
mret (dict_segments ++ [d]).

Definition generate_ass_from_model (segments : list Models.Segment)
  (output_path : string) (include_translation : bool) : M string :=
dict_segments ← for_each segments model_dict_body [];
generate_ass dict_segments output_path include_translation.

End AssGenerator.

(* ===================================================================== *)
(** * core/diarizer.py                                                    *)
(* ===================================================================== *)

Module Diarizer.
Import Py Store AssGenerator.

(** The dictionary [speaker_durations], from speaker to seconds, in the
    order in which the speakers were first inserted. *)
Fixpoint durations_get (k : string) (dflt : Q) (d : list (string * Q)) : Q :=
match d with
| [] => dflt
| (k', v) :: d' => if String.eqb k' k then v else durations_get k dflt d'
end.

Fixpoint durations_set (k : string) (v : Q) (d : list (string * Q))
  : list (string * Q) :=
match d with
| [] => [(k, v)]
| (k', v') :: d' =>
    if String.eqb k' k then (k', v) :: d'
    else (k', v') :: durations_set k v d'
end.

(** [sum(l)]. *)
Definition py_sum (l : list Q) : Q := fold_left Qplus l 0%Q.

(** The dictionary [get_speaker_stats] returns. *)
Record speaker_stats := {
  speakers : list string;
  total_duration : Q;
  speaker_durations : list (string * Q)
}.

(** The body of the loop of [get_speaker_stats], on the local variables
    [speakers] and [speaker_durations]. *)
Definition stats_body (vars : gset string * list (string * Q)) (segment : loc)
  : M (gset string * list (string * Q)) :=
let '(speakers, speaker_durations) := vars in
speaker ← getitem k_speaker segment;
e ← getitem k_end segment;
s ← getitem k_start segment;
let duration := (e - s)%Q in
mret ({[speaker]} ∪ speakers,
      durations_set speaker
        (durations_get speaker 0 speaker_durations + duration)%Q
        speaker_durations).

Definition get_speaker_stats (segments : list loc) : M speaker_stats :=
'(speakers, speaker_durations) ← for_each segments stats_body (∅, []);
mret {| speakers := sorted_set (elements speakers);
        total_duration := py_sum (map snd speaker_durations);
        speaker_durations := speaker_durations |}.

End Diarizer.

(* ===================================================================== *)
(** * core/pipeline.py                                                    *)
(* ===================================================================== *)

Module Pipeline.
Import Py Store Merger Translator AssGenerator.

Section WithCollaborator.

Variable create : nat -> string -> string -> api_outcome.
Variable anthropic_installed : bool.

(** The steps 4 to 6 of [process_video]: from the transcription and the
    diarization to the subtitle file.  The reports to the progress callback
    of the pipeline are left out: [process_video_simple] passes none. *)
Definition merge_translate_generate (transcription_segments : list loc)
  (diarization_segments : option (list loc)) (claude_api_key : string)
  (translation_batch_size : Z) (claude_model : string) (max_retries : nat)
  (output_path : string) : M string :=
merged_segments ← merge_segments transcription_segments diarization_segments;
merged_segments ← consolidate_segments merged_segments 0.5 10;
translated_segments ←
  translate_segments create anthropic_installed merged_segments
    claude_api_key translation_batch_size claude_model max_retries true;
generate_ass translated_segments output_path true.

End WithCollaborator.

End Pipeline.

Import Py Store TimeUtils Merger Translator AssGenerator.

(* ===================================================================== *)
(** * The vocabulary of the properties                                    *)
(* ===================================================================== *)

(** ** References and the store *)

(** The references [ls] point to the dictionaries [ds], in order. *)
Definition refers (w : world) (ls : list loc) (ds : list pydict) : Prop :=
Forall2 (fun l d => w_heap w !! l = Some d) ls ds.

(** The world after the dictionaries [ext] have been added to the store;
    nothing else differs. *)
Definition extend (w : world) (ext : list pydict) : world :=
set_heap (w_heap w ++ ext) w.

(** A postcondition on the outcome of a computation. *)
Definition wp {A} (m : M A) (w : world) (Q : result A -> world -> Prop) : Prop :=
Q (fst (m w)) (snd (m w)).

(** The values of a dictionary's keys, for dictionaries that have them. *)
Definition start_of (d : pydict) : Q := default 0%Q (d_start d).
Definition end_of (d : pydict) : Q := default 0%Q (d_end d).
Definition text_of (d : pydict) : string := default "" (d_text d).
Definition label_of (d : pydict) : string := default "" (d_speaker d).

(** The shapes of the data model: a TimedText has [start], [end] and
    [text]; a SpeakerTurn has [start], [end] and [speaker]; a cue has all
    four. *)
Definition is_text (d : pydict) : Prop :=
is_Some (d_start d) /\ is_Some (d_end d) /\ is_Some (d_text d).

Definition is_turn (d : pydict) : Prop :=
is_Some (d_start d) /\ is_Some (d_end d) /\ is_Some (d_speaker d).

Definition is_cue (d : pydict) : Prop :=
is_Some (d_start d) /\ is_Some (d_end d) /\ is_Some (d_text d) /\
is_Some (d_speaker d).

Definition has_text (d : pydict) : Prop := is_Some (d_text d).

Definition has_times (d : pydict) : Prop :=
is_Some (d_start d) /\ is_Some (d_end d).

(** ** Speaker assignment *)

(** The overlap of the interval [[ts, te]] with a turn, in the words of
    the specification. *)
Definition overlap (ts te : Q) (d : pydict) : Q :=
Qmax 0 (Qmin te (end_of d) - Qmax ts (start_of d)).

(** The overlap as [find_best_speaker] computes it. *)
Definition code_overlap (ts te : Q) (d : pydict) : Q :=
py_max 0 (py_min te (end_of d) - py_max ts (start_of d)).

(** One iteration of [find_best_speaker] on the dictionary read. *)
Definition best_step (ts te : Q) (st : string * Q) (d : pydict) : string * Q :=
if Qltb (snd st) (code_overlap ts te d) then (label_of d, code_overlap ts te d)
else st.

(** The label [find_best_speaker] computes for an interval. *)
Definition best_label (ts te : Q) (turns : list pydict) : string :=
fst (fold_left (best_step ts te) turns ("UNKNOWN", 0%Q)).

(** What the scan has found after a prefix of the turns: nothing with a
    positive overlap, or the first turn of greatest overlap. *)
Definition best_so_far (ts te : Q) (turns : list pydict) (st : string * Q) : Prop :=
(forall j d, turns !! j = Some d -> (overlap ts te d <= snd st)%Q) /\
((fst st = "UNKNOWN" /\ snd st = 0%Q /\
  forall j d, turns !! j = Some d -> ~ (0 < overlap ts te d)%Q) \/
 (exists i d, turns !! i = Some d /\ fst st = label_of d /\
    (snd st == overlap ts te d)%Q /\ (0 < overlap ts te d)%Q /\
    forall j d', (j < i)%nat -> turns !! j = Some d' ->
                 (overlap ts te d' < overlap ts te d)%Q)).

(** The cue built for a timed text with a speaker label. *)
Definition cue_of (speaker : string) (t : pydict) : pydict :=
Dict (d_start t) (d_end t) (d_text t) (Some speaker) None.

(** The label a timed text receives: the default one without turns. *)
Definition assigned_label (turns : list pydict) (t : pydict) : string :=
match turns with
| [] => "SPEAKER_00"
| _ :: _ => best_label (start_of t) (end_of t) turns
end.

(** The cues [merge_segments] builds. *)
Definition merge_spec (ts : list pydict) (turns : list pydict) : list pydict :=
map (fun t => cue_of (assigned_label turns t) t) ts.

(** ** Consolidation *)

(** The three conditions under which the next cue merges into the
    accumulator. *)
Definition mergeable (max_gap max_duration : Q) (acc next : pydict) : bool :=
String.eqb (label_of next) (label_of acc)
&& Qle_bool (start_of next - end_of acc) max_gap
&& Qle_bool (end_of next - start_of acc) max_duration.

(** The accumulator after a merge. *)
Definition absorb (acc next : pydict) : pydict :=
Dict (d_start acc) (Some (end_of next))
  (Some (text_of acc +:+ " " +:+ text_of next)) (d_speaker acc)
  (d_translation acc).

(** One step of the fold: the cues flushed so far and the accumulator. *)
Definition consolidate_step (max_gap max_duration : Q)
  (st : list pydict * option pydict) (next : pydict)
  : list pydict * option pydict :=
match st with
| (flushed, None) => (flushed, Some next)
| (flushed, Some acc) =>
    if mergeable max_gap max_duration acc next
    then (flushed, Some (absorb acc next))
    else (flushed ++ [acc], Some next)
end.

(** The final flush of the accumulator. *)
Definition flush (st : list pydict * option pydict) : list pydict :=
match st with
| (flushed, Some acc) => flushed ++ [acc]
| (flushed, None) => flushed
end.

(** [consolidate] as a left-to-right fold with one accumulator. *)
Definition consolidate_spec (max_gap max_duration : Q) (cues : list pydict)
  : list pydict :=
flush (fold_left (consolidate_step max_gap max_duration) cues ([], None)).

(** The local variables of the loop of [consolidate_segments] in a state
    of the fold: the dictionaries added to the store are the cues flushed,
    followed by the accumulator. *)
Definition loop_vars (w : world) (st : list pydict * option pydict)
  : list loc * option loc :=
match st with
| (flushed, None) => (seq (length (w_heap w)) (length flushed), None)
| (flushed, Some _) =>
    (seq (length (w_heap w)) (length flushed),
     Some (length (w_heap w) + length flushed)%nat)
end.

Definition acc_is_cue (st : list pydict * option pydict) : Prop :=
match snd st with Some acc => is_cue acc | None => True end.

(** ** Numbered responses *)

(** The lines of a response, as [parse_numbered_response] reads them. *)
Definition response_lines (response : string) : list string :=
map str_strip (str_split LF (str_strip response)).

(** A line supplies the index [i] with the text [t]: it matches the
    pattern, its first group reads [i] and [t] is its second group,
    trimmed. *)
Definition supplies (line : string) (i : N) (t : string) : Prop :=
exists g1 g2, re_match line = Some (g1, g2) /\
              int_of_digits g1 = i /\ t = str_strip g2.

(** One iteration of the loop over the lines, on the dictionary
    [translations]. *)
Definition collect (translations : gmap N string) (line : string)
  : gmap N string :=
match re_match (str_strip line) with
| Some (g1, g2) => <[int_of_digits g1 := str_strip g2]> translations
| None => translations
end.

(** [line] matches [^\s*(\d+)[.:\s]+(.+)$] with the groups [g1] and [g2]
    and the separators [seps] between them. *)
Definition matches_pattern (line g1 seps g2 : list ascii) : Prop :=
exists ws tail,
  line = ws ++ g1 ++ seps ++ g2 ++ tail /\
  forallb is_space ws = true /\
  g1 <> [] /\ forallb is_digit g1 = true /\
  seps <> [] /\ forallb is_sep seps = true /\
  g2 <> [] /\ forallb is_dot g2 = true /\
  (tail = [] \/ tail = [LF]).

(** ** Retries *)

(** The wait after the failed attempt [k]. *)
Definition delay (base : Q) (k : nat) : Q := (base * inject_Z (2 ^ Z.of_nat k))%Q.

(** The waits after the attempts [0 .. k-1]. *)
Definition backoff (base : Q) (k : nat) : list Q := map (delay base) (seq 0 k).

(** The world after [k] requests and the waits [delays]. *)
Definition after (w : world) (k : nat) (delays : list Q) : world :=
World (w_heap w) (w_api_calls w + k) (w_sleeps w ++ delays) (w_progress w)
  (w_files w).

(** The outcome of the attempt [k] of a batch started in the world [w]. *)
Definition attempt_outcome (create : nat -> string -> string -> api_outcome)
  (model input_text : string) (w : world) (k : nat) : api_outcome :=
create (w_api_calls w + k) model (TRANSLATION_PROMPT input_text).

(** The rate-limit and API errors are retried; any other exception is
    fatal. *)
Definition retryable (o : api_outcome) : Prop :=
exists e, o = Raises e /\ (exn_cls e = RateLimitError \/ exn_cls e = APIError).

Definition error_of (o : api_outcome) : option exn :=
match o with Raises e => Some e | Returns _ => None end.

(** The last error seen after [k] failed attempts. *)
Definition last_after (create : nat -> string -> string -> api_outcome)
  (model input_text : string) (w : world) (last : option exn) (k : nat)
  : option exn :=
match k with
| O => last
| S k' => error_of (attempt_outcome create model input_text w k')
end.

(** The two [TranslationError]s of [translate_batch]. *)
Definition exhausted_error (max_retries : nat) (e : exn) : exn :=
exn_new TranslationError
  ("Translation failed after " +:+ str_of_N (N.of_nat max_retries)
   +:+ " attempts: " +:+ exn_msg e).

Definition api_error (e : exn) : exn :=
exn_from TranslationError ("Claude API error: " +:+ exn_msg e) e.

(** A [TranslationError] that carries the error [e]: its message ends
    with the message of [e]. *)
Definition carries (te e : exn) : Prop :=
exn_cls te = TranslationError /\
exists prefix, exn_msg te = prefix +:+ exn_msg e.

(** The number of waits when the last attempt fails with [e]: the
    rate-limit branch sleeps once more before it gives up. *)
Definition waits_at_exhaustion (max_retries : nat) (e : exn) : nat :=
match exn_cls e with
| RateLimitError => max_retries
| _ => (max_retries - 1)%nat
end.

(** ** Translation of the segments *)

(** The collaborator answers every request. *)
Definition responsive (create : nat -> string -> string -> api_outcome) : Prop :=
forall n model content, exists resp, create n model content = Returns resp.

(** The conditions under which every batch is translated. *)
Definition good_env (create : nat -> string -> string -> api_outcome)
  (anthropic_installed : bool) (api_key : string) (max_retries : nat) : Prop :=
responsive create /\ api_key <> "" /\ anthropic_installed = true /\
(0 < max_retries)%nat.

(** [translate_batch] leaves the store alone and answers with one
    translation per text. *)
Definition batch_post (w : world) (texts : list string)
  (r : result (list string)) (w' : world) : Prop :=
w_heap w' = w_heap w /\
forall trs, r = Ok trs -> length trs = length texts.

(** The dictionary [d] with its translation set to [t]. *)
Definition set_tr (d : pydict) (t : string) : pydict := key_set k_translation t d.

Definition translate_post (create : nat -> string -> string -> api_outcome)
  (anthropic_installed : bool) (w : world) (segments : list loc)
  (ds : list pydict) (api_key : string) (batch_size : Z) (max_retries : nat)
  (r : result (list loc)) (w' : world) : Prop :=
(exists ext, w_heap w' = w_heap w ++ ext) /\
(forall out, r = Ok out -> (0 < batch_size)%Z ->
   exists trs, length trs = length ds /\
     w_heap w' = w_heap w ++ zip_with set_tr ds trs /\
     out = seq (length (w_heap w)) (length segments)) /\
(good_env create anthropic_installed api_key max_retries ->
 (0 < batch_size)%Z -> is_ok r = true).

(** ** Serialization *)

(** The escape of one character, as the specification words it. *)
Definition escape_char (c : ascii) : string :=
if Ascii.eqb c LF then "\N"
else if Ascii.eqb c "{"%char then "\{"
else if Ascii.eqb c "}"%char then "\}"
else String c "".

Fixpoint escape_spec (s : string) : string :=
match s with
| EmptyString => EmptyString
| String c s' => escape_char c +:+ escape_spec s'
end.

(** The rendered text of a cue. *)
Definition rendered_text (include_translation : bool) (d : pydict) : string :=
dialogue_text (default "" (d_text d))
  (if include_translation then default "" (d_translation d) else "").

Definition speaker_of (d : pydict) : string := default "UNKNOWN" (d_speaker d).

(** The dialogue line of a cue: nine fixed columns, then the rendered
    text. *)
Definition dialogue_of (include_translation : bool) (d : pydict) : string :=
"Dialogue: 0," +:+ seconds_to_ass_time (start_of d) +:+ ","
+:+ seconds_to_ass_time (end_of d) +:+ ","
+:+ speaker_of d +:+ ",,0,0,0,,"
+:+ rendered_text include_translation d.

(** The content of the file [generate_ass] writes. *)
Definition ass_content (include_translation : bool) (ds : list pydict) : string :=
ASS_HEADER (generate_styles (sorted_set (map speaker_of ds)))
+:+ str_join NL (map (dialogue_of include_translation) ds) +:+ NL.

(** The world after [content] has been written to [path]. *)
Definition written (w : world) (path content : string) : world :=
World (w_heap w) (w_api_calls w) (w_sleeps w) (w_progress w)
  (<[path := content]> (w_files w)).

(** ** Timestamps *)

Definition no_char (c : ascii) (s : string) : bool :=
forallb (fun a => negb (Ascii.eqb a c)) (chars s).

Definition all_digits (l : list ascii) : bool := forallb is_digit l.

Definition no_space (l : list ascii) : bool :=
forallb (fun c => negb (is_space c)) l.

(** One step of [digits_value]. *)
Definition digit_step (a : N) (c : ascii) : N := (10 * a + digit_val c)%N.

(** The seconds field for [c] hundredths of a second. *)
Definition secs_field (c : N) : string :=
zero_pad 5 false
  (str_of_N (c / 100) +:+ "." +:+ zero_pad 2 false (str_of_N (c mod 100))).

(** The seconds field for [c] hundredths has no colon and reads back as
    [c / 100]. *)
Definition secs_field_ok (c : N) : bool :=
no_char ":" (secs_field c) &&
match py_float (secs_field c) with
| Some (PFin q) => Qeq_bool q (Z.of_N c # 100)
| _ => false
end.

(** The minutes field for [m] has no colon and reads back as [m]. *)
Definition mins_field_ok (m : N) : bool :=
no_char ":" (format_0d 2 (Z.of_N m)) &&
match py_int (format_0d 2 (Z.of_N m)) with
| Some z => Z.eqb z (Z.of_N m)
| None => false
end.

(** The timestamp of [t] has the fields [h], [m] and [c] hundredths, and
    they denote [t] up to half a hundredth. *)
Record timestamp_fields (t : Q) (h m : Z) (c : N) : Prop := {
  tf_text : seconds_to_ass_time t =
            str_of_N (Z.to_N h)
            +:+ String ":" (format_0d 2 m +:+ String ":" (secs_field c));
  tf_hours : (0 <= h)%Z;
  tf_minutes : (0 <= m < 60)%Z;
  tf_centis : (c <= 6000)%N;
  tf_value :
    (Qabs (inject_Z (h * 3600 + m * 60) + (Z.of_N c # 100) - t) <= 1 # 200)%Q
}.

(** What [ass_time_to_seconds] does with three fields. *)
Definition parse_fields (time_str a b c : string) : result pyfloat :=
match py_int a, py_int b, py_float c with
| Some h, Some m, Some x => Ok (int_add_float (h * 3600 + m * 60) x)
| Some _, Some _, None =>
    Raise (exn_from ValueError (invalid_format time_str)
             (exn_new ValueError "could not convert string to float"))
| _, _, _ =>
    Raise (exn_from ValueError (invalid_format time_str)
             (exn_new ValueError "invalid literal for int() with base 10"))
end.

(** The shape [H:MM:SS.cc]: three fields, the first a run of digits, the
    second two digits, the third two digits, a point and two digits. *)
Definition two_digits (s : string) : bool :=
match chars s with
| [a; b] => is_digit a && is_digit b
| _ => false
end.

Definition seconds_shape (s : string) : bool :=
match chars s with
| [a; b; dot; c; d] =>
    is_digit a && is_digit b && Ascii.eqb dot "." && is_digit c && is_digit d
| _ => false
end.

Definition timestamp_shape (s : string) : bool :=
match str_split ":" s with
| [h; m; sc] =>
    negb (str_empty h) && all_digits (chars h) && two_digits m && seconds_shape sc
| _ => false
end.

Definition digit_chars : list ascii := chars "0123456789".

(** The value of the seconds field [ab.cd]. *)
Definition seconds_value (a b c d : ascii) : Q :=
(Z.of_N (digits_value [a; b; c; d]) # 100)%Q.

Definition seconds_parse_ok (a b c d : ascii) : bool :=
match py_float (of_chars [a; b; "."%char; c; d]) with
| Some (PFin q) => Qeq_bool q (seconds_value a b c d)
| _ => false
end.

(** ** Worlds used in the examples *)

Definition empty_world : world := World [] 0 [] [] ∅.

Definition world_of (h : heap) : world := World h 0 [] [] ∅.

(** Two turns that overlap the interval [1, 3] by one second each: the
    earlier one wins. *)
Definition tie_world : world :=
world_of [Dict (Some 0%Q) (Some 2%Q) None (Some "SPEAKER_00") None;
          Dict (Some 2%Q) (Some 4%Q) None (Some "SPEAKER_01") None].

(** A transcription of two segments and a diarization of two turns, as in
    the tests of the repository. *)
Definition merge_world : world :=
world_of [Dict (Some 0%Q) (Some 3%Q) (Some "Hello") None None;
          Dict (Some 4%Q) (Some 7%Q) (Some "How are you?") None None;
          Dict (Some 0%Q) (Some 3.5%Q) None (Some "SPEAKER_00") None;
          Dict (Some 3.5%Q) (Some 8%Q) None (Some "SPEAKER_01") None].

(** Two cues of one speaker, 0.2 seconds apart, as in the tests of the
    repository. *)
Definition consolidate_world : world :=
world_of [Dict (Some 0%Q) (Some 2%Q) (Some "Hello") (Some "SPEAKER_00") None;
          Dict (Some 2.2%Q) (Some 4%Q) (Some "world") (Some "SPEAKER_00") None].

(** A collaborator that is rate limited twice and then answers. *)
Definition flaky_client (n : nat) (model content : string) : api_outcome :=
if (n <? 2)%nat then Raises (exn_new RateLimitError "rate limited")
else Returns "1. 你好".

(** A collaborator that is always rate limited: three requests, then the
    failure; the third wait happens although no attempt follows. *)
Definition limited_client (n : nat) (model content : string) : api_outcome :=
Raises (exn_new RateLimitError "rate limited").

(** A collaborator that always fails with an API error: three requests
    and two waits. *)
Definition failing_client (n : nat) (model content : string) : api_outcome :=
Raises (exn_new APIError "overloaded").

(** A collaborator that answers every request with two numbered lines. *)
Definition steady_client (n : nat) (model content : string) : api_outcome :=
Returns ("1. 你好" +:+ NL +:+ "2. 你好吗").

(** Two consolidated cues, as in the tests of the repository. *)
Definition cue_world : world :=
world_of [Dict (Some 0.5%Q) (Some 3%Q) (Some "こんにちは") (Some "SPEAKER_00") None;
          Dict (Some 3.5%Q) (Some 6%Q) (Some "お元気ですか") (Some "SPEAKER_01") None].

(** The two translated cues of the end-to-end test of the repository. *)
Definition translated_world : world :=
world_of [Dict (Some 0.5%Q) (Some 3%Q) (Some "こんにちは") (Some "SPEAKER_00")
            (Some "你好");
          Dict (Some 3.5%Q) (Some 6%Q) (Some "お元気ですか") (Some "SPEAKER_01")
            (Some "你好吗")].

(** A cue whose text and translation are both empty. *)
Definition silent_world : world :=
world_of [Dict (Some 0%Q) (Some 1%Q) (Some "") (Some "SPEAKER_00") (Some "")].

(** ** Durations and hundredths of a second *)

(** The whole seconds of a duration, none for a negative one. *)
Definition whole_seconds (t : Q) : Z := Z.max 0 (Qfloor t).

(** The parts of a duration of [n] whole seconds: the hours from one hour
    on, the minutes from one minute on, and the seconds. *)
Definition duration_parts (n : Z) : list string :=
(if (3600 <=? n)%Z then [str_of_Z (n / 3600) +:+ "h"] else [])
++ (if (60 <=? n)%Z then [str_of_Z (n mod 3600 / 60) +:+ "m"] else [])
++ [str_of_Z (n mod 60) +:+ "s"].

(** The time [seconds_to_ass_time] and [format_duration] work on. *)
Definition clamp (t : Q) : Q := if Qltb t 0 then 0%Q else t.

(** [t] in hundredths of a second, rounded to the nearest, ties to even. *)
Definition centiseconds (t : Q) : Z := round_half_even (clamp t * 100).

(** ** Effects, styles and plain text *)

(** A computation that leaves the world as it found it, whatever its
    outcome. *)
Definition read_only {A} (m : M A) : Prop := forall w, snd (m w) = w.

(** The style line of a speaker: its color in [SPEAKER_COLORS], or the
    color of [UNKNOWN]. *)
Definition style_of (name : string) : string :=
DEFAULT_STYLE_TEMPLATE name (default unknown_color (SPEAKER_COLORS !! name)).

(** The order of [sorted] on strings. *)
Definition str_lt (a b : string) : Prop := String.compare a b = Lt.

(** The characters [escape_ass_text] rewrites, and the texts without
    them. *)
Definition is_special (c : ascii) : bool :=
Ascii.eqb c LF || Ascii.eqb c "{"%char || Ascii.eqb c "}"%char.

Definition plain (s : string) : bool :=
forallb (fun c => negb (is_special c)) (chars s).

(** The dictionary [generate_ass_from_model] builds for a segment. *)
Definition dict_of_segment (seg : Models.Segment) : pydict :=
Dict (Some (Models.start seg)) (Some (Models.end_ seg))
  (Some (Models.text_ja seg)) (Some (Models.speaker seg))
  (Some (Models.text_zh seg)).

(** The first key of [start] and [end] that a dictionary lacks. *)
Definition missing_time (d : pydict) : string :=
match d_start d with Some _ => "end" | None => "start" end.

(** A cue with its times and a cue that lacks its end. *)
Definition broken_world : world :=
world_of [Dict (Some 0%Q) (Some 1%Q) (Some "a") (Some "SPEAKER_00") None;
          Dict (Some 1%Q) None (Some "b") None None].

(** ** Runs of cues *)

(** The world [w'] is [w] with dictionaries added to the store: the
    dictionaries of [w] are as they were, and so are the requests, the
    waits, the progress reports and the files. *)
Definition grows (w w' : world) : Prop := exists ext, w' = extend w ext.

(** A computation that at most adds dictionaries, whatever its outcome. *)
Definition allocates {A} (m : M A) : Prop := forall w, grows w (snd (m w)).

(** The accumulator of the loop of [consolidate_segments], when there is
    one, is a dictionary added after the world [w]. *)
Definition fresh_acc (w : world) (vars : list loc * option loc) : Prop :=
match snd vars with
| Some c => (length (w_heap w) <= c)%nat
| None => True
end.

(** The cue [d] joins the run that starts with [first] and whose latest
    cue is [prev]: the three conditions of a merge. *)
Definition joins (max_gap max_duration : Q) (first prev d : pydict) : Prop :=
label_of d = label_of first /\
(start_of d - end_of prev <= max_gap)%Q /\
(end_of d - start_of first <= max_duration)%Q.

(** Every cue of [rest] joins the run before it. *)
Fixpoint chain (max_gap max_duration : Q) (first prev : pydict)
  (rest : list pydict) : Prop :=
match rest with
| [] => True
| d :: rest' =>
    joins max_gap max_duration first prev d /\
    chain max_gap max_duration first d rest'
end.

(** A run is a first cue and the cues that joined it. *)
Definition run : Type := pydict * list pydict.

Definition run_cues (r : run) : list pydict := fst r :: snd r.

(** The cue a run is merged into: the first cue when it is alone;
    otherwise the first cue with the end of the last one and the texts
    joined by spaces. *)
Definition run_cue (r : run) : pydict :=
match snd r with
| [] => fst r
| _ :: _ =>
    Dict (d_start (fst r)) (Some (end_of (List.last (snd r) (fst r))))
      (Some (str_join " " (map text_of (run_cues r))))
      (d_speaker (fst r)) (d_translation (fst r))
end.

(** A run stops only when the next cue does not join it. *)
Fixpoint greedy (max_gap max_duration : Q) (runs : list run) : Prop :=
match runs with
| r :: (r' :: _) as runs' =>
    ~ joins max_gap max_duration (fst r) (List.last (snd r) (fst r)) (fst r') /\
    greedy max_gap max_duration runs'
| _ => True
end.

(** [consolidate] by recursion on the cues that follow the accumulator. *)
Fixpoint consolidate_from (max_gap max_duration : Q) (acc : pydict)
  (cues : list pydict) : list pydict :=
match cues with
| [] => [acc]
| d :: cues' =>
    if mergeable max_gap max_duration acc d
    then consolidate_from max_gap max_duration (absorb acc d) cues'
    else acc :: consolidate_from max_gap max_duration d cues'
end.

(** The cues end in the order of the list. *)
Definition ends_ordered (cues : list pydict) : Prop :=
StronglySorted (fun a b => (end_of a <= end_of b)%Q) cues.

(** ** Batches and numbered lines *)

(** From [w] to [w'], at most [k] requests were sent, with at most one
    wait after each, and nothing else happened. *)
Definition spends (k : nat) (w w' : world) : Prop :=
exists requests delays,
  w' = after w requests delays /\
  (requests <= k)%nat /\ (length delays <= requests)%nat.

(** The [j]-th batch of [n] elements of a list. *)
Definition batch_of {A} (n j : nat) (l : list A) : list A :=
take n (drop (j * n) l).

(** The number of batches of [n] elements in a list of [total]. *)
Definition batches (total n : nat) : nat := ((total + n - 1) / n)%nat.

(** The translations read from the response to the request number
    [request], sent for the batch [texts]. *)
Definition answer (create : nat -> string -> string -> api_outcome)
  (model : string) (request : nat) (texts : list string) : list string :=
match create request model (TRANSLATION_PROMPT (numbered_input texts)) with
| Returns response_text => parse_numbered_response response_text (length texts)
| Raises _ => []
end.

(** The translations of the first [k] batches, when the first request is
    the request number [first]. *)
Definition answers (create : nat -> string -> string -> api_outcome)
  (model : string) (first n : nat) (texts : list string) (k : nat)
  : list string :=
concat (map (fun j => answer create model (first + j) (batch_of n j texts))
          (seq 0 k)).

(** The progress reports of the first [k] batches. *)
Definition reports (total n k : nat) : list (nat * nat) :=
map (fun j => (Nat.min ((j + 1) * n) total, total)) (seq 0 k).

(** The world after the first [k] batches of a translation that started in
    [w]. *)
Definition after_batches (create : nat -> string -> string -> api_outcome)
  (model : string) (w : world) (ds : list pydict) (n : nat) (cb : bool)
  (k : nat) : world :=
World (w_heap w ++ zip_with set_tr ds
                     (answers create model (w_api_calls w) n (map text_of ds) k))
  (w_api_calls w + k) (w_sleeps w)
  (w_progress w ++ if cb then reports (length ds) n k else [])
  (w_files w).

(** A text that survives the way to a numbered line and back: it is not
    empty, holds no line feed, does not start with a character of the
    separator class [[.:\s]] and does not end with white space. *)
Definition echoable (t : string) : bool :=
match chars t with
| [] => false
| c :: l =>
    negb (is_sep c) && negb (is_space (List.last l c))
    && forallb is_dot (chars t)
end.

(** The numbered line of the text [t] at the position [i], counted from
    zero. *)
Definition numbered_line (i : nat) (t : string) : string :=
str_of_N (N.of_nat (i + 1)) +:+ ". " +:+ t.

(** A string that [strip] leaves alone because of its first and last
    characters. *)
Definition tidy (s : string) : bool :=
match chars s with
| [] => false
| c :: l => negb (is_space c) && negb (is_space (List.last l c))
end.

(** ** Segments, statistics and the pipeline *)

(** The dictionary of a suggestion and of a segment with the defaults of
    [from_dict] written out. *)
Definition suggestion_defaults (s : Models.suggestion_dict)
  : Models.suggestion_dict :=
{| Models.sd_type := Models.sd_type s;
   Models.sd_field := Models.sd_field s;
   Models.sd_original := Models.sd_original s;
   Models.sd_suggested := Models.sd_suggested s;
   Models.sd_reason := Models.sd_reason s;
   Models.sd_add_to_dict := Some (default false (Models.sd_add_to_dict s)) |}.

Definition segment_defaults (d : Models.segment_dict) : Models.segment_dict :=
{| Models.gd_id := Models.gd_id d;
   Models.gd_start := Models.gd_start d;
   Models.gd_end := Models.gd_end d;
   Models.gd_speaker := Models.gd_speaker d;
   Models.gd_text_ja := Models.gd_text_ja d;
   Models.gd_text_zh := Some (default "" (Models.gd_text_zh d));
   Models.gd_status := Some (default "ok" (Models.gd_status d));
   Models.gd_suggestions :=
     Some (map suggestion_defaults (default [] (Models.gd_suggestions d))) |}.

(** The keys [from_dict] requires, of a suggestion and of a segment. *)
Definition required_keys : list string :=
["type"; "field"; "original"; "suggested"; "reason";
 "id"; "start"; "end"; "speaker"; "text_ja"].

(** The seconds of a turn, and the seconds of the turns of a speaker. *)
Definition turn_duration (d : pydict) : Q := (end_of d - start_of d)%Q.

Definition turns_of (speaker : string) (turns : list pydict) : list pydict :=
List.filter (fun d => String.eqb (label_of d) speaker) turns.

(** One iteration of [get_speaker_stats] on the turn read. *)
Definition stats_step (vars : gset string * list (string * Q)) (d : pydict)
  : gset string * list (string * Q) :=
({[label_of d]} ∪ fst vars,
 Diarizer.durations_set (label_of d)
   (Diarizer.durations_get (label_of d) 0 (snd vars) + turn_duration d)%Q
   (snd vars)).

(** ** Missing keys *)

(** The first key of [start], [end] and [text] that a dictionary lacks. *)
Definition missing_text_key (d : pydict) : string :=
match d_start d, d_end d with
| None, _ => "start"
| Some _, None => "end"
| Some _, Some _ => "text"
end.

(** A transcription whose second segment has no text. *)
Definition textless_world : world :=
world_of [Dict (Some 0%Q) (Some 3%Q) (Some "Hello") None None;
          Dict (Some 4%Q) (Some 7%Q) None None None].

(* ===================================================================== *)
(** * Lemmas                                                              *)
(* ===================================================================== *)


(* --------------------------------------------------------------------- *)
(** ** The monad and the store *)
(* --------------------------------------------------------------------- *)

Lemma bind_ok {A B} (m : M A) (f : A -> M B) w a w' :
  m w = (Ok a, w') -> (m ≫= f) w = f a w'.
Proof. intros H. unfold mbind, M_bind. now rewrite H. Qed.

Lemma bind_raise {A B} (m : M A) (f : A -> M B) w e w' :
  m w = (Raise e, w') -> (m ≫= f) w = (Raise e, w').
Proof. intros H. unfold mbind, M_bind. now rewrite H. Qed.

Lemma deref_ok w l d : w_heap w !! l = Some d -> deref l w = (Ok d, w).
Proof. intros H. unfold deref. now rewrite H. Qed.

Lemma getitem_ok {A} (k : key A) w l d v :
  w_heap w !! l = Some d -> key_get k d = Some v -> getitem k l w = (Ok v, w).
Proof.
  intros H1 H2. unfold getitem. rewrite (bind_ok _ _ _ _ _ (deref_ok _ _ _ H1)).
  now rewrite H2.
Qed.

Lemma dict_get_ok {A} (k : key A) dflt w l d :
  w_heap w !! l = Some d ->
  dict_get k dflt l w = (Ok (from_option id dflt (key_get k d)), w).
Proof.
  intros H1. unfold dict_get. now rewrite (bind_ok _ _ _ _ _ (deref_ok _ _ _ H1)).
Qed.

Lemma comprehension_read {A B} (f : A -> M B) (g : A -> B) l w :
  Forall (fun x => f x w = (Ok (g x), w)) l ->
  comprehension f l w = (Ok (map g l), w).
Proof.
  induction 1 as [|x l Hx _ IH]; [reflexivity|].
  cbn [comprehension]. rewrite (bind_ok _ _ _ _ _ Hx).
  now rewrite (bind_ok _ _ _ _ _ IH).
Qed.

Lemma for_each_append_read {A B} (body : list B -> A -> M (list B)) (g : A -> B) l w :
  Forall (fun x => forall acc, body acc x w = (Ok (acc ++ [g x]), w)) l ->
  forall acc, for_each l body acc w = (Ok (acc ++ map g l), w).
Proof.
  induction 1 as [|x l Hx _ IH]; intros acc.
  - cbn. now rewrite app_nil_r.
  - cbn [for_each]. rewrite (bind_ok _ _ _ _ _ (Hx acc)).
    rewrite IH. now rewrite <- app_assoc.
Qed.

(** A loop over references that only reads the store is a fold over the
    dictionaries referred to. *)
Lemma for_each_read_fold {S} (body : S -> loc -> M S) (f : S -> pydict -> S) w ls ds :
  Forall2 (fun l d => forall s, body s l w = (Ok (f s d), w)) ls ds ->
  forall s, for_each ls body s w = (Ok (fold_left f ds s), w).
Proof.
  induction 1 as [|l d ls ds H _ IH]; intros s; [reflexivity|].
  cbn [for_each fold_left]. rewrite (bind_ok _ _ _ _ _ (H s)). apply IH.
Qed.

Lemma extend_nil w : extend w [] = w.
Proof. destruct w. unfold extend, set_heap. cbn. now rewrite app_nil_r. Qed.

Lemma extend_extend w e1 e2 : extend (extend w e1) e2 = extend w (e1 ++ e2).
Proof. unfold extend, set_heap. cbn. now rewrite app_assoc. Qed.

Lemma extend_heap w ext : w_heap (extend w ext) = w_heap w ++ ext.
Proof. reflexivity. Qed.

Lemma extend_lookup w ext l d :
  w_heap w !! l = Some d -> w_heap (extend w ext) !! l = Some d.
Proof. intros H. cbn. now apply lookup_app_l_Some. Qed.

Lemma refers_extend w ext ls ds : refers w ls ds -> refers (extend w ext) ls ds.
Proof.
  unfold refers. intros H. eapply Forall2_impl; [exact H|].
  intros l d. apply extend_lookup.
Qed.

Lemma new_dict_run w d :
  new_dict d w = (Ok (length (w_heap w)), extend w [d]).
Proof. reflexivity. Qed.

Lemma dict_copy_ok w l d :
  w_heap w !! l = Some d ->
  dict_copy l w = (Ok (length (w_heap w)), extend w [d]).
Proof.
  intros H. unfold dict_copy. now rewrite (bind_ok _ _ _ _ _ (deref_ok _ _ _ H)).
Qed.

Lemma setitem_ok {A} (k : key A) w l d v :
  w_heap w !! l = Some d ->
  setitem k l v w = (Ok tt, set_heap (<[l := key_set k v d]> (w_heap w)) w).
Proof. intros H. unfold setitem. now rewrite H. Qed.

(** Updating the last dictionary added. *)
Lemma set_last w ext d d' :
  set_heap (<[length (w_heap w) + length ext := d']> (w_heap (extend w (ext ++ [d]))))
    (extend w (ext ++ [d])) = extend w (ext ++ [d']).
Proof.
  unfold extend, set_heap. cbn. f_equal.
  rewrite insert_app_r_alt by lia. f_equal.
  rewrite insert_app_r_alt by lia.
  replace (length (w_heap w) + length ext - length (w_heap w) - length ext)%nat
    with 0%nat by lia.
  reflexivity.
Qed.

Lemma lookup_last w ext d :
  w_heap (extend w (ext ++ [d])) !! (length (w_heap w) + length ext)%nat = Some d.
Proof.
  cbn. rewrite lookup_app_r by lia. rewrite lookup_app_r by lia.
  replace (length (w_heap w) + length ext - length (w_heap w) - length ext)%nat
    with 0%nat by lia.
  reflexivity.
Qed.

Lemma Qltb_lt a b : Qltb a b = true <-> (a < b)%Q.
Proof.
  unfold Qltb. rewrite negb_true_iff. split.
  - intros H. apply Qnot_le_lt. intros C. apply Qle_bool_iff in C. congruence.
  - intros H. destruct (Qle_bool b a) eqn:E; [|reflexivity].
    apply Qle_bool_iff in E. lra.
Qed.

Lemma Qltb_ge a b : Qltb a b = false <-> (b <= a)%Q.
Proof.
  unfold Qltb. rewrite negb_false_iff. apply Qle_bool_iff.
Qed.

Lemma Qltb_false_nonneg t : (0 <= t)%Q -> Qltb t 0 = false.
Proof. intros H. now apply Qltb_ge. Qed.

(* --------------------------------------------------------------------- *)
(** ** Escaping and dialogue lines *)
(* --------------------------------------------------------------------- *)

(* ---------- strings ---------- *)
Lemma str_app_cons x (a b : string) : String x a +:+ b = String x (a +:+ b).
Proof. reflexivity. Qed.

Lemma str_app_nil_l (b : string) : "" +:+ b = b.
Proof. reflexivity. Qed.

Lemma str_app_assoc (a b c : string) : (a +:+ b) +:+ c = a +:+ (b +:+ c).
Proof.
  induction a as [|x a IH]; [reflexivity|].
  rewrite !str_app_cons. now f_equal.
Qed.

Lemma str_app_nil_r (a : string) : a +:+ "" = a.
Proof.
  induction a as [|x a IH]; [reflexivity|].
  rewrite str_app_cons. now f_equal.
Qed.

Lemma str_app_empty (a b : string) : a +:+ b = "" -> a = "" /\ b = "".
Proof. destruct a; [rewrite str_app_nil_l; auto | rewrite str_app_cons; discriminate]. Qed.

Lemma str_replace_app c rep s1 s2 :
  str_replace c rep (s1 +:+ s2) = str_replace c rep s1 +:+ str_replace c rep s2.
Proof.
  induction s1 as [|a s1 IH]; [reflexivity|].
  rewrite str_app_cons. cbn [str_replace].
  destruct (Ascii.eqb a c); rewrite IH.
  - now rewrite str_app_assoc.
  - now rewrite str_app_cons.
Qed.

Lemma escape_ass_text_spec s : escape_ass_text s = escape_spec s.
Proof.
  unfold escape_ass_text.
  induction s as [|c s IH]; [reflexivity|].
  cbn [str_replace escape_spec]. unfold escape_char.
  destruct (Ascii.eqb c LF) eqn:E1.
  - rewrite !str_replace_app, IH. reflexivity.
  - cbn [str_replace]. destruct (Ascii.eqb c "{") eqn:E2.
    + rewrite !str_replace_app, IH. reflexivity.
    + cbn [str_replace]. destruct (Ascii.eqb c "}") eqn:E3.
      * rewrite IH. reflexivity.
      * rewrite IH. reflexivity.
Qed.

Lemma escape_char_nonempty c : escape_char c <> "".
Proof.
  unfold escape_char.
  destruct (Ascii.eqb c LF); [discriminate|].
  destruct (Ascii.eqb c "{"); [discriminate|].
  destruct (Ascii.eqb c "}"); discriminate.
Qed.

Lemma escape_spec_empty s : escape_spec s = "" <-> s = "".
Proof.
  split; [|intros ->; reflexivity].
  destruct s as [|c s]; [reflexivity|]. cbn [escape_spec]. intros H.
  apply str_app_empty in H. destruct H as [H _].
  now apply escape_char_nonempty in H.
Qed.

Lemma dialogue_text_cases ja zh :
  dialogue_text ja zh =
  if str_empty zh then escape_spec ja
  else escape_spec ja +:+ "\N" +:+ escape_spec zh.
Proof.
  unfold dialogue_text. rewrite !escape_ass_text_spec.
  destruct (str_empty zh); reflexivity.
Qed.

Lemma dialogue_text_empty ja zh : dialogue_text ja zh = "" <-> ja = "" /\ zh = "".
Proof.
  rewrite dialogue_text_cases. destruct zh as [|c zh]; cbn [str_empty].
  - rewrite escape_spec_empty. intuition congruence.
  - split; [|intros [_ H]; discriminate].
    intros H. apply str_app_empty in H. destruct H as [_ H]. discriminate.
Qed.

Lemma dialogue_body_run incl w l d dialogues :
  w_heap w !! l = Some d -> has_times d ->
  dialogue_body incl dialogues l w = (Ok (dialogues ++ [dialogue_of incl d]), w).
Proof.
  intros Hl [[s Hs] [e He]]. unfold dialogue_body.
  rewrite (bind_ok _ _ _ _ _ (dict_get_ok k_text "" _ _ _ Hl)).
  assert (Hzh : (if incl then dict_get k_translation "" l else mret "") w =
                (Ok (if incl then default "" (d_translation d) else ""), w)).
  { destruct incl; [|reflexivity].
    rewrite (dict_get_ok _ _ _ _ _ Hl). cbn. now destruct (d_translation d). }
  rewrite (bind_ok _ _ _ _ _ Hzh).
  rewrite (bind_ok _ _ _ _ _ (dict_get_ok k_speaker "UNKNOWN" _ _ _ Hl)).
  rewrite (bind_ok _ _ _ _ _ (getitem_ok k_start _ _ _ _ Hl Hs)).
  rewrite (bind_ok _ _ _ _ _ (getitem_ok k_end _ _ _ _ Hl He)).
  unfold dialogue_of, generate_dialogue_line, rendered_text, start_of, end_of,
    speaker_of. cbn.
  rewrite Hs, He. cbn. destruct (d_text d), (d_speaker d); reflexivity.
Qed.

Lemma refers_lookup w ls ds :
  refers w ls ds ->
  ds = map (fun l => default empty_dict (w_heap w !! l)) ls.
Proof.
  induction 1 as [|l d ls ds H _ IH]; [reflexivity|].
  cbn. rewrite H. cbn. now f_equal.
Qed.

Lemma generate_ass_ok w segments ds path incl :
  segments <> [] -> refers w segments ds -> Forall has_times ds ->
  generate_ass segments path incl w =
  (Ok path, written w path (ass_content incl ds)).
Proof.
  intros Hne Href Ht. unfold generate_ass.
  destruct segments as [|l0 ls0] eqn:E; [congruence|]. cbn [list_empty].
  rewrite <- E in *. clear E Hne.
  pose (obj := fun l => default empty_dict (w_heap w !! l)).
  assert (Hds : ds = map obj segments) by now apply refers_lookup.
  assert (Hall : Forall (fun l => w_heap w !! l = Some (obj l) /\ has_times (obj l)) segments).
  { clear Hds. unfold obj. induction Href as [|l d ls ds H _ IH]; [constructor|].
    inversion Ht; subst. constructor; [|now apply IH].
    rewrite H. cbn. auto. }
  assert (Hnames : comprehension (dict_get k_speaker "UNKNOWN") segments w =
                   (Ok (map (fun l => speaker_of (obj l)) segments), w)).
  { apply comprehension_read. eapply Forall_impl; [exact Hall|].
    cbn. intros l [Hl _].
    rewrite (dict_get_ok _ _ _ _ _ Hl). cbn. unfold speaker_of.
    now destruct (d_speaker (obj l)). }
  rewrite (bind_ok _ _ _ _ _ Hnames).
  assert (Hlines : for_each segments (dialogue_body incl) [] w =
          (Ok ([] ++ map (fun l => dialogue_of incl (obj l)) segments), w)).
  { apply for_each_append_read. eapply Forall_impl; [exact Hall|].
    cbn. intros l [Hl Hh] acc. now apply dialogue_body_run. }
  rewrite (bind_ok _ _ _ _ _ Hlines).
  cbn [app]. unfold write_file, written, ass_content.
  rewrite Hds, !map_map. reflexivity.
Qed.

(* --------------------------------------------------------------------- *)
(** ** Timestamps *)
(* --------------------------------------------------------------------- *)

Lemma chars_app (a b : string) : chars (a +:+ b) = chars a ++ chars b.
Proof.
  induction a as [|x a IH]; [reflexivity|].
  rewrite str_app_cons. cbn. now f_equal.
Qed.

Lemma split_fields_none sep s :
  no_char sep s = true -> split_fields sep s = (s, []).
Proof.
  unfold no_char. induction s as [|a s IH]; [reflexivity|].
  cbn. intros H. apply andb_prop in H as [H1 H2].
  rewrite (IH H2). apply negb_true_iff in H1. now rewrite H1.
Qed.

Lemma split_fields_app sep s rest :
  no_char sep s = true ->
  split_fields sep (s +:+ String sep rest) =
  (s, fst (split_fields sep rest) :: snd (split_fields sep rest)).
Proof.
  unfold no_char. induction s as [|a s IH].
  - intros _. rewrite (eq_refl : "" +:+ String sep rest = String sep rest).
    cbn [split_fields]. destruct (split_fields sep rest) as [f fs].
    now rewrite Ascii.eqb_refl.
  - cbn. intros H. apply andb_prop in H as [H1 H2].
    rewrite str_app_cons. cbn [split_fields]. rewrite (IH H2).
    apply negb_true_iff in H1. now rewrite H1.
Qed.

Lemma str_split_3 sep a b c :
  no_char sep a = true -> no_char sep b = true -> no_char sep c = true ->
  str_split sep (a +:+ String sep (b +:+ String sep c)) = [a; b; c].
Proof.
  intros Ha Hb Hc. unfold str_split.
  rewrite (split_fields_app _ _ _ Ha), (split_fields_app _ _ _ Hb),
    (split_fields_none _ _ Hc). reflexivity.
Qed.

Lemma uint_chars_digits d : all_digits (chars (NilEmpty.string_of_uint d)) = true.
Proof. induction d; cbn; auto. Qed.

Lemma fold_uint_acc d p :
  fold_left digit_step (chars (NilEmpty.string_of_uint d)) (Npos p) =
  Npos (Pos.of_uint_acc d p).
Proof.
  revert p. induction d; intros p;
    cbn [NilEmpty.string_of_uint list_ascii_of_string fold_left Pos.of_uint_acc];
    [reflexivity | ..];
    rewrite <- IHd; f_equal; unfold digit_step, digit_val;
    match goal with
    | |- context [N.of_nat ?x] =>
        let v := eval vm_compute in (N.of_nat x) in change (N.of_nat x) with v
    end; lia.
Qed.

Lemma fold_uint d :
  fold_left digit_step (chars (NilEmpty.string_of_uint d)) 0%N = Pos.of_uint d.
Proof.
  induction d;
    cbn [NilEmpty.string_of_uint list_ascii_of_string fold_left Pos.of_uint];
    [reflexivity | exact IHd | ..];
    rewrite <- fold_uint_acc; f_equal.
Qed.

Lemma digits_value_str_of_N n : digits_value (chars (str_of_N n)) = n.
Proof.
  unfold digits_value, str_of_N.
  change (fun a c => (10 * a + digit_val c)%N) with digit_step.
  rewrite fold_uint. apply DecimalN.Unsigned.of_to.
Qed.

(* ---------- characters ---------- *)
Ltac ascii_cases c :=
  destruct c as [[] [] [] [] [] [] [] []]; try discriminate; try reflexivity.

Lemma digit_not_space c : is_digit c = true -> is_space c = false.
Proof. ascii_cases c. Qed.

Lemma digit_not_sign c :
  is_digit c = true -> Ascii.eqb c "-" = false /\ Ascii.eqb c "+" = false.
Proof. intros H; split; revert H; ascii_cases c. Qed.

Lemma digit_not_colon c : is_digit c = true -> Ascii.eqb c ":" = false.
Proof. ascii_cases c. Qed.

Lemma drop_spaces_id l : no_space l = true -> drop_spaces l = l.
Proof.
  destruct l as [|c l]; [reflexivity|]. cbn. intros H.
  apply andb_prop in H as [H _]. apply negb_true_iff in H. now rewrite H.
Qed.

Lemma no_space_rev l : no_space l = true -> no_space (rev l) = true.
Proof.
  unfold no_space. rewrite !forallb_forall. intros H x Hx.
  apply H. now apply in_rev.
Qed.

Lemma strip_chars_id l : no_space l = true -> strip_chars l = l.
Proof.
  intros H. unfold strip_chars, rstrip_chars, lstrip_chars.
  rewrite (drop_spaces_id _ H), (drop_spaces_id _ (no_space_rev _ H)).
  apply rev_involutive.
Qed.

Lemma all_digits_no_space l : all_digits l = true -> no_space l = true.
Proof.
  unfold all_digits, no_space. rewrite !forallb_forall. intros H x Hx.
  apply negb_true_iff, digit_not_space, H, Hx.
Qed.

Lemma scan_more_digits l : all_digits l = true -> scan_more l = (l, []).
Proof.
  induction l as [|c l IH]; [reflexivity|]. cbn. intros H.
  apply andb_prop in H as [H1 H2]. now rewrite H1, (IH H2).
Qed.

Lemma scan_digits_digits l : all_digits l = true -> scan_digits l = (l, []).
Proof.
  destruct l as [|c l]; [reflexivity|]. cbn. intros H.
  apply andb_prop in H as [H1 H2]. now rewrite H1, (scan_more_digits _ H2).
Qed.

Lemma scan_sign_digits l : all_digits l = true -> scan_sign l = (false, l).
Proof.
  destruct l as [|c l]; [reflexivity|]. cbn. intros H.
  apply andb_prop in H as [H1 _]. destruct (digit_not_sign _ H1) as [-> ->].
  reflexivity.
Qed.

Lemma py_int_digits s :
  all_digits (chars s) = true -> s <> "" ->
  py_int s = Some (Z.of_N (digits_value (chars s))).
Proof.
  intros H Hne. unfold py_int.
  rewrite (strip_chars_id _ (all_digits_no_space _ H)), (scan_sign_digits _ H),
    (scan_digits_digits _ H).
  destruct s as [|c s]; [congruence|]. reflexivity.
Qed.

Lemma str_of_N_nonempty n : str_of_N n <> "".
Proof.
  unfold str_of_N. intros H.
  assert (Hd : N.to_uint n = Decimal.Nil).
  { destruct (N.to_uint n); try discriminate; reflexivity. }
  pose proof (DecimalN.Unsigned.of_to n) as Hn. rewrite Hd in Hn.
  cbn in Hn. subst n. discriminate.
Qed.

Lemma py_int_str_of_N n : py_int (str_of_N n) = Some (Z.of_N n).
Proof.
  rewrite py_int_digits.
  - now rewrite digits_value_str_of_N.
  - apply uint_chars_digits.
  - apply str_of_N_nonempty.
Qed.

Lemma all_digits_no_colon l :
  all_digits l = true -> forallb (fun a => negb (Ascii.eqb a ":")) l = true.
Proof.
  unfold all_digits. rewrite !forallb_forall. intros H x Hx.
  apply negb_true_iff, digit_not_colon, H, Hx.
Qed.

Lemma str_of_N_no_colon n : no_char ":" (str_of_N n) = true.
Proof. apply all_digits_no_colon, uint_chars_digits. Qed.

Lemma forallb_below (p : N -> bool) (n : N) :
  forallb p (map N.of_nat (seq 0 (N.to_nat n))) = true ->
  forall c, (c < n)%N -> p c = true.
Proof.
  intros H c Hc. rewrite forallb_forall in H. apply H.
  apply in_map_iff. exists (N.to_nat c). split; [apply N2Nat.id|].
  apply in_seq. lia.
Qed.

Lemma secs_field_ok_all c : (c <= 6000)%N -> secs_field_ok c = true.
Proof.
  intros H. apply (forallb_below secs_field_ok 6001); [|lia].
  vm_compute. reflexivity.
Qed.

Lemma mins_field_ok_all m : (m < 60)%N -> mins_field_ok m = true.
Proof.
  intros H. apply (forallb_below mins_field_ok 60); [|lia].
  vm_compute. reflexivity.
Qed.

(* ---------- arithmetic ---------- *)
Lemma Qfloor_unique (x : Q) (z : Z) :
  (inject_Z z <= x)%Q -> (x < inject_Z (z + 1))%Q -> Qfloor x = z.
Proof.
  intros H1 H2.
  assert (A : (z <= Qfloor x)%Z).
  { rewrite <- (Qfloor_Z z). now apply Qfloor_resp_le. }
  assert (B : (Qfloor x < z + 1)%Z).
  { rewrite Zlt_Qlt. eapply Qle_lt_trans; [apply Qfloor_le | exact H2]. }
  lia.
Qed.

Lemma int_of_float_inject z : int_of_float (inject_Z z) = z.
Proof. unfold int_of_float. cbn. apply Z.quot_1_r. Qed.

Lemma round_half_even_bounds (q : Q) :
  (inject_Z (round_half_even q) - q <= 1 # 2)%Q /\
  (q - inject_Z (round_half_even q) <= 1 # 2)%Q.
Proof.
  unfold round_half_even.
  pose proof (Qfloor_le q) as H1. pose proof (Qlt_floor q) as H2.
  rewrite inject_Z_plus in H2. change (inject_Z 1) with 1%Q in H2.
  destruct (Qcompare_spec (q - inject_Z (Qfloor q)) (1 # 2)) as [E|E|E].
  - destruct (Z.even (Qfloor q));
      [|rewrite inject_Z_plus; change (inject_Z 1) with 1%Q]; lra.
  - lra.
  - rewrite inject_Z_plus. change (inject_Z 1) with 1%Q. lra.
Qed.

Lemma round_half_even_mono_int (q : Q) (a b : Z) :
  (inject_Z a <= q)%Q -> (q <= inject_Z b)%Q ->
  (a <= round_half_even q <= b)%Z.
Proof.
  intros Ha Hb. unfold round_half_even.
  assert (A : (a <= Qfloor q)%Z).
  { rewrite <- (Qfloor_Z a). now apply Qfloor_resp_le. }
  assert (B : (Qfloor q <= b)%Z).
  { rewrite <- (Qfloor_Z b). now apply Qfloor_resp_le. }
  pose proof (Qfloor_le q) as H1.
  assert (C : (q - inject_Z (Qfloor q) > 0)%Q -> (Qfloor q < b)%Z).
  { intros H. rewrite Zlt_Qlt. lra. }
  destruct (Qcompare_spec (q - inject_Z (Qfloor q)) (1 # 2)) as [E|E|E].
  - destruct (Z.even (Qfloor q)); [lia|].
    assert (Qfloor q < b)%Z by (apply C; lra). lia.
  - lia.
  - assert (Qfloor q < b)%Z by (apply C; lra). lia.
Qed.

Lemma float_mod_range (t d : Q) :
  (0 < d)%Q -> (0 <= float_mod t d)%Q /\ (float_mod t d < d)%Q.
Proof.
  intros Hd. unfold float_mod.
  pose proof (Qfloor_le (t / d)) as H1. pose proof (Qlt_floor (t / d)) as H2.
  rewrite inject_Z_plus in H2. change (inject_Z 1) with 1%Q in H2.
  assert (E : (t / d * d == t)%Q) by (field; lra).
  set (f := inject_Z (Qfloor (t / d))) in *.
  assert (A : (f * d <= t / d * d)%Q) by (apply Qmult_le_compat_r; lra).
  assert (B : (t / d * d < (f + 1) * d)%Q) by (apply Qmult_lt_compat_r; lra).
  split; lra.
Qed.

Lemma seconds_to_ass_time_fields t :
  (0 <= t)%Q -> exists h m c, timestamp_fields t h m c.
Proof.
  intros Ht.
  set (h := Qfloor (t / 3600)).
  set (r := float_mod t 3600).
  set (m := Qfloor (r / 60)).
  set (secs := float_mod t 60).
  set (z := round_half_even (Qabs secs * 100)).
  destruct (float_mod_range t 3600 ltac:(lra)) as [Hr1 Hr2]. fold r in Hr1, Hr2.
  destruct (float_mod_range t 60 ltac:(lra)) as [Hs1 Hs2]. fold secs in Hs1, Hs2.
  assert (Hh : (0 <= h)%Z).
  { unfold h. rewrite <- (Qfloor_Z 0). apply Qfloor_resp_le.
    change (inject_Z 0) with 0%Q. apply Qle_shift_div_l; lra. }
  assert (Hm : (0 <= m < 60)%Z).
  { unfold m. split.
    - rewrite <- (Qfloor_Z 0). apply Qfloor_resp_le.
      change (inject_Z 0) with 0%Q. apply Qle_shift_div_l; lra.
    - rewrite Zlt_Qlt. eapply Qle_lt_trans; [apply Qfloor_le|].
      change (inject_Z 60) with 60%Q. apply Qlt_shift_div_r; lra. }
  assert (Habs : (Qabs secs == secs)%Q) by now apply Qabs_pos.
  assert (Hz : (0 <= z <= 6000)%Z).
  { unfold z. apply round_half_even_mono_int; rewrite Habs;
      change (inject_Z 0) with 0%Q; change (inject_Z 6000) with 6000%Q; lra. }
  destruct (round_half_even_bounds (Qabs secs * 100)) as [Hb1 Hb2]. fold z in Hb1, Hb2.
  rewrite Habs in Hb1, Hb2.
  exists h, m, (Z.abs_N z). split; try assumption.
  - unfold seconds_to_ass_time. rewrite (Qltb_false_nonneg _ Ht).
    unfold float_floordiv. rewrite !int_of_float_inject.
    fold h r m secs. unfold format_0_2f. fold z.
    assert (Qle_bool 0 secs = true) as -> by now apply Qle_bool_iff.
    destruct h eqn:Eh; try lia; reflexivity.
  - lia.
  - (* the value *)
    assert (Er : (r == t - 3600 * inject_Z h)%Q) by reflexivity.
    assert (E : (r / 60 * 60 == r)%Q) by (field; lra).
    assert (E' : (t / 60 * 60 == t)%Q) by (field; lra).
    assert (Hfl : Qfloor (t / 60) = (60 * h + m)%Z).
    { apply Qfloor_unique.
      - pose proof (Qfloor_le (r / 60)) as H1. fold m in H1.
        rewrite inject_Z_plus, inject_Z_mult.
        change (inject_Z 60) with 60%Q.
        assert (A : (inject_Z m * 60 <= r / 60 * 60)%Q) by (apply Qmult_le_compat_r; lra).
        apply Qmult_le_r with (z := 60%Q); lra.
      - pose proof (Qlt_floor (r / 60)) as H1. fold m in H1.
        rewrite !inject_Z_plus, inject_Z_mult. rewrite inject_Z_plus in H1.
        change (inject_Z 60) with 60%Q. change (inject_Z 1) with 1%Q in *.
        assert (A : (r / 60 * 60 < (inject_Z m + 1) * 60)%Q) by (apply Qmult_lt_compat_r; lra).
        apply Qmult_lt_r with (z := 60%Q); lra. }
    assert (Hsecs : (secs == t - 60 * (60 * inject_Z h + inject_Z m))%Q).
    { unfold secs, float_mod. rewrite Hfl, inject_Z_plus, inject_Z_mult.
      change (inject_Z 60) with 60%Q. reflexivity. }
    assert (Hc : (Z.of_N (Z.abs_N z) # 100 == inject_Z z / 100)%Q).
    { rewrite N2Z.inj_abs_N, Z.abs_eq by lia.
      unfold Qeq, Qdiv, Qmult, Qinv, inject_Z. cbn. lia. }
    rewrite Hc, inject_Z_plus, !inject_Z_mult.
    change (inject_Z 3600) with 3600%Q. change (inject_Z 60) with 60%Q.
    assert (Ez : (inject_Z z / 100 * 100 == inject_Z z)%Q) by (field; lra).
    apply Qabs_Qle_condition. split; lra.
Qed.

Lemma ass_time_to_seconds_fields s :
  ass_time_to_seconds s =
  match str_split ":" s with
  | [a; b; c] => parse_fields s a b c
  | _ => Raise (exn_new ValueError (invalid_format s))
  end.
Proof.
  unfold ass_time_to_seconds.
  destruct (str_split ":" s) as [|a [|b [|c [|d l]]]]; try reflexivity.
  cbn [length Nat.eqb negb]. unfold parse_parts, parse_fields. cbn [nth].
  unfold int_of_str, float_of_str.
  destruct (py_int a); [|reflexivity].
  destruct (py_int b); [|reflexivity].
  destruct (py_float c); reflexivity.
Qed.

Lemma roundtrip_bound t :
  (0 <= t)%Q ->
  exists q, ass_time_to_seconds (seconds_to_ass_time t) = Ok (PFin q) /\
            (Qabs (q - t) <= 1 # 200)%Q.
Proof.
  intros Ht. destruct (seconds_to_ass_time_fields t Ht) as (h & m & c & F).
  destruct F as [Etxt Hh Hm Hc Hv].
  pose proof (secs_field_ok_all c Hc) as Hs. unfold secs_field_ok in Hs.
  apply andb_prop in Hs as [Hs1 Hs2].
  pose proof (mins_field_ok_all (Z.to_N m) ltac:(lia)) as Hmf.
  unfold mins_field_ok in Hmf. rewrite Z2N.id in Hmf by lia.
  apply andb_prop in Hmf as [Hm1 Hm2].
  rewrite ass_time_to_seconds_fields, Etxt.
  rewrite (str_split_3 ":" _ _ _ (str_of_N_no_colon _) Hm1 Hs1).
  unfold parse_fields. rewrite py_int_str_of_N, Z2N.id by lia.
  destruct (py_int (format_0d 2 m)) as [m'|]; [|discriminate].
  apply Z.eqb_eq in Hm2. subst m'.
  destruct (py_float (secs_field c)) as [[q| |]|]; try discriminate.
  apply Qeq_bool_eq in Hs2.
  exists (inject_Z (h * 3600 + m * 60) + q)%Q. split; [reflexivity|].
  rewrite Hs2. exact Hv.
Qed.

Lemma is_digit_in c : is_digit c = true -> In c digit_chars.
Proof.
  destruct c as [[] [] [] [] [] [] [] []]; try discriminate; intros _; cbn; tauto.
Qed.

Lemma seconds_parse_ok_all :
  forallb (fun a => forallb (fun b => forallb (fun c => forallb (fun d =>
    seconds_parse_ok a b c d) digit_chars) digit_chars) digit_chars) digit_chars
  = true.
Proof. vm_compute. reflexivity. Qed.

Lemma seconds_shape_parse s :
  seconds_shape s = true ->
  exists a b c d q, chars s = [a; b; "."%char; c; d] /\
    py_float s = Some (PFin q) /\ (q == seconds_value a b c d)%Q.
Proof.
  unfold seconds_shape. intros H.
  destruct (chars s) as [|a [|b [|dot [|c [|d [|x l]]]]]] eqn:E; try discriminate.
  apply andb_prop in H as [H Hd]. apply andb_prop in H as [H Hc].
  apply andb_prop in H as [H Hdot]. apply andb_prop in H as [Ha Hb].
  apply Ascii.eqb_eq in Hdot. subst dot.
  pose proof seconds_parse_ok_all as A.
  rewrite forallb_forall in A. specialize (A a (is_digit_in _ Ha)).
  rewrite forallb_forall in A. specialize (A b (is_digit_in _ Hb)).
  rewrite forallb_forall in A. specialize (A c (is_digit_in _ Hc)).
  rewrite forallb_forall in A. specialize (A d (is_digit_in _ Hd)).
  unfold seconds_parse_ok in A. rewrite <- E, string_of_list_ascii_of_string in A.
  destruct (py_float s) as [[q| |]|]; try discriminate.
  apply Qeq_bool_eq in A. exists a, b, c, d, q. auto.
Qed.

Lemma two_digits_parse s :
  two_digits s = true -> py_int s = Some (Z.of_N (digits_value (chars s))).
Proof.
  unfold two_digits. intros H. apply py_int_digits.
  - destruct (chars s) as [|a [|b [|x l]]]; try discriminate.
    unfold all_digits. cbn [forallb]. now rewrite andb_true_r.
  - intros ->. discriminate.
Qed.

Lemma timestamp_shape_parse s :
  timestamp_shape s = true ->
  exists h m a b c d q,
    str_split ":" s = [h; m; of_chars [a; b; "."%char; c; d]] /\
    ass_time_to_seconds s = Ok (PFin q) /\
    (q == inject_Z (Z.of_N (digits_value (chars h)) * 3600
                    + Z.of_N (digits_value (chars m)) * 60)
          + seconds_value a b c d)%Q.
Proof.
  unfold timestamp_shape. intros H.
  rewrite ass_time_to_seconds_fields.
  destruct (str_split ":" s) as [|h [|m [|sc [|x l]]]]; try discriminate.
  apply andb_prop in H as [H H0]. apply andb_prop in H as [H H1].
  apply andb_prop in H as [Hne H].
  destruct (seconds_shape_parse _ H0) as (a & b & c & d & q & Esc & Ef & Eq).
  exists h, m, a, b, c, d, (inject_Z (Z.of_N (digits_value (chars h)) * 3600
                    + Z.of_N (digits_value (chars m)) * 60) + q)%Q.
  split; [|split].
  - now rewrite <- Esc, string_of_list_ascii_of_string.
  - unfold parse_fields. rewrite (two_digits_parse _ H1), Ef.
    rewrite py_int_digits; [reflexivity | assumption |].
    intros ->. discriminate.
  - now rewrite Eq.
Qed.

(* --------------------------------------------------------------------- *)
(** ** Speaker assignment *)
(* --------------------------------------------------------------------- *)

Lemma py_max_eq a b : (py_max a b == Qmax a b)%Q.
Proof.
  unfold py_max. destruct (Qltb a b) eqn:E.
  - apply Qltb_lt in E. symmetry. apply Q.max_r. lra.
  - apply Qltb_ge in E. symmetry. apply Q.max_l. lra.
Qed.

Lemma py_min_eq a b : (py_min a b == Qmin a b)%Q.
Proof.
  unfold py_min. destruct (Qltb b a) eqn:E.
  - apply Qltb_lt in E. symmetry. apply Q.min_r. lra.
  - apply Qltb_ge in E. symmetry. apply Q.min_l. lra.
Qed.

Lemma code_overlap_eq ts te d : (code_overlap ts te d == overlap ts te d)%Q.
Proof.
  unfold code_overlap, overlap.
  rewrite py_max_eq, py_min_eq, (py_max_eq ts). reflexivity.
Qed.

Lemma best_speaker_body_run ts te w l d st :
  w_heap w !! l = Some d -> is_turn d ->
  best_speaker_body ts te st l w = (Ok (best_step ts te st d), w).
Proof.
  intros Hl ([s Hs] & [e He] & [sp Hsp]). destruct st as [bs bo].
  unfold best_speaker_body.
  rewrite (bind_ok _ _ _ _ _ (getitem_ok k_start _ _ _ _ Hl Hs)).
  rewrite (bind_ok _ _ _ _ _ (getitem_ok k_end _ _ _ _ Hl He)).
  unfold best_step, code_overlap, start_of, end_of, label_of.
  rewrite Hs, He, Hsp. cbn [default snd].
  destruct (Qltb bo _); [|reflexivity].
  now rewrite (bind_ok _ _ _ _ _ (getitem_ok k_speaker _ _ _ _ Hl Hsp)).
Qed.

Lemma find_best_speaker_run ts te w ls ds :
  refers w ls ds -> Forall is_turn ds ->
  find_best_speaker ts te ls w =
  (Ok (fst (fold_left (best_step ts te) ds ("UNKNOWN", 0%Q))), w).
Proof.
  intros Href Hok. unfold find_best_speaker.
  erewrite bind_ok.
  2:{ apply for_each_read_fold with (f := best_step ts te) (ds := ds).
      clear -Href Hok. induction Href as [|l d ls ds H _ IH]; [constructor|].
      inversion Hok; subst. constructor; [|now apply IH].
      intros st. now apply best_speaker_body_run. }
  now destruct (fold_left _ _ _).
Qed.

Lemma best_so_far_fold ts te turns :
  best_so_far ts te turns (fold_left (best_step ts te) turns ("UNKNOWN", 0%Q)).
Proof.
  induction turns as [|d turns IH] using rev_ind.
  - cbn. split; [intros j d H; discriminate|].
    left. repeat split. intros j d H; discriminate.
  - rewrite fold_left_app. cbn [fold_left].
    set (st := fold_left (best_step ts te) turns ("UNKNOWN", 0%Q)) in *.
    destruct IH as [Hmax Hcase]. unfold best_step.
    pose proof (code_overlap_eq ts te d) as Eo.
    destruct (Qltb (snd st) (code_overlap ts te d)) eqn:E.
    + apply Qltb_lt in E. rewrite Eo in E. split.
      * cbn [snd]. intros j d' Hj. rewrite Eo.
        apply lookup_app_Some in Hj as [Hj|[_ Hj]].
        -- specialize (Hmax _ _ Hj). lra.
        -- apply list_lookup_singleton_Some in Hj as [_ <-]. lra.
      * right. exists (length turns), d. cbn [fst snd].
        split; [|split; [reflexivity|split; [exact Eo|split]]].
        -- rewrite lookup_app_r by lia. now rewrite Nat.sub_diag.
        -- destruct Hcase as [(_ & E0 & _)|(i & d0 & _ & _ & E1 & Hp & _)].
           ++ rewrite E0 in E. exact E.
           ++ lra.
        -- intros j d' Hlt Hj. rewrite lookup_app_l in Hj by lia.
           specialize (Hmax _ _ Hj). lra.
    + apply Qltb_ge in E. rewrite Eo in E. split.
      * intros j d' Hj. apply lookup_app_Some in Hj as [Hj|[_ Hj]].
        -- now apply (Hmax _ _ Hj).
        -- apply list_lookup_singleton_Some in Hj as [_ <-]. exact E.
      * destruct Hcase as [(E1 & E0 & Hno)|(i & d0 & Hi & E1 & E2 & Hp & Hlt)].
        -- left. repeat split; try assumption.
           intros j d' Hj. apply lookup_app_Some in Hj as [Hj|[_ Hj]].
           ++ now apply (Hno _ _ Hj).
           ++ apply list_lookup_singleton_Some in Hj as [_ <-].
              rewrite E0 in E. lra.
        -- right. exists i, d0. repeat split; try assumption.
           ++ apply lookup_app_l_Some. exact Hi.
           ++ intros j d' Hji Hj. apply (Hlt j d' Hji).
              rewrite lookup_app_l in Hj; [exact Hj|].
              apply lookup_lt_Some in Hi. lia.
Qed.

(* --------------------------------------------------------------------- *)
(** ** Merging *)
(* --------------------------------------------------------------------- *)

Lemma default_speaker_dict_run w ext l t :
  w_heap w !! l = Some t -> is_text t ->
  default_speaker_dict l (extend w ext) =
  (Ok (length (w_heap w) + length ext)%nat, extend w (ext ++ [cue_of "SPEAKER_00" t])).
Proof.
  intros Hl ([s Hs] & [e He] & [x Hx]). unfold default_speaker_dict.
  pose proof (extend_lookup w ext _ _ Hl) as Hl'.
  rewrite (bind_ok _ _ _ _ _ (getitem_ok k_start _ _ _ _ Hl' Hs)).
  rewrite (bind_ok _ _ _ _ _ (getitem_ok k_end _ _ _ _ Hl' He)).
  rewrite (bind_ok _ _ _ _ _ (getitem_ok k_text _ _ _ _ Hl' Hx)).
  rewrite new_dict_run, extend_extend, extend_heap, length_app.
  unfold cue_of. now rewrite Hs, He, Hx.
Qed.

Lemma default_speaker_loop w ls ts :
  refers w ls ts -> Forall is_text ts ->
  forall ext,
  comprehension default_speaker_dict ls (extend w ext) =
  (Ok (seq (length (w_heap w) + length ext) (length ls)),
   extend w (ext ++ map (cue_of "SPEAKER_00") ts)).
Proof.
  induction 1 as [|l t ls ts Hl _ IH]; intros Hok ext.
  - cbn. now rewrite app_nil_r.
  - inversion Hok; subst. cbn [comprehension].
    rewrite (bind_ok _ _ _ _ _ (default_speaker_dict_run w ext l t Hl H1)).
    rewrite (bind_ok _ _ _ _ _ (IH H2 _)).
    cbn [map length seq]. rewrite length_app, <- app_assoc. cbn [length app].
    replace (length (w_heap w) + (length ext + 1))%nat
      with (S (length (w_heap w) + length ext)) by lia.
    reflexivity.
Qed.

Lemma merge_body_run w ext dls turns l t merged :
  refers w dls turns -> Forall is_turn turns ->
  w_heap w !! l = Some t -> is_text t ->
  merge_body dls merged l (extend w ext) =
  (Ok (merged ++ [(length (w_heap w) + length ext)%nat]),
   extend w (ext ++ [cue_of (best_label (start_of t) (end_of t) turns) t])).
Proof.
  intros Hd Hturn Hl ([s Hs] & [e He] & [x Hx]). unfold merge_body.
  pose proof (extend_lookup w ext _ _ Hl) as Hl'.
  rewrite (bind_ok _ _ _ _ _ (getitem_ok k_start _ _ _ _ Hl' Hs)).
  rewrite (bind_ok _ _ _ _ _ (getitem_ok k_end _ _ _ _ Hl' He)).
  rewrite (bind_ok _ _ _ _ _
    (find_best_speaker_run s e _ _ _ (refers_extend w ext _ _ Hd) Hturn)).
  rewrite (bind_ok _ _ _ _ _ (getitem_ok k_start _ _ _ _ Hl' Hs)).
  rewrite (bind_ok _ _ _ _ _ (getitem_ok k_end _ _ _ _ Hl' He)).
  rewrite (bind_ok _ _ _ _ _ (getitem_ok k_text _ _ _ _ Hl' Hx)).
  rewrite (bind_ok _ _ _ _ _ (new_dict_run _ _)).
  rewrite extend_extend, extend_heap, length_app.
  unfold cue_of, best_label, start_of, end_of. now rewrite Hs, He, Hx.
Qed.

Lemma merge_loop w dls turns ls ts :
  refers w dls turns -> Forall is_turn turns ->
  refers w ls ts -> Forall is_text ts ->
  forall ext merged,
  for_each ls (merge_body dls) merged (extend w ext) =
  (Ok (merged ++ seq (length (w_heap w) + length ext) (length ls)),
   extend w (ext ++ map (fun t => cue_of (best_label (start_of t) (end_of t) turns) t) ts)).
Proof.
  intros Hd Hturn. induction 1 as [|l t ls ts Hl _ IH]; intros Hok ext merged.
  - cbn. now rewrite !app_nil_r.
  - inversion Hok; subst. cbn [for_each].
    rewrite (bind_ok _ _ _ _ _ (merge_body_run w ext dls turns l t merged Hd Hturn Hl H1)).
    rewrite (IH H2 _ _).
    cbn [map length seq]. rewrite length_app, <- !app_assoc. cbn [length app].
    replace (length (w_heap w) + (length ext + 1))%nat
      with (S (length (w_heap w) + length ext)) by lia.
    reflexivity.
Qed.

Lemma merge_segments_run w ls ts dls turns :
  refers w ls ts -> Forall is_text ts ->
  refers w (default [] dls) turns -> Forall is_turn turns ->
  merge_segments ls dls w =
  (Ok (seq (length (w_heap w)) (length ls)), extend w (merge_spec ts turns)).
Proof.
  intros Hl Ht Hd Hturn. unfold merge_segments.
  destruct ls as [|l0 ls0] eqn:E.
  - inversion Hl; subst. cbn. destruct turns; now rewrite extend_nil.
  - cbn [list_empty]. rewrite <- E in *. clear E.
    destruct (opt_list_empty dls) eqn:Ee.
    + assert (turns = []) as ->.
      { destruct dls as [[|]|]; try discriminate; now inversion Hd. }
      pose proof (default_speaker_loop w ls ts Hl Ht []) as H.
      rewrite extend_nil in H. cbn [length app] in H.
      now rewrite Nat.add_0_r in H.
    + pose proof (merge_loop w _ turns ls ts Hd Hturn Hl Ht [] []) as H.
      rewrite extend_nil in H. cbn [length app] in H.
      rewrite Nat.add_0_r in H. rewrite H. unfold merge_spec.
      destruct turns; [|reflexivity].
      destruct dls as [[|]|]; try discriminate. inversion Hd.
Qed.

(* --------------------------------------------------------------------- *)
(** ** Consolidation *)
(* --------------------------------------------------------------------- *)

Lemma absorb_is_cue acc next : is_cue acc -> is_cue (absorb acc next).
Proof.
  intros (H1 & H2 & H3 & H4). unfold absorb, is_cue. cbn. eauto.
Qed.

Lemma consolidate_step_is_cue g m st next :
  acc_is_cue st -> is_cue next -> acc_is_cue (consolidate_step g m st next).
Proof.
  destruct st as [fl [acc|]]; cbn; intros Ha Hn; [|exact Hn].
  destruct (mergeable g m acc next); cbn; [now apply absorb_is_cue | exact Hn].
Qed.

Lemma consolidate_body_run g m w st l d :
  w_heap w !! l = Some d -> is_cue d -> acc_is_cue st ->
  consolidate_body g m (loop_vars w st) l (extend w (flush st)) =
  (Ok (loop_vars w (consolidate_step g m st d)),
   extend w (flush (consolidate_step g m st d))).
Proof.
  intros Hl Hd Ha. destruct st as [fl [acc|]]; cbn [loop_vars flush consolidate_step].
  - (* an accumulator *)
    cbn in Ha.
    destruct Hd as ([s Hs] & [e He] & [x Hx] & [sp Hsp]).
    destruct Ha as ([s' Hs'] & [e' He'] & [x' Hx'] & [sp' Hsp']).
    pose proof (extend_lookup w (fl ++ [acc]) _ _ Hl) as Hl'.
    pose proof (lookup_last w fl acc) as Hc.
    unfold consolidate_body.
    rewrite (bind_ok _ _ _ _ _ (getitem_ok k_speaker _ _ _ _ Hl' Hsp)).
    rewrite (bind_ok _ _ _ _ _ (getitem_ok k_speaker _ _ _ _ Hc Hsp')).
    rewrite (bind_ok _ _ _ _ _ (getitem_ok k_start _ _ _ _ Hl' Hs)).
    rewrite (bind_ok _ _ _ _ _ (getitem_ok k_end _ _ _ _ Hc He')).
    rewrite (bind_ok _ _ _ _ _ (getitem_ok k_end _ _ _ _ Hl' He)).
    rewrite (bind_ok _ _ _ _ _ (getitem_ok k_start _ _ _ _ Hc Hs')).
    unfold mergeable, label_of, start_of, end_of.
    rewrite Hs, He, Hsp, Hs', He', Hsp'. unfold default. cbn [from_option id].
    destruct (String.eqb sp sp' && Qle_bool (s - e') g && Qle_bool (e - s') m).
    + rewrite (bind_ok _ _ _ _ _ (getitem_ok k_end _ _ _ _ Hl' He)).
      rewrite (bind_ok _ _ _ _ _ (setitem_ok k_end _ _ _ e Hc)).
      rewrite set_last.
      pose proof (lookup_last w fl (key_set k_end e acc)) as Hc2.
      rewrite (bind_ok _ _ _ _ _ (getitem_ok k_text _ _ _ _ Hc2 Hx')).
      pose proof (extend_lookup w (fl ++ [key_set k_end e acc]) _ _ Hl) as Hl2.
      rewrite (bind_ok _ _ _ _ _ (getitem_ok k_text _ _ _ _ Hl2 Hx)).
      rewrite (bind_ok _ _ _ _ _ (setitem_ok k_text _ _ _ _ Hc2)).
      rewrite set_last. cbn [loop_vars flush].
      unfold absorb, text_of, end_of. rewrite Hx, Hx', He. reflexivity.
    + rewrite (bind_ok _ _ _ _ _ (dict_copy_ok _ _ _ Hl')).
      rewrite extend_extend, extend_heap, !length_app. cbn [loop_vars flush length].
      rewrite length_app, seq_app. reflexivity.
  - (* no accumulator yet *)
    unfold consolidate_body.
    rewrite (bind_ok _ _ _ _ _ (dict_copy_ok _ _ _ (extend_lookup w fl _ _ Hl))).
    rewrite extend_extend, extend_heap, length_app. reflexivity.
Qed.

Lemma consolidate_loop g m w ls ds :
  refers w ls ds -> Forall is_cue ds ->
  forall st, acc_is_cue st ->
  for_each ls (consolidate_body g m) (loop_vars w st) (extend w (flush st)) =
  (Ok (loop_vars w (fold_left (consolidate_step g m) ds st)),
   extend w (flush (fold_left (consolidate_step g m) ds st))).
Proof.
  induction 1 as [|l d ls ds Hl _ IH]; intros Hok st Ha; [reflexivity|].
  inversion Hok; subst. cbn [for_each fold_left].
  rewrite (bind_ok _ _ _ _ _ (consolidate_body_run g m w st l d Hl H1 Ha)).
  apply IH; [assumption|]. now apply consolidate_step_is_cue.
Qed.

Lemma consolidate_segments_run g m w ls ds :
  refers w ls ds -> Forall is_cue ds ->
  consolidate_segments ls g m w =
  (Ok (seq (length (w_heap w)) (length (consolidate_spec g m ds))),
   extend w (consolidate_spec g m ds)).
Proof.
  intros Hl Hok. unfold consolidate_segments.
  destruct ls as [|l0 ls0] eqn:E.
  - inversion Hl; subst. cbn. now rewrite extend_nil.
  - cbn [list_empty]. rewrite <- E in *. clear E.
    pose proof (consolidate_loop g m w ls ds Hl Hok ([], None) I) as H.
    cbn [flush loop_vars length seq] in H. rewrite extend_nil in H.
    rewrite (bind_ok _ _ _ _ _ H). unfold consolidate_spec.
    destruct (fold_left (consolidate_step g m) ds ([], None)) as [fl [acc|]];
      cbn [loop_vars flush].
    + rewrite length_app, seq_app. reflexivity.
    + reflexivity.
Qed.

(* --------------------------------------------------------------------- *)
(** ** Numbered responses *)
(* --------------------------------------------------------------------- *)

Lemma collect_fold (lines : list string) (init : gmap N string) (i : N) :
  match fold_left collect lines init !! i with
  | Some t =>
      (exists line, line ∈ lines /\ supplies (str_strip line) i t) \/
      ((forall line t', line ∈ lines -> ~ supplies (str_strip line) i t') /\
       init !! i = Some t)
  | None =>
      (forall line t', line ∈ lines -> ~ supplies (str_strip line) i t') /\
      init !! i = None
  end.
Proof.
  revert init. induction lines as [|line lines IH]; intros init; cbn [fold_left].
  - destruct (init !! i) eqn:E.
    + right. split; [|reflexivity]. intros line t' H. inversion H.
    + split; [|reflexivity]. intros line t' H. inversion H.
  - specialize (IH (collect init line)).
    assert (Hhere : forall t', supplies (str_strip line) i t' ->
                               collect init line !! i = Some t').
    { intros t' (g1 & g2 & Hm & Hi & ->). unfold collect. rewrite Hm, Hi.
      apply lookup_insert_eq. }
    assert (Hnot : (forall t', ~ supplies (str_strip line) i t') ->
                   collect init line !! i = init !! i).
    { intros Hn. unfold collect.
      destruct (re_match (str_strip line)) as [[g1 g2]|] eqn:Hm; [|reflexivity].
      apply lookup_insert_ne. intros Hi. apply (Hn (str_strip g2)).
      exists g1, g2. auto. }
    assert (Hdec : (exists t', supplies (str_strip line) i t') \/
                   (forall t', ~ supplies (str_strip line) i t')).
    { destruct (re_match (str_strip line)) as [[g1 g2]|] eqn:Hm.
      - destruct (N.eq_dec (int_of_digits g1) i) as [Hi|Hi].
        + left. exists (str_strip g2), g1, g2. auto.
        + right. intros t' (g1' & g2' & Hm' & Hi' & _). congruence.
      - right. intros t' (g1' & g2' & Hm' & _). congruence. }
    destruct (fold_left collect lines (collect init line) !! i) as [t|] eqn:E.
    + destruct IH as [(l & Hl & Hs)|[Hno Hc]].
      * left. exists l. split; [now right | exact Hs].
      * destruct Hdec as [[t' Ht']|Hn].
        -- left. exists line. split; [left|]. rewrite (Hhere _ Ht') in Hc.
           now inversion Hc; subst.
        -- right. split; [|now rewrite <- (Hnot Hn)].
           intros l t' Hl. inversion Hl; subst; [apply Hn | now apply Hno].
    + destruct IH as [Hno Hc]. destruct Hdec as [[t' Ht']|Hn].
      * rewrite (Hhere _ Ht') in Hc. discriminate.
      * split; [|now rewrite <- (Hnot Hn)].
        intros l t' Hl. inversion Hl; subst; [apply Hn | now apply Hno].
Qed.

Lemma parse_numbered_response_eq response n :
  parse_numbered_response response n =
  map (fun i => default "" (fold_left collect (str_split LF (str_strip response)) ∅
                            !! N.of_nat i)) (seq 1 n).
Proof.
  unfold parse_numbered_response. apply map_ext. intros i.
  fold collect. now destruct (_ !! _).
Qed.

Lemma parse_numbered_response_length response n :
  length (parse_numbered_response response n) = n.
Proof. unfold parse_numbered_response. now rewrite length_map, length_seq. Qed.

Lemma parse_numbered_response_lookup response n i :
  (1 <= i <= n)%nat ->
  exists t, parse_numbered_response response n !! (i - 1)%nat = Some t /\
    ((exists line, line ∈ response_lines response /\ supplies line (N.of_nat i) t)
     \/ ((forall line t', line ∈ response_lines response ->
                          ~ supplies line (N.of_nat i) t') /\ t = "")).
Proof.
  intros Hi. rewrite parse_numbered_response_eq.
  set (lines := str_split LF (str_strip response)).
  exists (default "" (fold_left collect lines ∅ !! N.of_nat i)). split.
  - rewrite list_lookup_fmap, lookup_seq_lt by lia.
    cbn. repeat f_equal. lia.
  - pose proof (collect_fold lines ∅ (N.of_nat i)) as H.
    assert (Hin : forall line, line ∈ lines -> str_strip line ∈ response_lines response).
    { intros line Hl. unfold response_lines. apply list_elem_of_fmap. eauto. }
    assert (Hin' : forall line, line ∈ response_lines response ->
                                exists l0, l0 ∈ lines /\ line = str_strip l0).
    { intros line Hl. unfold response_lines in Hl.
      apply list_elem_of_fmap in Hl as (l0 & -> & H0). eauto. }
    destruct (fold_left collect lines ∅ !! N.of_nat i) as [t|]; cbn.
    + destruct H as [(l & Hl & Hs)|[_ Hc]].
      * left. exists (str_strip l). auto.
      * rewrite lookup_empty in Hc. discriminate.
    + right. split; [|reflexivity]. destruct H as [Hno _].
      intros line t' Hl. destruct (Hin' _ Hl) as (l0 & Hl0 & ->).
      now apply Hno.
Qed.

Lemma span_app p l a b : span p l = (a, b) -> l = a ++ b /\ forallb p a = true.
Proof.
  revert a b. induction l as [|c l IH]; intros a b; cbn.
  - intros [= <- <-]. auto.
  - destruct (p c) eqn:E.
    + destruct (span p l) as [a' b']. intros [= <- <-].
      destruct (IH _ _ eq_refl) as [-> H]. cbn. rewrite E. auto.
    + intros [= <- <-]. auto.
Qed.

Lemma span_all p a b :
  forallb p a = true -> (match b with c :: _ => p c = false | [] => True end) ->
  span p (a ++ b) = (a, b).
Proof.
  induction a as [|c a IH]; cbn; intros Ha Hb.
  - destruct b as [|c b]; [reflexivity|]. cbn. now rewrite Hb.
  - apply andb_prop in Ha as [H1 H2]. now rewrite H1, (IH H2 Hb).
Qed.

Lemma span_prefix p a b :
  forallb p a = true ->
  exists a' b', span p (a ++ b) = (a ++ a', b') /\ b = a' ++ b' /\
                forallb p a' = true.
Proof.
  induction a as [|c a IH]; cbn; intros Ha.
  - destruct (span p b) as [a' b'] eqn:E. exists a', b'.
    destruct (span_app _ _ _ _ E). auto.
  - apply andb_prop in Ha as [H1 H2]. rewrite H1.
    destruct (IH H2) as (a' & b' & -> & ? & ?). exists a', b'. auto.
Qed.

Lemma span_stop p l a x b : span p l = (a, x :: b) -> p x = false.
Proof.
  revert a. induction l as [|z l IH]; intros a; cbn; [discriminate|].
  destruct (p z) eqn:E.
  - destruct (span p l) as [a' b'] eqn:E'. intros [= <- ->]. now apply (IH a').
  - intros [= <- <- <-]. exact E.
Qed.

Lemma dot_plus_end_sound t r :
  dot_plus_end t = Some r ->
  r <> [] /\ forallb is_dot r = true /\ (t = r \/ t = r ++ [LF]).
Proof.
  unfold dot_plus_end. destruct (span is_dot t) as [a b] eqn:E.
  pose proof (span_app _ _ _ _ E) as [-> Ha].
  destruct a as [|c a]; [destruct b as [|? [|? ?]]; discriminate|].
  destruct b as [|x [|y b]]; try discriminate; intros [= <-].
  - rewrite app_nil_r. split; [discriminate|]. split; [exact Ha|]. now left.
  - split; [discriminate|]. split; [exact Ha|]. right.
    pose proof (span_stop _ _ _ _ _ E) as H.
    unfold is_dot in H. apply negb_false_iff, Ascii.eqb_eq in H. now subst.
Qed.

Lemma dot_plus_end_complete r tail :
  r <> [] -> forallb is_dot r = true -> tail = [] \/ tail = [LF] ->
  dot_plus_end (r ++ tail) = Some r.
Proof.
  intros Hne Hr Ht. unfold dot_plus_end.
  rewrite (span_all is_dot r tail Hr).
  - destruct r; [congruence|]. destruct Ht as [-> | ->]; reflexivity.
  - destruct Ht as [-> | ->]; [exact I|]. unfold is_dot.
    now rewrite Ascii.eqb_refl.
Qed.

Lemma seps_then_text_sound taken t r :
  seps_then_text taken t = Some r ->
  exists kept back, rev taken = kept ++ back /\ kept <> [] /\
                    dot_plus_end (back ++ t) = Some r.
Proof.
  revert t. induction taken as [|c taken IH]; intros t; cbn; [discriminate|].
  destruct (dot_plus_end t) as [r'|] eqn:E.
  - intros [= <-]. exists (rev taken ++ [c]), []. repeat split; auto.
    + now rewrite app_nil_r.
    + intros H. apply app_eq_nil in H as [_ H]. discriminate.
  - intros H. destruct (IH _ H) as (kept & back & E1 & Hk & Hd).
    exists kept, (back ++ [c]). rewrite E1, <- !app_assoc. auto.
Qed.

Lemma seps_then_text_complete kept back t r :
  kept <> [] -> dot_plus_end (back ++ t) = Some r ->
  exists r', seps_then_text (rev (kept ++ back)) t = Some r'.
Proof.
  intros Hk. revert t. induction back as [|c back IH] using rev_ind; intros t Hd.
  - rewrite app_nil_r. cbn in Hd.
    destruct (rev kept) as [|x l] eqn:E.
    + apply (f_equal (@rev _)) in E. rewrite rev_involutive in E. now subst.
    + cbn. rewrite Hd. eauto.
  - rewrite app_assoc, rev_app_distr. cbn [rev app].
    cbn [seps_then_text]. destruct (dot_plus_end t); [eauto|].
    apply IH. now rewrite <- app_assoc in Hd.
Qed.

Lemma sep_not_digit c : is_sep c = true -> is_digit c = false.
Proof. destruct c as [[] [] [] [] [] [] [] []]; try discriminate; reflexivity. Qed.

Lemma re_match_sound line g1 g2 :
  re_match line = Some (g1, g2) ->
  exists seps, matches_pattern (chars line) (chars g1) seps (chars g2).
Proof.
  unfold re_match.
  destruct (span is_space (chars line)) as [ws l1] eqn:E1.
  destruct (span is_digit l1) as [ds l2] eqn:E2.
  destruct ds as [|d ds]; [discriminate|].
  destruct (span is_sep l2) as [seps t] eqn:E3.
  destruct (seps_then_text (rev seps) t) as [r|] eqn:E4; [|discriminate].
  intros [= <- <-].
  change (String d (of_chars ds)) with (of_chars (d :: ds)).
  rewrite !list_ascii_of_string_of_list_ascii.
  destruct (span_app _ _ _ _ E1) as [-> Hws].
  destruct (span_app _ _ _ _ E2) as [-> Hds].
  destruct (span_app _ _ _ _ E3) as [-> Hseps].
  destruct (seps_then_text_sound _ _ _ E4) as (kept & back & Ek & Hk & Hd).
  rewrite rev_involutive in Ek. subst seps.
  destruct (dot_plus_end_sound _ _ Hd) as (Hr & Hdot & Ht).
  rewrite forallb_app in Hseps. apply andb_prop in Hseps as [Hkept _].
  exists kept.
  assert (Hne : d :: ds <> []) by discriminate.
  destruct Ht as [Ht|Ht].
  - exists ws, []. subst r. rewrite app_nil_r, <- !app_assoc.
    split; [reflexivity|]. repeat (split; [assumption|]). now left.
  - exists ws, [LF].
    split; [|repeat (split; [assumption|]); now right].
    do 2 f_equal. rewrite <- Ht. symmetry. apply app_assoc.
Qed.

Lemma re_match_complete line g1 seps g2 :
  matches_pattern (chars line) g1 seps g2 ->
  exists g2', re_match line = Some (of_chars g1, g2').
Proof.
  intros (ws & tail & E & Hws & Hg1 & Hd & Hs & Hsep & Hg2 & Hdot & Ht).
  unfold re_match. rewrite E.
  rewrite (span_all is_space ws _ Hws).
  2:{ destruct g1 as [|c g1]; [congruence|]. cbn in *.
      apply andb_prop in Hd as [Hd _]. now apply digit_not_space. }
  rewrite (span_all is_digit g1 _ Hd).
  2:{ destruct seps as [|c seps]; [congruence|]. cbn in *.
      apply andb_prop in Hsep as [Hsep _]. now apply sep_not_digit. }
  destruct g1 as [|c g1]; [congruence|].
  destruct (span_prefix is_sep seps (g2 ++ tail) Hsep) as (a' & b' & -> & Eb & Ha').
  destruct (seps_then_text_complete seps a' b' g2 Hs) as [r' Hr'].
  - rewrite <- Eb. now apply dot_plus_end_complete.
  - rewrite Hr'. eauto.
Qed.

(* --------------------------------------------------------------------- *)
(** ** Retries *)
(* --------------------------------------------------------------------- *)

Lemma after_0 w : after w 0 [] = w.
Proof. destruct w. unfold after. cbn. now rewrite Nat.add_0_r, app_nil_r. Qed.

Lemma after_after w k1 d1 k2 d2 :
  after (after w k1 d1) k2 d2 = after w (k1 + k2) (d1 ++ d2).
Proof. unfold after. cbn. now rewrite Nat.add_assoc, app_assoc. Qed.

Lemma delay_nonneg base k : (0 <= base)%Q -> Qltb (delay base k) 0 = false.
Proof.
  intros H. apply Qltb_false_nonneg. unfold delay.
  apply Qmult_le_0_compat; [exact H|].
  change 0%Q with (inject_Z 0). rewrite <- Zle_Qle. apply Z.pow_nonneg. lia.
Qed.

Section Retry.
Variable create : nat -> string -> string -> api_outcome.
Variables (texts : list string) (model : string) (max_retries : nat).
Variables (base : Q) (input_text : string).
Hypothesis base_nonneg : (0 <= base)%Q.

Local Abbreviation attempt := (attempt_outcome create model input_text).
Local Abbreviation loop :=
  (attempt_loop create texts model max_retries base input_text).
Local Abbreviation last_error := (last_after create model input_text).

Lemma messages_create_run w content :
  messages_create create model content w =
  (Ok (create (w_api_calls w) model content), after w 1 []).
Proof.
  unfold messages_create, after. now rewrite Nat.add_1_r, app_nil_r.
Qed.

Lemma sleep_run w k :
  sleep (delay base k) w = (Ok tt, after w 0 [delay base k]).
Proof.
  unfold sleep. rewrite (delay_nonneg base k base_nonneg).
  unfold after. now rewrite Nat.add_0_r.
Qed.

(** A failed attempt that is followed by another one. *)
Lemma loop_retry w a rest last e :
  attempt w 0 = Raises e ->
  exn_cls e = RateLimitError \/ exn_cls e = APIError ->
  (a < max_retries - 1)%nat ->
  loop (a :: rest) last w = loop rest (Some e) (after w 1 [delay base a]).
Proof.
  intros Ho Hc Ha. cbn [attempt_loop].
  rewrite (bind_ok _ _ _ _ _ (messages_create_run w _)).
  unfold attempt_outcome in Ho. rewrite Nat.add_0_r in Ho. rewrite Ho.
  fold (delay base a).
  destruct Hc as [Hc|Hc]; rewrite Hc.
  - rewrite (bind_ok _ _ _ _ _ (sleep_run _ a)). now rewrite after_after.
  - apply Nat.ltb_lt in Ha. rewrite Ha.
    rewrite (bind_ok _ _ _ _ _ (sleep_run _ a)). now rewrite after_after.
Qed.

Lemma loop_retries k :
  forall a n last w,
  (a + k < max_retries)%nat ->
  (forall j, (j < k)%nat -> retryable (attempt w j)) ->
  loop (seq a (k + n)) last w =
  loop (seq (a + k) n) (last_error w last k) (after w k (map (delay base) (seq a k))).
Proof.
  induction k as [|k IH]; intros a n last w Ha Hr.
  - cbn. now rewrite Nat.add_0_r, after_0.
  - cbn [Nat.add seq].
    destruct (Hr 0%nat ltac:(lia)) as (e & He & Hc).
    rewrite (loop_retry w a _ last e He Hc ltac:(lia)).
    rewrite (IH (S a) n (Some e) (after w 1 [delay base a])); [|lia|].
    + rewrite after_after. cbn [map app Nat.add].
      replace (S (a + k))%nat with (a + S k)%nat by lia.
      assert (El : last_error (after w 1 [delay base a]) (Some e) k =
                   last_error w last (S k)).
      { destruct k as [|k']; cbn [last_after]; [now rewrite He|].
        unfold attempt_outcome, after. cbn [w_api_calls].
        now replace (w_api_calls w + 1 + k')%nat with (w_api_calls w + S k')%nat by lia. }
      now rewrite El.
    + intros j Hj. specialize (Hr (S j) ltac:(lia)).
      unfold attempt_outcome, after in *. cbn [w_api_calls].
      now replace (w_api_calls w + 1 + j)%nat with (w_api_calls w + S j)%nat by lia.
Qed.

Lemma loop_returns w a rest last resp :
  attempt w 0 = Returns resp ->
  loop (a :: rest) last w =
  (Ok (parse_numbered_response resp (length texts)), after w 1 []).
Proof.
  intros Ho. cbn [attempt_loop].
  rewrite (bind_ok _ _ _ _ _ (messages_create_run w _)).
  unfold attempt_outcome in Ho. rewrite Nat.add_0_r in Ho. now rewrite Ho.
Qed.

Lemma loop_fatal w a rest last e :
  attempt w 0 = Raises e ->
  exn_cls e <> RateLimitError -> exn_cls e <> APIError ->
  loop (a :: rest) last w = (Raise e, after w 1 []).
Proof.
  intros Ho H1 H2. cbn [attempt_loop].
  rewrite (bind_ok _ _ _ _ _ (messages_create_run w _)).
  unfold attempt_outcome in Ho. rewrite Nat.add_0_r in Ho. rewrite Ho.
  destruct (exn_cls e) eqn:E; try congruence; reflexivity.
Qed.

Lemma loop_last_rate_limit w a last e :
  attempt w 0 = Raises e -> exn_cls e = RateLimitError ->
  loop [a] last w = (Raise (exhausted_error max_retries e), after w 1 [delay base a]).
Proof.
  intros Ho Hc. cbn [attempt_loop].
  rewrite (bind_ok _ _ _ _ _ (messages_create_run w _)).
  unfold attempt_outcome in Ho. rewrite Nat.add_0_r in Ho. rewrite Ho, Hc.
  fold (delay base a).
  rewrite (bind_ok _ _ _ _ _ (sleep_run _ a)). now rewrite after_after.
Qed.

Lemma loop_last_api_error w a rest last e :
  attempt w 0 = Raises e -> exn_cls e = APIError ->
  ~ (a < max_retries - 1)%nat ->
  loop (a :: rest) last w = (Raise (api_error e), after w 1 []).
Proof.
  intros Ho Hc Ha. cbn [attempt_loop].
  rewrite (bind_ok _ _ _ _ _ (messages_create_run w _)).
  unfold attempt_outcome in Ho. rewrite Nat.add_0_r in Ho. rewrite Ho, Hc.
  apply Nat.ltb_nlt in Ha. now rewrite Ha.
Qed.

Lemma attempt_after w k d j : attempt (after w k d) j = attempt w (k + j).
Proof. unfold attempt_outcome, after. cbn [w_api_calls]. now rewrite Nat.add_assoc. Qed.

(** The outcome of the loop when the attempts before [k] fail with
    retryable errors. *)
Lemma loop_outcome w k :
  (k < max_retries)%nat ->
  (forall j, (j < k)%nat -> retryable (attempt w j)) ->
  loop (seq 0 max_retries) None w =
  match attempt w k with
  | Returns resp =>
      (Ok (parse_numbered_response resp (length texts)),
       after w (S k) (backoff base k))
  | Raises e =>
      match exn_cls e with
      | RateLimitError =>
          if (S k =? max_retries)%nat
          then (Raise (exhausted_error max_retries e), after w (S k) (backoff base (S k)))
          else loop (seq (S k) (max_retries - S k)) (Some e)
                 (after w (S k) (backoff base (S k)))
      | APIError =>
          if (S k =? max_retries)%nat
          then (Raise (api_error e), after w (S k) (backoff base k))
          else loop (seq (S k) (max_retries - S k)) (Some e)
                 (after w (S k) (backoff base (S k)))
      | _ => (Raise e, after w (S k) (backoff base k))
      end
  end.
Proof.
  intros Hk Hr.
  replace (seq 0 max_retries) with (seq 0 (k + S (max_retries - S k)))
    by (f_equal; lia).
  rewrite (loop_retries k 0 _ None w ltac:(lia) Hr). cbn [Nat.add seq].
  fold (backoff base k).
  set (wk := after w k (backoff base k)).
  assert (Ea : attempt wk 0 = attempt w k).
  { unfold wk. now rewrite attempt_after, Nat.add_0_r. }
  assert (Ew : forall d, after wk 1 d = after w (S k) (backoff base k ++ d)).
  { intros d. unfold wk. rewrite after_after. now rewrite Nat.add_1_r. }
  assert (Eb : backoff base k ++ [delay base k] = backoff base (S k)).
  { unfold backoff. now rewrite seq_S, map_app. }
  destruct (attempt w k) as [resp|e] eqn:Eo.
  - rewrite (loop_returns wk k _ _ resp Ea), Ew. now rewrite app_nil_r.
  - destruct (exn_cls e) eqn:Ec;
      try (rewrite (loop_fatal wk k _ _ e Ea ltac:(congruence) ltac:(congruence)),
             Ew; now rewrite app_nil_r).
    + destruct (Nat.eqb_spec (S k) max_retries) as [E|E].
      * replace (max_retries - S k)%nat with 0%nat by lia. cbn [seq].
        rewrite (loop_last_rate_limit wk k _ e Ea Ec), Ew. now rewrite Eb.
      * rewrite (loop_retry wk k _ _ e Ea (or_introl Ec) ltac:(lia)), Ew.
        now rewrite Eb.
    + destruct (Nat.eqb_spec (S k) max_retries) as [E|E].
      * rewrite (loop_last_api_error wk k _ _ e Ea Ec ltac:(lia)), Ew.
        now rewrite app_nil_r.
      * rewrite (loop_retry wk k _ _ e Ea (or_intror Ec) ltac:(lia)), Ew.
        now rewrite Eb.
Qed.

End Retry.

(* --------------------------------------------------------------------- *)
(** ** Translation of the segments *)
(* --------------------------------------------------------------------- *)

Lemma wp_bind {A B} (m : M A) (f : A -> M B) w Q :
  wp m w (fun r w1 => match r with
                      | Ok a => wp (f a) w1 Q
                      | Raise e => Q (Raise e) w1
                      end) ->
  wp (m ≫= f) w Q.
Proof.
  unfold wp, mbind, M_bind. destruct (m w) as [[a|e] w1]; cbn; auto.
Qed.

Lemma wp_ok {A} (m : M A) w a w' (Q : result A -> world -> Prop) :
  m w = (Ok a, w') -> Q (Ok a) w' -> wp m w Q.
Proof. unfold wp. now intros ->. Qed.

Lemma wp_mono {A} (m : M A) w (Q Q' : result A -> world -> Prop) :
  (forall r w', Q r w' -> Q' r w') -> wp m w Q -> wp m w Q'.
Proof. unfold wp. auto. Qed.

(** A loop with an invariant [Inv] on the number of elements done, the
    local variables and the world; [Err] holds when the body raises. *)
Lemma wp_for_each {A S} (l : list A) (body : S -> A -> M S)
  (Inv : nat -> S -> world -> Prop) (Err : world -> Prop) :
  (forall i x s w, l !! i = Some x -> Inv i s w ->
     wp (body s x) w (fun r w' => match r with
                                  | Ok s' => Inv (Datatypes.S i) s' w'
                                  | Raise _ => Err w'
                                  end)) ->
  forall s w, Inv 0%nat s w ->
  wp (for_each l body s) w (fun r w' => match r with
                                        | Ok s' => Inv (length l) s' w'
                                        | Raise _ => Err w'
                                        end).
Proof.
  revert Inv. induction l as [|x l IH]; intros Inv Hbody s w H0.
  - exact H0.
  - cbn [for_each]. apply wp_bind.
    eapply wp_mono; [|apply (Hbody 0%nat x s w eq_refl H0)].
    intros [s'|e] w'; [|auto]. intros H1.
    apply (IH (fun i => Inv (Datatypes.S i))); [|exact H1].
    intros i y s0 w0 Hi. apply (Hbody (Datatypes.S i)). exact Hi.
Qed.

Section Translate.
Variable create : nat -> string -> string -> api_outcome.
Variable anthropic_installed : bool.

Lemma attempt_loop_post texts model max_retries base input attempts :
  forall last w,
  wp (attempt_loop create texts model max_retries base input attempts last) w
     (fun r w' => batch_post w texts r w' /\
                  (responsive create -> attempts <> [] -> is_ok r = true)).
Proof.
  induction attempts as [|a attempts IH]; intros last w.
  - unfold wp, batch_post. cbn. split; [split; [reflexivity|discriminate]|].
    intros _ H. congruence.
  - cbn [attempt_loop]. apply wp_bind.
    eapply wp_ok; [apply (messages_create_run create)|].
    set (w1 := after w 1 []).
    assert (Hh : w_heap w1 = w_heap w) by reflexivity.
    destruct (create (w_api_calls w) model (TRANSLATION_PROMPT input)) as [resp|e] eqn:Eo.
    + unfold wp, batch_post. cbn. split; [split; [reflexivity|]|reflexivity].
      intros trs [= <-]. apply parse_numbered_response_length.
    + assert (Hresp : responsive create -> False).
      { intros Hr. destruct (Hr (w_api_calls w) model (TRANSLATION_PROMPT input)).
        congruence. }
      assert (Hsleep : forall q (k : M (list string)),
        (forall w2, w_heap w2 = w_heap w ->
           wp k w2 (fun r w' => batch_post w2 texts r w' /\
                     (responsive create -> attempts <> [] -> is_ok r = true))) ->
        wp (sleep q;; k) w1
          (fun r w' => batch_post w texts r w' /\
                       (responsive create -> a :: attempts <> [] -> is_ok r = true))).
      { intros q k Hk. apply wp_bind. unfold wp at 1, sleep.
        destruct (Qltb q 0); cbn.
        - unfold batch_post. split; [split; [exact Hh|discriminate]|].
          intros Hr. now destruct (Hresp Hr).
        - eapply wp_mono; [|apply Hk; reflexivity].
          intros r w' [[H1 H2] _]. split; [split; [now rewrite H1|exact H2]|].
          intros Hr. now destruct (Hresp Hr). }
      assert (Hraise : forall e', wp (raise e' : M (list string)) w1
          (fun r w' => batch_post w texts r w' /\
                       (responsive create -> a :: attempts <> [] -> is_ok r = true))).
      { intros e'. unfold wp, batch_post. cbn. split; [split; [exact Hh|discriminate]|].
        intros Hr. now destruct (Hresp Hr). }
      destruct (exn_cls e); try apply Hraise.
      * apply Hsleep. intros w2 _. apply IH.
      * destruct (a <? max_retries - 1)%nat; [|apply Hraise].
        apply Hsleep. intros w2 _. apply IH.
Qed.

Lemma translate_batch_post texts api_key model max_retries base w :
  wp (translate_batch create anthropic_installed texts api_key model max_retries base) w
     (fun r w' => batch_post w texts r w' /\
        (responsive create -> api_key <> "" -> anthropic_installed = true ->
         (0 < max_retries)%nat -> is_ok r = true)).
Proof.
  unfold translate_batch. destruct texts as [|t0 texts0] eqn:Et.
  - unfold wp, batch_post. cbn. split; [split; [reflexivity|]|reflexivity].
    now intros trs [= <-].
  - cbn [list_empty]. rewrite <- Et. clear Et.
    destruct api_key as [|c key].
    + unfold wp, batch_post. cbn. split; [split; [reflexivity|discriminate]|].
      intros _ H. congruence.
    + cbn [str_empty]. destruct anthropic_installed.
      * cbn [negb]. eapply wp_mono; [|apply attempt_loop_post].
        cbn. intros r w' [H1 H2]. split; [exact H1|].
        intros Hr _ _ Hm. apply H2; [exact Hr|].
        destruct max_retries; [lia|discriminate].
      * unfold wp, batch_post. cbn. split; [split; [reflexivity|discriminate]|].
        intros _ _ H. discriminate.
Qed.

Lemma attach_body_run w ext acc l d t :
  w_heap w !! l = Some d ->
  attach_body acc (l, t) (extend w ext) =
  (Ok (acc ++ [(length (w_heap w) + length ext)%nat]), extend w (ext ++ [set_tr d t])).
Proof.
  intros Hl. unfold attach_body.
  rewrite (bind_ok _ _ _ _ _ (dict_copy_ok _ _ _ (extend_lookup w ext _ _ Hl))).
  rewrite extend_extend, extend_heap, length_app.
  rewrite (bind_ok _ _ _ _ _ (setitem_ok k_translation _ _ _ t (lookup_last w ext d))).
  now rewrite set_last.
Qed.

Lemma attach_loop w ls ds :
  refers w ls ds ->
  forall trs, length trs = length ls ->
  forall ext acc,
  for_each (zip ls trs) attach_body acc (extend w ext) =
  (Ok (acc ++ seq (length (w_heap w) + length ext) (length ls)),
   extend w (ext ++ zip_with set_tr ds trs)).
Proof.
  induction 1 as [|l d ls ds Hl _ IH]; intros trs Hlen ext acc.
  - cbn. now rewrite !app_nil_r.
  - destruct trs as [|t trs]; [discriminate|]. cbn [zip zip_with for_each].
    rewrite (bind_ok _ _ _ _ _ (attach_body_run w ext acc l d t Hl)).
    rewrite (IH trs ltac:(cbn in Hlen; lia)).
    cbn [length seq]. rewrite length_app, <- !app_assoc. cbn [length app].
    replace (length (w_heap w) + (length ext + 1))%nat
      with (S (length (w_heap w) + length ext)) by lia.
    reflexivity.
Qed.

Lemma texts_read w ls ds :
  refers w ls ds -> Forall has_text ds ->
  comprehension (getitem k_text) ls w = (Ok (map text_of ds), w).
Proof.
  intros Href Hok.
  induction Href as [|l d ls ds Hl _ IH]; [reflexivity|].
  inversion Hok as [|? ? [t Ht] Hok']; subst. cbn [comprehension map].
  rewrite (bind_ok _ _ _ _ _ (getitem_ok k_text _ _ _ _ Hl Ht)).
  rewrite (bind_ok _ _ _ _ _ (IH Hok')).
  unfold text_of. now rewrite Ht.
Qed.

Lemma batch_body_post segments api_key batch_size model max_retries cb total acc i w ds :
  refers w (slice segments i (i + Z.to_nat batch_size)) ds ->
  Forall has_text ds ->
  wp (batch_body create anthropic_installed segments api_key batch_size model
        max_retries cb total acc i) w
     (fun r w' =>
        (exists ext, w_heap w' = w_heap w ++ ext) /\
        (forall acc', r = Ok acc' ->
           exists trs, length trs = length ds /\
             w_heap w' = w_heap w ++ zip_with set_tr ds trs /\
             acc' = acc ++ seq (length (w_heap w)) (length ds)) /\
        (good_env create anthropic_installed api_key max_retries -> is_ok r = true)).
Proof.
  intros Href Hok. unfold batch_body.
  set (batch := slice segments i (i + Z.to_nat batch_size)) in *.
  apply wp_bind. eapply wp_ok; [apply (texts_read _ _ _ Href Hok)|].
  apply wp_bind. eapply wp_mono; [|apply translate_batch_post].
  intros [trs|e] w1 [[Hh Hl] Hg].
  - specialize (Hl trs eq_refl). rewrite length_map in Hl.
    assert (Href1 : refers w1 batch ds).
    { unfold refers in *. now rewrite Hh. }
    pose proof (attach_loop w1 batch ds Href1 trs) as Hat.
    rewrite (Forall2_length _ _ _ Href) in Hat. specialize (Hat Hl [] acc).
    rewrite extend_nil in Hat. cbn [length app] in Hat.
    rewrite Nat.add_0_r, Hh in Hat.
    apply wp_bind. eapply wp_ok; [exact Hat|].
    assert (Hfin : forall w2, w_heap w2 = w_heap w ++ zip_with set_tr ds trs ->
      wp (mret (acc ++ seq (length (w_heap w)) (length ds)) : M (list loc)) w2
        (fun r w' =>
          (exists ext, w_heap w' = w_heap w ++ ext) /\
          (forall acc', r = Ok acc' ->
             exists trs, length trs = length ds /\
               w_heap w' = w_heap w ++ zip_with set_tr ds trs /\
               acc' = acc ++ seq (length (w_heap w)) (length ds)) /\
          (good_env create anthropic_installed api_key max_retries -> is_ok r = true))).
    { intros w2 Hw2. unfold wp. cbn. split; [eauto|]. split; [|reflexivity].
      intros acc' [= <-]. exists trs. auto. }
    apply wp_bind. destruct cb.
    + eapply wp_ok; [reflexivity|]. apply Hfin. cbn. now rewrite Hh.
    + eapply wp_ok; [reflexivity|]. apply Hfin. cbn. now rewrite Hh.
  - split; [exists []; now rewrite app_nil_r|]. split; [discriminate|].
    intros (H1 & H2 & H3 & H4). now apply Hg.
Qed.

Lemma ceil_div_covers (total n : nat) :
  (0 < n)%nat -> (total <= (total + n - 1) / n * n)%nat.
Proof.
  intros Hn.
  pose proof (Nat.div_mod (total + n - 1) n ltac:(lia)) as H.
  pose proof (Nat.mod_upper_bound (total + n - 1) n ltac:(lia)) as H'.
  nia.
Qed.

Lemma range_step_lookup (n nb i x : nat) :
  map (fun k => k * n)%nat (seq 0 nb) !! i = Some x -> x = (i * n)%nat.
Proof.
  rewrite list_lookup_fmap. intros H.
  destruct (seq 0 nb !! i) as [k|] eqn:E; [|discriminate].
  apply lookup_seq in E as [-> _]. cbn in H. now inversion H.
Qed.

Lemma translate_segments_post segments api_key batch_size model max_retries cb w ds :
  refers w segments ds -> Forall has_text ds ->
  wp (translate_segments create anthropic_installed segments api_key
        batch_size model max_retries cb) w
     (translate_post create anthropic_installed w segments ds api_key batch_size
        max_retries).
Proof.
  intros Href Hok. unfold translate_segments.
  pose proof (Forall2_length _ _ _ Href) as Hlen.
  destruct segments as [|l0 ls0] eqn:E.
  - inversion Href; subst. unfold wp, translate_post. cbn.
    split; [exists []; now rewrite app_nil_r|]. split; [|reflexivity].
    intros out [= <-] _. exists []. now rewrite app_nil_r.
  - cbn [list_empty]. rewrite <- E in *. clear E l0 ls0.
    apply wp_bind. unfold range_step.
    destruct batch_size as [|p|p] eqn:Eb.
    + unfold wp, translate_post. cbn.
      split; [exists []; now rewrite app_nil_r|]. split; [discriminate|]. lia.
    + eapply wp_ok; [reflexivity|].
      set (n := Pos.to_nat p). set (nb := ((length segments + n - 1) / n)%nat).
      assert (Hn : (0 < n)%nat) by (unfold n; lia).
      set (h0 := w_heap w).
      eapply wp_mono.
      2:{ apply (wp_for_each _ _
            (fun k acc w1 =>
               exists trs, length trs = length (take (k * n) ds) /\
                 w_heap w1 = h0 ++ zip_with set_tr (take (k * n) ds) trs /\
                 acc = seq (length h0) (length (take (k * n) ds)))
            (fun w1 => (exists ext, w_heap w1 = h0 ++ ext) /\
                       ~ good_env create anthropic_installed api_key max_retries)).
          - intros i x acc w1 Hx (trs & Htl & Hh & Hacc).
            apply range_step_lookup in Hx. subst x.
            set (bds := take n (drop (i * n) ds)).
            assert (Hb : refers w1 (slice segments (i * n) (i * n + Z.to_nat (Z.pos p))) bds).
            { unfold slice, refers, bds.
              replace (i * n + Z.to_nat (Z.pos p) - i * n)%nat with n by (unfold n; lia).
              apply Forall2_take, Forall2_drop.
              eapply Forall2_impl; [exact Href|].
              intros l d Hl. rewrite Hh. now apply lookup_app_l_Some. }
            assert (Hbt : Forall has_text bds).
            { unfold bds. now apply Forall_take, Forall_drop. }
            eapply wp_mono; [|apply (batch_body_post _ _ _ _ _ _ _ _ _ _ _ Hb Hbt)].
            intros [acc'|e] w2 (Hext & Hres & Hgood).
            + destruct (Hres acc' eq_refl) as (trs' & Hl' & Hh' & ->).
              exists (trs ++ trs').
              assert (Et : take (S i * n) ds = take (i * n) ds ++ bds).
              { unfold bds. rewrite take_take_drop. f_equal. lia. }
              rewrite Et. split; [|split].
              * rewrite !length_app. lia.
              * rewrite Hh', Hh, <- app_assoc. f_equal.
                symmetry. apply zip_with_app. lia.
              * subst acc. rewrite Hh, !length_app, length_zip_with.
                rewrite Htl, Nat.min_id. now rewrite seq_app.
            + split.
              * destruct Hext as [ext ->]. rewrite Hh, <- app_assoc. eauto.
              * intros Hg. specialize (Hgood Hg). discriminate.
          - exists []. cbn. now rewrite app_nil_r. }
      intros r w' Hpost. unfold translate_post. fold h0.
      destruct r as [out|e].
      * destruct Hpost as (trs & Htl & Hh & ->).
        rewrite length_map, length_seq in *. fold nb in Htl, Hh |- *.
        assert (Hall : take (nb * n) ds = ds).
        { apply take_ge. rewrite <- Hlen. unfold nb. now apply ceil_div_covers. }
        rewrite Hall in *. split; [eauto|]. split; [|reflexivity].
        intros out [= <-] _. exists trs. rewrite Hlen. auto.
      * destruct Hpost as [Hext Hng]. split; [exact Hext|].
        split; [discriminate|]. intros Hg. now destruct (Hng Hg).
    + eapply wp_ok; [reflexivity|]. unfold wp, translate_post. cbn.
      split; [exists []; now rewrite app_nil_r|]. split; [|lia]. intros ? ?. lia.
Qed.

End Translate.

(* --------------------------------------------------------------------- *)
(** ** Fresh references *)
(* --------------------------------------------------------------------- *)

Lemma refers_fresh w cues :
  refers (extend w cues) (seq (length (w_heap w)) (length cues)) cues.
Proof.
  unfold refers. apply Forall2_same_length_lookup. split.
  - now rewrite length_seq.
  - intros i l d Hl Hd. apply lookup_seq in Hl as [-> Hi].
    rewrite extend_heap, lookup_app_r by lia.
    now replace (length (w_heap w) + i - length (w_heap w))%nat with i by lia.
Qed.

Lemma seq_fresh (n len : nat) : Forall (fun l => (n <= l)%nat) (seq n len).
Proof.
  apply Forall_forall. intros l Hl. apply list_elem_of_In, in_seq in Hl. lia.
Qed.

Lemma extend_keeps w ext l d :
  w_heap w !! l = Some d -> w_heap (extend w ext) !! l = Some d.
Proof. apply extend_lookup. Qed.

(* --------------------------------------------------------------------- *)
(** ** Whole seconds *)
(* --------------------------------------------------------------------- *)

Lemma Qfloor_sub_int (t : Q) (z : Z) : Qfloor (t - inject_Z z) = (Qfloor t - z)%Z.
Proof.
  pose proof (Qfloor_le t) as H1. pose proof (Qlt_floor t) as H2.
  rewrite inject_Z_plus in H2. change (inject_Z 1) with 1%Q in H2.
  apply Qfloor_unique.
  - unfold Z.sub. rewrite inject_Z_plus, inject_Z_opp. lra.
  - replace (Qfloor t - z + 1)%Z with (Qfloor t + 1 + - z)%Z by lia.
    rewrite !inject_Z_plus, inject_Z_opp. change (inject_Z 1) with 1%Q. lra.
Qed.

Lemma Qfloor_div_int (t : Q) (k : Z) :
  (0 < k)%Z -> Qfloor (t / inject_Z k) = (Qfloor t / k)%Z.
Proof.
  intros Hk.
  pose proof (Qfloor_le t) as H1. pose proof (Qlt_floor t) as H2.
  rewrite inject_Z_plus in H2. change (inject_Z 1) with 1%Q in H2.
  set (n := Qfloor t) in *.
  pose proof (Z.div_mod n k ltac:(lia)) as E.
  pose proof (Z.mod_pos_bound n k Hk) as B.
  assert (Hk' : (0 < inject_Z k)%Q).
  { change 0%Q with (inject_Z 0). now rewrite <- Zlt_Qlt. }
  assert (En : (inject_Z n == inject_Z k * inject_Z (n / k) + inject_Z (n mod k))%Q).
  { rewrite <- inject_Z_mult, <- inject_Z_plus. now rewrite <- E. }
  assert (B1 : (0 <= inject_Z (n mod k))%Q).
  { change 0%Q with (inject_Z 0). rewrite <- Zle_Qle. lia. }
  assert (B2 : (inject_Z (n mod k) + 1 <= inject_Z k)%Q).
  { change 1%Q with (inject_Z 1). rewrite <- inject_Z_plus, <- Zle_Qle. lia. }
  apply Qfloor_unique.
  - apply Qle_shift_div_l; [exact Hk'|]. lra.
  - apply Qlt_shift_div_r; [exact Hk'|].
    rewrite inject_Z_plus. change (inject_Z 1) with 1%Q. lra.
Qed.

Lemma int_of_float_floor (x : Q) : (0 <= x)%Q -> int_of_float x = Qfloor x.
Proof.
  destruct x as [a b]. unfold Qle, int_of_float, Qfloor. cbn. intros H.
  apply Z.quot_div_nonneg; lia.
Qed.

(** The fields [seconds_to_ass_time] and [format_duration] compute from a
    time that is not negative, in terms of its whole seconds. *)
Lemma hours_field (t : Q) :
  float_floordiv t 3600 = inject_Z (Qfloor t / 3600).
Proof.
  unfold float_floordiv. change 3600%Q with (inject_Z 3600).
  now rewrite Qfloor_div_int by lia.
Qed.

Lemma minutes_field (t : Q) :
  float_floordiv (float_mod t 3600) 60 = inject_Z (Qfloor t mod 3600 / 60).
Proof.
  unfold float_floordiv, float_mod.
  change 60%Q with (inject_Z 60). rewrite Qfloor_div_int by lia.
  change 3600%Q with (inject_Z 3600). rewrite (Qfloor_div_int t 3600) by lia.
  rewrite <- inject_Z_mult, Qfloor_sub_int.
  now rewrite Z.mod_eq by lia.
Qed.

Lemma seconds_field (t : Q) :
  float_mod t 60 = (t - 60 * inject_Z (Qfloor t / 60))%Q.
Proof.
  unfold float_mod. change 60%Q with (inject_Z 60) at 2.
  now rewrite Qfloor_div_int by lia.
Qed.

Lemma seconds_field_floor (t : Q) :
  Qfloor (float_mod t 60) = (Qfloor t mod 60)%Z.
Proof.
  rewrite seconds_field. change 60%Q with (inject_Z 60).
  rewrite <- inject_Z_mult, Qfloor_sub_int.
  now rewrite Z.mod_eq by lia.
Qed.

Lemma clamp_nonneg t : (0 <= clamp t)%Q.
Proof.
  unfold clamp. destruct (Qltb t 0) eqn:E; [lra|]. now apply Qltb_ge in E.
Qed.

Lemma clamp_floor t : Qfloor (clamp t) = whole_seconds t.
Proof.
  unfold clamp, whole_seconds. destruct (Qltb t 0) eqn:E.
  - apply Qltb_lt in E.
    assert (Qfloor t < 0)%Z.
    { rewrite Zlt_Qlt. eapply Qle_lt_trans; [apply Qfloor_le|exact E]. }
    change (Qfloor 0) with 0%Z. lia.
  - apply Qltb_ge in E.
    assert (0 <= Qfloor t)%Z.
    { rewrite <- (Qfloor_Z 0). now apply Qfloor_resp_le. }
    lia.
Qed.

Lemma whole_seconds_nonneg t : (0 <= whole_seconds t)%Z.
Proof. unfold whole_seconds. lia. Qed.

(* --------------------------------------------------------------------- *)
(** ** Rounding to hundredths *)
(* --------------------------------------------------------------------- *)

Lemma round_half_even_eq (q q' : Q) :
  (q == q')%Q -> round_half_even q = round_half_even q'.
Proof.
  intros E. unfold round_half_even. cbv zeta.
  assert (Ef : Qfloor q' = Qfloor q) by now rewrite E.
  rewrite Ef.
  assert (Ec : (q' - inject_Z (Qfloor q) ?= 1 # 2)%Q
               = (q - inject_Z (Qfloor q) ?= 1 # 2)%Q).
  { apply Qcompare_comp; [lra | reflexivity]. }
  now rewrite Ec.
Qed.

Lemma Qfloor_add_int (t : Q) (z : Z) : Qfloor (t + inject_Z z) = (Qfloor t + z)%Z.
Proof.
  assert (E : (t + inject_Z z == t - inject_Z (- z))%Q).
  { rewrite inject_Z_opp. lra. }
  rewrite E, Qfloor_sub_int. lia.
Qed.

Lemma round_half_even_add_even (q : Q) (k : Z) :
  round_half_even (q + inject_Z (2 * k)) = (round_half_even q + 2 * k)%Z.
Proof.
  unfold round_half_even. cbv zeta. rewrite Qfloor_add_int.
  assert (E : (q + inject_Z (2 * k) - inject_Z (Qfloor q + 2 * k)
               == q - inject_Z (Qfloor q))%Q).
  { rewrite !inject_Z_plus. lra. }
  assert (Ec : (q + inject_Z (2 * k) - inject_Z (Qfloor q + 2 * k) ?= 1 # 2)%Q
               = (q - inject_Z (Qfloor q) ?= 1 # 2)%Q).
  { apply Qcompare_comp; [exact E | reflexivity]. }
  rewrite Ec.
  assert (Ev : Z.even (Qfloor q + 2 * k) = Z.even (Qfloor q)).
  { rewrite Z.even_add, Z.even_mul. cbn. now destruct (Z.even (Qfloor q)). }
  rewrite Ev.
  destruct (q - inject_Z (Qfloor q) ?= 1 # 2)%Q; [destruct (Z.even (Qfloor q))| |]; lia.
Qed.

Lemma round_half_even_mono (q q' : Q) :
  (q <= q')%Q -> (round_half_even q <= round_half_even q')%Z.
Proof.
  intros H.
  assert (F : (Qfloor q <= Qfloor q')%Z) by now apply Qfloor_resp_le.
  destruct (Z.eq_dec (Qfloor q) (Qfloor q')) as [E|N].
  - unfold round_half_even. cbv zeta. rewrite <- E.
    destruct (Qcompare_spec (q - inject_Z (Qfloor q)) (1 # 2)) as [A|A|A];
    destruct (Qcompare_spec (q' - inject_Z (Qfloor q)) (1 # 2)) as [B|B|B];
    try destruct (Z.even (Qfloor q)); try lia; lra.
  - pose proof (round_half_even_mono_int q (Qfloor q) (Qfloor q + 1)) as A.
    pose proof (round_half_even_mono_int q' (Qfloor q') (Qfloor q' + 1)) as B.
    pose proof (Qfloor_le q). pose proof (Qlt_floor q).
    pose proof (Qfloor_le q'). pose proof (Qlt_floor q').
    specialize (A ltac:(lra) ltac:(lra)). specialize (B ltac:(lra) ltac:(lra)).
    lia.
Qed.

(* --------------------------------------------------------------------- *)
(** ** The timestamp of any time *)
(* --------------------------------------------------------------------- *)

Lemma seconds_to_ass_time_clamp t :
  seconds_to_ass_time t = seconds_to_ass_time (clamp t).
Proof.
  unfold seconds_to_ass_time. fold (clamp t).
  now rewrite (Qltb_false_nonneg _ (clamp_nonneg t)).
Qed.

Lemma centis_range t :
  (0 <= round_half_even (float_mod t 60 * 100) <= 6000)%Z.
Proof.
  destruct (float_mod_range t 60 ltac:(lra)) as [Hs1 Hs2].
  apply round_half_even_mono_int;
    change (inject_Z 0) with 0%Q; change (inject_Z 6000) with 6000%Q; lra.
Qed.

Lemma seconds_to_ass_time_whole t :
  (0 <= t)%Q ->
  seconds_to_ass_time t =
  str_of_N (Z.to_N (Qfloor t / 3600))
  +:+ String ":" (format_0d 2 (Qfloor t mod 3600 / 60)
  +:+ String ":" (secs_field (Z.abs_N (round_half_even (float_mod t 60 * 100))))).
Proof.
  intros Ht. unfold seconds_to_ass_time. rewrite (Qltb_false_nonneg _ Ht).
  rewrite hours_field, minutes_field, !int_of_float_inject.
  destruct (float_mod_range t 60 ltac:(lra)) as [Hs1 Hs2].
  unfold format_0_2f.
  rewrite (round_half_even_eq (Qabs (float_mod t 60) * 100) (float_mod t 60 * 100))
    by (rewrite Qabs_pos by exact Hs1; reflexivity).
  assert (Qle_bool 0 (float_mod t 60) = true) as -> by now apply Qle_bool_iff.
  assert (Hh : (0 <= Qfloor t / 3600)%Z).
  { apply Z.div_pos; [|lia]. rewrite <- (Qfloor_Z 0). now apply Qfloor_resp_le. }
  destruct (Qfloor t / 3600)%Z eqn:Eh; try lia; reflexivity.
Qed.

Lemma whole_minutes (n : Z) :
  (n / 3600 * 3600 + n mod 3600 / 60 * 60 = 60 * (n / 60))%Z.
Proof.
  pose proof (Z.div_mod n 3600 ltac:(lia)) as E.
  assert (A : (n / 60 = n / 3600 * 60 + n mod 3600 / 60)%Z).
  { rewrite E at 1. replace (3600 * (n / 3600))%Z with (n / 3600 * 60 * 60)%Z by lia.
    now rewrite Z.div_add_l by lia. }
  lia.
Qed.

Lemma timestamp_value t :
  (0 <= t)%Q ->
  exists q, ass_time_to_seconds (seconds_to_ass_time t) = Ok (PFin q) /\
            (q == inject_Z (round_half_even (t * 100)) / 100)%Q.
Proof.
  intros Ht. rewrite (seconds_to_ass_time_whole t Ht).
  pose proof (centis_range t) as Hz.
  set (n := Qfloor t). set (z := round_half_even (float_mod t 60 * 100)) in *.
  assert (Hn : (0 <= n)%Z).
  { unfold n. rewrite <- (Qfloor_Z 0). now apply Qfloor_resp_le. }
  assert (Hh : (0 <= n / 3600)%Z) by (apply Z.div_pos; lia).
  assert (Hm : (0 <= n mod 3600 / 60 < 60)%Z).
  { pose proof (Z.mod_pos_bound n 3600 ltac:(lia)). split.
    - apply Z.div_pos; lia.
    - apply Z.div_lt_upper_bound; lia. }
  pose proof (secs_field_ok_all (Z.abs_N z) ltac:(lia)) as Hs.
  unfold secs_field_ok in Hs. apply andb_prop in Hs as [Hs1 Hs2].
  pose proof (mins_field_ok_all (Z.to_N (n mod 3600 / 60)) ltac:(lia)) as Hmf.
  unfold mins_field_ok in Hmf. rewrite Z2N.id in Hmf by lia.
  apply andb_prop in Hmf as [Hm1 Hm2].
  rewrite ass_time_to_seconds_fields.
  rewrite (str_split_3 ":" _ _ _ (str_of_N_no_colon _) Hm1 Hs1).
  unfold parse_fields. rewrite py_int_str_of_N, Z2N.id by lia.
  destruct (py_int (format_0d 2 (n mod 3600 / 60))) as [m'|]; [|discriminate].
  apply Z.eqb_eq in Hm2. subst m'.
  destruct (py_float (secs_field (Z.abs_N z))) as [[q| |]|]; try discriminate.
  apply Qeq_bool_eq in Hs2.
  eexists. split; [reflexivity|].
  rewrite Hs2, whole_minutes.
  assert (Et : (t * 100 == float_mod t 60 * 100 + inject_Z (2 * (3000 * (n / 60))))%Q).
  { rewrite seconds_field. fold n. rewrite !inject_Z_mult.
    change (inject_Z 2) with 2%Q. change (inject_Z 3000) with 3000%Q. lra. }
  rewrite (round_half_even_eq _ _ Et), round_half_even_add_even. fold z.
  rewrite N2Z.inj_abs_N, Z.abs_eq by lia.
  rewrite inject_Z_plus, !inject_Z_mult.
  change (inject_Z 2) with 2%Q. change (inject_Z 3000) with 3000%Q.
  change (inject_Z 60) with 60%Q.
  assert (Ez : (z # 100 == inject_Z z / 100)%Q).
  { unfold Qeq, Qdiv, Qmult, Qinv, inject_Z. cbn. lia. }
  rewrite Ez. field.
Qed.

Lemma clamp_mono t1 t2 : (t1 <= t2)%Q -> (clamp t1 <= clamp t2)%Q.
Proof.
  intros H. unfold clamp.
  destruct (Qltb t1 0) eqn:E1, (Qltb t2 0) eqn:E2;
    try apply Qltb_lt in E1; try apply Qltb_lt in E2;
    try apply Qltb_ge in E1; try apply Qltb_ge in E2; lra.
Qed.

Lemma two_digits_all (m : N) :
  (m < 60)%N -> two_digits (format_0d 2 (Z.of_N m)) = true.
Proof.
  intros H.
  apply (forallb_below (fun m => two_digits (format_0d 2 (Z.of_N m))) 60); [|lia].
  vm_compute. reflexivity.
Qed.

Lemma seconds_shape_all (c : N) :
  (c <= 6000)%N -> seconds_shape (secs_field c) = true.
Proof.
  intros H.
  apply (forallb_below (fun c => seconds_shape (secs_field c)) 6001); [|lia].
  vm_compute. reflexivity.
Qed.

(* --------------------------------------------------------------------- *)
(** ** Computations that only read *)
(* --------------------------------------------------------------------- *)

Lemma bind_run {A B} (m : M A) (f : A -> M B) w :
  (m ≫= f) w =
  match m w with
  | (Ok a, w') => f a w'
  | (Raise e, w') => (Raise e, w')
  end.
Proof. reflexivity. Qed.

Lemma read_only_ret {A} (a : A) : read_only (mret a : M A).
Proof. intros w. reflexivity. Qed.

Lemma read_only_raise {A} (e : exn) : read_only (raise e : M A).
Proof. intros w. reflexivity. Qed.

Lemma read_only_bind {A B} (m : M A) (f : A -> M B) :
  read_only m -> (forall a, read_only (f a)) -> read_only (m ≫= f).
Proof.
  intros Hm Hf w. rewrite bind_run. specialize (Hm w).
  destruct (m w) as [[a|e] w1]; cbn in Hm; subst w1; [apply Hf | reflexivity].
Qed.

Lemma read_only_deref l : read_only (deref l).
Proof. intros w. unfold deref. now destruct (w_heap w !! l). Qed.

Lemma read_only_getitem {A} (k : key A) l : read_only (getitem k l).
Proof.
  apply read_only_bind; [apply read_only_deref|]. intros d.
  destruct (key_get k d); [apply read_only_ret | apply read_only_raise].
Qed.

Lemma read_only_dict_get {A} (k : key A) dflt l : read_only (dict_get k dflt l).
Proof.
  apply read_only_bind; [apply read_only_deref|]. intros d. apply read_only_ret.
Qed.

Lemma read_only_for_each {A S} (l : list A) (body : S -> A -> M S) :
  (forall s x, read_only (body s x)) -> forall s, read_only (for_each l body s).
Proof.
  intros Hb. induction l as [|x l IH]; intros s; cbn [for_each].
  - apply read_only_ret.
  - apply read_only_bind; [apply Hb | exact IH].
Qed.

Lemma read_only_comprehension {A B} (f : A -> M B) (l : list A) :
  (forall x, read_only (f x)) -> read_only (comprehension f l).
Proof.
  intros Hf. induction l as [|x l IH]; cbn [comprehension].
  - apply read_only_ret.
  - apply read_only_bind; [apply Hf|]. intros y.
    apply read_only_bind; [exact IH|]. intros ys. apply read_only_ret.
Qed.

Lemma read_only_run {A} (m : M A) w : read_only m -> m w = (fst (m w), w).
Proof. intros H. specialize (H w). destruct (m w) as [r w1]. cbn in *. now subst. Qed.

Lemma for_each_app {A S} (l1 l2 : list A) (body : S -> A -> M S) s w :
  for_each (l1 ++ l2) body s w =
  (s' ← for_each l1 body s; for_each l2 body s') w.
Proof.
  revert s w. induction l1 as [|x l1 IH]; intros s w; cbn [for_each app].
  - reflexivity.
  - rewrite !bind_run.
    destruct (body s x w) as [[s1|e] w1]; [|reflexivity].
    rewrite IH. now rewrite bind_run.
Qed.

(* --------------------------------------------------------------------- *)
(** ** The order of strings *)
(* --------------------------------------------------------------------- *)

Lemma ascii_compare_refl c : Ascii.compare c c = Eq.
Proof. unfold Ascii.compare. apply N.compare_refl. Qed.

Lemma ascii_compare_eq a b : Ascii.compare a b = Eq -> a = b.
Proof.
  unfold Ascii.compare. intros H. apply N.compare_eq in H.
  rewrite <- (ascii_N_embedding a), <- (ascii_N_embedding b). now rewrite H.
Qed.

Lemma str_lt_irrefl a : ~ str_lt a a.
Proof.
  unfold str_lt. induction a as [|c a IH]; cbn; [discriminate|].
  now rewrite ascii_compare_refl.
Qed.

Lemma str_lt_trans a b c : str_lt a b -> str_lt b c -> str_lt a c.
Proof.
  unfold str_lt. revert b c.
  induction a as [|x a IH]; intros [|y b] [|z c]; cbn; try discriminate; auto.
  unfold Ascii.compare.
  destruct (N.compare_spec (N_of_ascii x) (N_of_ascii y)) as [E1|L1|G1];
  destruct (N.compare_spec (N_of_ascii y) (N_of_ascii z)) as [E2|L2|G2];
  try discriminate; intros H1 H2.
  - rewrite E1, E2 at 1. rewrite N.compare_refl. now apply (IH b c).
  - rewrite E1. now apply N.compare_lt_iff in L2 as ->.
  - rewrite <- E2. now apply N.compare_lt_iff in L1 as ->.
  - assert (L : (N_of_ascii x < N_of_ascii z)%N) by lia.
    now apply N.compare_lt_iff in L as ->.
Qed.

Lemma str_gt_lt a b : String.compare a b = Gt -> str_lt b a.
Proof.
  unfold str_lt. intros H. rewrite String.compare_antisym, H. reflexivity.
Qed.

Lemma insert_sorted_elem x y l : y ∈ insert_sorted x l <-> y = x \/ y ∈ l.
Proof.
  induction l as [|z l IH]; cbn [insert_sorted].
  - rewrite list_elem_of_singleton. rewrite elem_of_nil. tauto.
  - destruct (String.compare x z) eqn:E.
    + apply String.compare_eq_iff in E. subst z.
      rewrite elem_of_cons. tauto.
    + rewrite elem_of_cons. tauto.
    + rewrite !elem_of_cons, IH. tauto.
Qed.

Lemma insert_sorted_sorted x l :
  StronglySorted str_lt l -> StronglySorted str_lt (insert_sorted x l).
Proof.
  induction 1 as [|z l Hs IH Hz]; cbn [insert_sorted].
  - repeat constructor.
  - destruct (String.compare x z) eqn:E.
    + now constructor.
    + constructor; [now constructor|].
      constructor; [exact E|].
      eapply Forall_impl; [exact Hz|]. intros y Hy.
      now apply (str_lt_trans x z y).
    + constructor; [exact IH|].
      apply Forall_forall. intros y Hy. apply insert_sorted_elem in Hy as [->|Hy].
      * now apply str_gt_lt.
      * rewrite Forall_forall in Hz. now apply Hz.
Qed.

Lemma sorted_set_fold l acc :
  StronglySorted str_lt acc ->
  StronglySorted str_lt (fold_left (fun acc x => insert_sorted x acc) l acc) /\
  forall y, y ∈ fold_left (fun acc x => insert_sorted x acc) l acc <->
            y ∈ l \/ y ∈ acc.
Proof.
  revert acc. induction l as [|x l IH]; intros acc Hacc; cbn [fold_left].
  - split; [exact Hacc|]. intros y. rewrite elem_of_nil. tauto.
  - destruct (IH (insert_sorted x acc) (insert_sorted_sorted x acc Hacc)) as [H1 H2].
    split; [exact H1|]. intros y.
    rewrite H2, insert_sorted_elem, elem_of_cons. tauto.
Qed.

Lemma sorted_set_sorted l : StronglySorted str_lt (sorted_set l).
Proof. apply sorted_set_fold. constructor. Qed.

Lemma sorted_set_elem l y : y ∈ sorted_set l <-> y ∈ l.
Proof.
  unfold sorted_set.
  destruct (sorted_set_fold l [] ltac:(constructor)) as [_ H].
  rewrite H, elem_of_nil. tauto.
Qed.

Lemma sorted_NoDup l : StronglySorted str_lt l -> NoDup l.
Proof.
  induction 1 as [|x l Hs IH Hx]; constructor; [|exact IH].
  intros Hin. rewrite Forall_forall in Hx.
  exact (str_lt_irrefl x (Hx x Hin)).
Qed.

(* --------------------------------------------------------------------- *)
(** ** Styles *)
(* --------------------------------------------------------------------- *)

Lemma str_in_elem x l : str_in x l = true <-> x ∈ l.
Proof.
  unfold str_in. rewrite existsb_exists. split.
  - intros (y & Hy & E). apply String.eqb_eq in E. subst y.
    now apply list_elem_of_In.
  - intros H. exists x. split; [now apply list_elem_of_In | apply String.eqb_refl].
Qed.

Lemma generate_styles_lines speakers :
  generate_styles speakers =
  str_join NL (map style_of
                 (speakers ++ if str_in "UNKNOWN" speakers then [] else ["UNKNOWN"])).
Proof.
  unfold generate_styles. fold style_of.
  change (fun speaker => DEFAULT_STYLE_TEMPLATE speaker
            (default unknown_color (SPEAKER_COLORS !! speaker))) with style_of.
  destruct (str_in "UNKNOWN" speakers); cbn [negb].
  - now rewrite app_nil_r.
  - now rewrite map_app.
Qed.

(* --------------------------------------------------------------------- *)
(** ** Lines without line feeds *)
(* --------------------------------------------------------------------- *)

Lemma no_char_app c a b : no_char c (a +:+ b) = no_char c a && no_char c b.
Proof. unfold no_char. now rewrite chars_app, forallb_app. Qed.

Lemma no_char_cons c a s :
  no_char c (String a s) = negb (Ascii.eqb a c) && no_char c s.
Proof. reflexivity. Qed.

Lemma escape_char_no_lf c : no_char LF (escape_char c) = true.
Proof.
  unfold escape_char.
  destruct (Ascii.eqb c LF) eqn:E; [reflexivity|].
  destruct (Ascii.eqb c "{"); [reflexivity|].
  destruct (Ascii.eqb c "}"); [reflexivity|].
  unfold no_char. cbn. now rewrite E.
Qed.

Lemma escape_no_lf s : no_char LF (escape_ass_text s) = true.
Proof.
  rewrite escape_ass_text_spec.
  induction s as [|c s IH]; [reflexivity|].
  cbn [escape_spec]. now rewrite no_char_app, escape_char_no_lf, IH.
Qed.

Lemma digit_not_lf c : is_digit c = true -> Ascii.eqb c LF = false.
Proof. ascii_cases c. Qed.

Lemma str_of_N_no_lf n : no_char LF (str_of_N n) = true.
Proof.
  unfold no_char. apply forallb_forall. intros c Hc.
  pose proof (uint_chars_digits (N.to_uint n)) as H.
  unfold all_digits in H. rewrite forallb_forall in H.
  apply negb_true_iff, digit_not_lf, H, Hc.
Qed.

Lemma mins_no_lf (m : N) : (m < 60)%N -> no_char LF (format_0d 2 (Z.of_N m)) = true.
Proof.
  intros H.
  apply (forallb_below (fun m => no_char LF (format_0d 2 (Z.of_N m))) 60); [|lia].
  vm_compute. reflexivity.
Qed.

Lemma secs_no_lf (c : N) : (c <= 6000)%N -> no_char LF (secs_field c) = true.
Proof.
  intros H.
  apply (forallb_below (fun c => no_char LF (secs_field c)) 6001); [|lia].
  vm_compute. reflexivity.
Qed.

Lemma timestamp_no_lf t : no_char LF (seconds_to_ass_time t) = true.
Proof.
  rewrite seconds_to_ass_time_clamp.
  rewrite (seconds_to_ass_time_whole _ (clamp_nonneg t)).
  pose proof (centis_range (clamp t)) as Hz.
  set (z := round_half_even (float_mod (clamp t) 60 * 100)) in *.
  rewrite clamp_floor. pose proof (whole_seconds_nonneg t) as Hn.
  set (n := whole_seconds t) in *.
  assert (Hm : (0 <= n mod 3600 / 60 < 60)%Z).
  { pose proof (Z.mod_pos_bound n 3600 ltac:(lia)). split.
    - apply Z.div_pos; lia.
    - apply Z.div_lt_upper_bound; lia. }
  pose proof (mins_no_lf (Z.to_N (n mod 3600 / 60)) ltac:(lia)) as Hmf.
  rewrite Z2N.id in Hmf by lia.
  rewrite no_char_app, no_char_cons, no_char_app, no_char_cons.
  rewrite str_of_N_no_lf, Hmf, (secs_no_lf (Z.abs_N z)) by lia.
  reflexivity.
Qed.

Lemma dialogue_text_no_lf ja zh : no_char LF (dialogue_text ja zh) = true.
Proof.
  unfold dialogue_text. destruct (negb (str_empty zh)).
  - now rewrite !no_char_app, !escape_no_lf.
  - apply escape_no_lf.
Qed.

(* --------------------------------------------------------------------- *)
(** ** The effects of [generate_ass] *)
(* --------------------------------------------------------------------- *)

Lemma read_only_dialogue_body incl dialogues seg :
  read_only (dialogue_body incl dialogues seg).
Proof.
  unfold dialogue_body.
  apply read_only_bind; [apply read_only_dict_get|]. intros text_ja.
  apply read_only_bind.
  { destruct incl; [apply read_only_dict_get | apply read_only_ret]. }
  intros text_zh.
  apply read_only_bind; [apply read_only_dict_get|]. intros speaker.
  apply read_only_bind; [apply read_only_getitem|]. intros start.
  apply read_only_bind; [apply read_only_getitem|]. intros end_.
  apply read_only_ret.
Qed.

Lemma names_read w segments ds :
  refers w segments ds ->
  comprehension (dict_get k_speaker "UNKNOWN") segments w =
  (Ok (map speaker_of ds), w).
Proof.
  intros Href.
  pose (obj := fun l => default empty_dict (w_heap w !! l)).
  assert (Hds : ds = map obj segments) by now apply refers_lookup.
  rewrite Hds, map_map. apply comprehension_read.
  unfold obj. clear Hds obj.
  induction Href as [|l d ls ds H _ IH]; constructor; [|exact IH].
  rewrite (dict_get_ok _ _ _ _ _ H), H. cbn. unfold speaker_of.
  now destruct (d_speaker d).
Qed.

Lemma dialogues_read incl w segments ds :
  refers w segments ds -> Forall has_times ds ->
  forall acc,
  for_each segments (dialogue_body incl) acc w =
  (Ok (acc ++ map (dialogue_of incl) ds), w).
Proof.
  induction 1 as [|l d ls ds H _ IH]; intros Ht acc; cbn [for_each map].
  - now rewrite app_nil_r.
  - inversion Ht; subst.
    rewrite (bind_ok _ _ _ _ _ (dialogue_body_run incl w l d acc H ltac:(assumption))).
    rewrite IH by assumption. now rewrite <- app_assoc.
Qed.

Lemma dialogue_body_missing incl w l d dialogues :
  w_heap w !! l = Some d -> ~ has_times d ->
  dialogue_body incl dialogues l w =
  (Raise (exn_new KeyError (missing_time d)), w).
Proof.
  intros Hl Hn. unfold dialogue_body.
  rewrite (bind_ok _ _ _ _ _ (dict_get_ok k_text "" _ _ _ Hl)).
  assert (Hzh : (if incl then dict_get k_translation "" l else mret "") w =
                (Ok (if incl then default "" (d_translation d) else ""), w)).
  { destruct incl; [|reflexivity].
    rewrite (dict_get_ok _ _ _ _ _ Hl). cbn. now destruct (d_translation d). }
  rewrite (bind_ok _ _ _ _ _ Hzh).
  rewrite (bind_ok _ _ _ _ _ (dict_get_ok k_speaker "UNKNOWN" _ _ _ Hl)).
  unfold missing_time.
  destruct (d_start d) as [s|] eqn:Es.
  - rewrite (bind_ok _ _ _ _ _ (getitem_ok k_start _ _ _ _ Hl Es)).
    destruct (d_end d) as [e|] eqn:Ee.
    + exfalso. apply Hn. unfold has_times. rewrite Es, Ee. eauto.
    + rewrite bind_run. unfold getitem. rewrite (bind_ok _ _ _ _ _ (deref_ok _ _ _ Hl)).
      cbn. now rewrite Ee.
  - rewrite bind_run. unfold getitem. rewrite (bind_ok _ _ _ _ _ (deref_ok _ _ _ Hl)).
    cbn. now rewrite Es.
Qed.

(* --------------------------------------------------------------------- *)
(** ** Segments of the data model *)
(* --------------------------------------------------------------------- *)

Lemma model_dict_body_run w ext acc seg :
  model_dict_body acc seg (extend w ext) =
  (Ok (acc ++ [(length (w_heap w) + length ext)%nat]),
   extend w (ext ++ [dict_of_segment seg])).
Proof.
  unfold model_dict_body. rewrite (bind_ok _ _ _ _ _ (new_dict_run _ _)).
  rewrite extend_extend, extend_heap, length_app. reflexivity.
Qed.

Lemma model_dict_loop segs :
  forall w ext acc,
  for_each segs model_dict_body acc (extend w ext) =
  (Ok (acc ++ seq (length (w_heap w) + length ext) (length segs)),
   extend w (ext ++ map dict_of_segment segs)).
Proof.
  induction segs as [|seg segs IH]; intros w ext acc; cbn [for_each map length seq].
  - now rewrite !app_nil_r.
  - rewrite (bind_ok _ _ _ _ _ (model_dict_body_run w ext acc seg)).
    rewrite IH, length_app. cbn [length].
    rewrite <- !app_assoc. cbn [app].
    now replace (length (w_heap w) + (length ext + 1))%nat
      with (S (length (w_heap w) + length ext)) by lia.
Qed.

(* --------------------------------------------------------------------- *)
(** ** Computations that only allocate *)
(* --------------------------------------------------------------------- *)

Lemma grows_refl w : grows w w.
Proof. exists []. now rewrite extend_nil. Qed.

Lemma grows_trans w1 w2 w3 : grows w1 w2 -> grows w2 w3 -> grows w1 w3.
Proof.
  intros [e1 ->] [e2 ->]. exists (e1 ++ e2). apply extend_extend.
Qed.

Lemma allocates_read_only {A} (m : M A) : read_only m -> allocates m.
Proof. intros H w. rewrite H. apply grows_refl. Qed.

Lemma allocates_ret {A} (a : A) : allocates (mret a : M A).
Proof. apply allocates_read_only, read_only_ret. Qed.

Lemma allocates_bind {A B} (m : M A) (f : A -> M B) :
  allocates m -> (forall a, allocates (f a)) -> allocates (m ≫= f).
Proof.
  intros Hm Hf w. rewrite bind_run. specialize (Hm w).
  destruct (m w) as [[a|e] w1]; cbn in Hm; [|exact Hm].
  eapply grows_trans; [exact Hm | apply Hf].
Qed.

Lemma allocates_new_dict d : allocates (new_dict d).
Proof. intros w. exists [d]. reflexivity. Qed.

Lemma allocates_for_each {A S} (l : list A) (body : S -> A -> M S) :
  (forall s x, allocates (body s x)) -> forall s, allocates (for_each l body s).
Proof.
  intros Hb. induction l as [|x l IH]; intros s; cbn [for_each].
  - apply allocates_ret.
  - apply allocates_bind; [apply Hb | exact IH].
Qed.

Lemma allocates_comprehension {A B} (f : A -> M B) (l : list A) :
  (forall x, allocates (f x)) -> allocates (comprehension f l).
Proof.
  intros Hf. induction l as [|x l IH]; cbn [comprehension].
  - apply allocates_ret.
  - apply allocates_bind; [apply Hf|]. intros y.
    apply allocates_bind; [exact IH|]. intros ys. apply allocates_ret.
Qed.

Lemma read_only_best_speaker_body ts te vars d_seg :
  read_only (best_speaker_body ts te vars d_seg).
Proof.
  unfold best_speaker_body. destruct vars as [best_speaker best_overlap].
  apply read_only_bind; [apply read_only_getitem|]. intros s.
  apply read_only_bind; [apply read_only_getitem|]. intros e.
  destruct (Qltb _ _); [|apply read_only_ret].
  apply read_only_bind; [apply read_only_getitem|]. intros sp.
  apply read_only_ret.
Qed.

Lemma read_only_find_best_speaker ts te ls :
  read_only (find_best_speaker ts te ls).
Proof.
  unfold find_best_speaker.
  apply read_only_bind.
  - apply read_only_for_each. intros s x. apply read_only_best_speaker_body.
  - intros [best_speaker best_overlap]. apply read_only_ret.
Qed.

Lemma allocates_merge_segments ls dls : allocates (merge_segments ls dls).
Proof.
  unfold merge_segments.
  destruct (list_empty ls); [apply allocates_ret|].
  destruct (opt_list_empty dls).
  - apply allocates_comprehension. intros seg. unfold default_speaker_dict.
    apply allocates_bind; [apply allocates_read_only, read_only_getitem|]. intros s.
    apply allocates_bind; [apply allocates_read_only, read_only_getitem|]. intros e.
    apply allocates_bind; [apply allocates_read_only, read_only_getitem|]. intros t.
    apply allocates_new_dict.
  - apply allocates_for_each. intros merged seg. unfold merge_body.
    apply allocates_bind; [apply allocates_read_only, read_only_getitem|]. intros s.
    apply allocates_bind; [apply allocates_read_only, read_only_getitem|]. intros e.
    apply allocates_bind; [apply allocates_read_only, read_only_find_best_speaker|].
    intros speaker.
    apply allocates_bind; [apply allocates_read_only, read_only_getitem|]. intros s'.
    apply allocates_bind; [apply allocates_read_only, read_only_getitem|]. intros e'.
    apply allocates_bind; [apply allocates_read_only, read_only_getitem|]. intros t.
    apply allocates_bind; [apply allocates_new_dict|]. intros d.
    apply allocates_ret.
Qed.

(** The loop of [consolidate_segments] writes to the accumulator only,
    which is a dictionary of its own. *)
Lemma wp_read_only {A} (m : M A) w (Q : result A -> world -> Prop) :
  read_only m -> (forall r, Q r w) -> wp m w Q.
Proof. intros H HQ. unfold wp. rewrite H. apply HQ. Qed.

Lemma setitem_fresh {A} (k : key A) w ext c v :
  (length (w_heap w) <= c)%nat ->
  grows w (snd (setitem k c v (extend w ext))).
Proof.
  intros Hc. unfold setitem.
  destruct (w_heap (extend w ext) !! c) as [d|] eqn:E; cbn [snd].
  - exists (<[(c - length (w_heap w))%nat := key_set k v d]> ext).
    unfold extend, set_heap. cbn. f_equal.
    now rewrite insert_app_r_alt by lia.
  - now exists ext.
Qed.

Lemma dict_copy_grows w ext l :
  match dict_copy l (extend w ext) with
  | (Ok c, w') => (length (w_heap w) <= c)%nat /\ grows w w'
  | (Raise _, w') => grows w w'
  end.
Proof.
  unfold dict_copy. rewrite bind_run. unfold deref.
  destruct (w_heap (extend w ext) !! l) as [d|]; [|now exists ext].
  rewrite new_dict_run. split.
  - rewrite extend_heap, length_app. lia.
  - exists (ext ++ [d]). apply extend_extend.
Qed.

Ltac raised :=
  split; [first [assumption | eexists; reflexivity] | exact I].

Ltac read_item :=
  apply wp_bind; apply wp_read_only; [apply read_only_getitem|];
  intros [?|?]; [|raised].

Ltac write_item w Hf :=
  apply wp_bind; unfold wp at 1;
  match goal with
  | |- context [setitem ?k ?c ?v (extend w ?ext)] =>
      let G := fresh "G" in
      pose proof (setitem_fresh k w ext c v Hf) as G;
      destruct (setitem k c v (extend w ext)) as [[[]|?] ?];
      cbn [fst snd] in *; [destruct G as [? ->] | raised]
  end.

Ltac copy_item w :=
  apply wp_bind; unfold wp at 1;
  match goal with
  | |- context [dict_copy ?l (extend w ?ext)] =>
      let G := fresh "G" in
      pose proof (dict_copy_grows w ext l) as G;
      destruct (dict_copy l (extend w ext)) as [[?|?] ?];
      cbn [fst snd] in *; [destruct G as [? G] | raised]
  end.

Lemma consolidate_body_grows g m w w1 vars seg :
  grows w w1 -> fresh_acc w vars ->
  wp (consolidate_body g m vars seg) w1
     (fun r w' => grows w w' /\
                  match r with Ok vars' => fresh_acc w vars' | Raise _ => True end).
Proof.
  intros [ext ->] Hf. destruct vars as [consolidated [cur|]]; unfold consolidate_body.
  - cbn in Hf. do 6 read_item.
    destruct (_ && _ && _).
    + read_item. write_item w Hf. do 2 read_item. write_item w Hf.
      unfold wp. cbn. split; [eexists; reflexivity | exact Hf].
    + copy_item w. unfold wp. cbn. now split.
  - copy_item w. unfold wp. cbn. now split.
Qed.

Lemma consolidate_segments_grows ls g m w :
  grows w (snd (consolidate_segments ls g m w)).
Proof.
  unfold consolidate_segments.
  destruct (list_empty ls); [apply grows_refl|].
  rewrite bind_run.
  pose proof (wp_for_each ls (consolidate_body g m)
                (fun _ vars w1 => grows w w1 /\ fresh_acc w vars)
                (fun w1 => grows w w1)) as H.
  specialize (H ltac:(intros i x s w1 _ [Hg Hf];
                      eapply wp_mono; [|apply (consolidate_body_grows g m w w1 s x Hg Hf)];
                      intros [s'|e] w' [G F]; [now split | exact G])).
  specialize (H ([], None) w (conj (grows_refl w) I)).
  unfold wp in H.
  destruct (for_each ls (consolidate_body g m) ([], None) w) as [[[cons cur]|e] w1];
    cbn [fst snd] in *; [|exact H].
  destruct cur; apply H.
Qed.

(* --------------------------------------------------------------------- *)
(** ** Runs of cues *)
(* --------------------------------------------------------------------- *)

Lemma consolidate_fold g m ds :
  forall fl acc,
  flush (fold_left (consolidate_step g m) ds (fl, Some acc)) =
  fl ++ consolidate_from g m acc ds.
Proof.
  induction ds as [|d ds IH]; intros fl acc; cbn [fold_left consolidate_from].
  - reflexivity.
  - cbn [consolidate_step]. destruct (mergeable g m acc d).
    + apply IH.
    + rewrite IH, <- app_assoc. reflexivity.
Qed.

Lemma consolidate_spec_cons g m d ds :
  consolidate_spec g m (d :: ds) = consolidate_from g m d ds.
Proof. unfold consolidate_spec. cbn [fold_left consolidate_step]. apply consolidate_fold. Qed.

Lemma mergeable_joins g m acc d :
  mergeable g m acc d = true <-> joins g m acc acc d.
Proof.
  unfold mergeable, joins. rewrite !andb_true_iff, String.eqb_eq, !Qle_bool_iff.
  tauto.
Qed.

Lemma str_join_snoc sep (l : list string) s :
  l <> [] -> str_join sep (l ++ [s]) = str_join sep l +:+ sep +:+ s.
Proof.
  induction l as [|x l IH]; [congruence|]. intros _.
  destruct l as [|y l]; [reflexivity|].
  change (str_join sep ((x :: y :: l) ++ [s]))
    with (x +:+ sep +:+ str_join sep ((y :: l) ++ [s])).
  rewrite IH by discriminate.
  change (str_join sep (x :: y :: l)) with (x +:+ sep +:+ str_join sep (y :: l)).
  now rewrite !str_app_assoc.
Qed.

Lemma run_cue_snoc f r d :
  absorb (run_cue (f, r)) d = run_cue (f, r ++ [d]).
Proof.
  destruct r as [|x r]; [reflexivity|].
  unfold run_cue, run_cues, absorb. cbn [fst snd].
  change ((x :: r) ++ [d]) with (x :: (r ++ [d])) at 1.
  cbn [d_start d_speaker d_translation]. f_equal.
  - now rewrite last_last.
  - f_equal. unfold text_of at 1. cbn [d_text default from_option id].
    change (f :: (x :: r) ++ [d]) with ((f :: x :: r) ++ [d]).
    rewrite map_app. cbn [map]. now rewrite str_join_snoc by discriminate.
Qed.

Lemma run_cue_fields f r :
  start_of (run_cue (f, r)) = start_of f /\
  label_of (run_cue (f, r)) = label_of f /\
  end_of (run_cue (f, r)) = end_of (List.last r f).
Proof.
  unfold run_cue. cbn [fst snd]. destruct r as [|x r]; [auto|].
  unfold start_of, label_of, end_of. cbn [d_start d_speaker d_end]. auto.
Qed.

Lemma joins_run_cue g m f r d :
  joins g m (run_cue (f, r)) (run_cue (f, r)) d <-> joins g m f (List.last r f) d.
Proof.
  unfold joins. destruct (run_cue_fields f r) as (-> & -> & ->). tauto.
Qed.

Lemma last_cons {A} (r : list A) :
  forall x a, List.last (x :: r) a = List.last r x.
Proof.
  induction r as [|y r IH]; intros x a; [reflexivity|].
  change (List.last (x :: y :: r) a) with (List.last (y :: r) a).
  now rewrite (IH y a), (IH y x).
Qed.

Lemma chain_snoc g m f prev r d :
  chain g m f prev (r ++ [d]) <->
  chain g m f prev r /\ joins g m f (List.last r prev) d.
Proof.
  revert prev. induction r as [|x r IH]; intros prev; cbn [app chain].
  - cbn. tauto.
  - rewrite IH, last_cons. tauto.
Qed.

Lemma consolidate_from_runs g m :
  forall ds f r0,
  chain g m f f r0 ->
  exists r1 runs,
    ds = r1 ++ concat (map run_cues runs) /\
    consolidate_from g m (run_cue (f, r0)) ds =
      run_cue (f, r0 ++ r1) :: map run_cue runs /\
    chain g m f f (r0 ++ r1) /\
    Forall (fun r => chain g m (fst r) (fst r) (snd r)) runs /\
    greedy g m ((f, r0 ++ r1) :: runs).
Proof.
  induction ds as [|d ds IH]; intros f r0 Hc; cbn [consolidate_from].
  - exists [], []. rewrite !app_nil_r. cbn.
    repeat split; first [exact Hc | constructor].
  - destruct (mergeable g m (run_cue (f, r0)) d) eqn:E.
    + apply mergeable_joins, joins_run_cue in E.
      rewrite run_cue_snoc.
      destruct (IH f (r0 ++ [d])) as (r1 & runs & E1 & E2 & C & F & G).
      { apply chain_snoc. split; [exact Hc|].
        destruct r0; exact E. }
      exists (d :: r1), runs.
      replace (r0 ++ d :: r1) with ((r0 ++ [d]) ++ r1) by now rewrite <- app_assoc.
      cbn [app]. split; [now rewrite <- E1 | auto].
    + assert (N : ~ joins g m f (List.last r0 f) d).
      { rewrite <- joins_run_cue, <- mergeable_joins. congruence. }
      destruct (IH d [] I) as (r1 & runs & E1 & E2 & C & F & G).
      change (run_cue (d, [])) with d in E2. cbn [app] in E2, C, G.
      exists [], ((d, r1) :: runs). rewrite app_nil_r.
      cbn [app map concat run_cues fst snd].
      split; [now rewrite <- E1|]. split; [now rewrite E2|].
      split; [exact Hc|]. split; [constructor; [exact C | exact F]|].
      cbn [greedy fst snd]. split; [exact N | exact G].
Qed.

Lemma consolidate_spec_runs g m ds :
  exists runs,
    ds = concat (map run_cues runs) /\
    consolidate_spec g m ds = map run_cue runs /\
    Forall (fun r => chain g m (fst r) (fst r) (snd r)) runs /\
    greedy g m runs.
Proof.
  destruct ds as [|d ds].
  - exists []. cbn. repeat split; constructor.
  - rewrite consolidate_spec_cons.
    destruct (consolidate_from_runs g m ds d [] I) as (r1 & runs & E1 & E2 & C & F & G).
    change (run_cue (d, [])) with d in E2. cbn [app] in E2, C, G.
    exists ((d, r1) :: runs).
    cbn [map concat run_cues fst snd app].
    split; [now rewrite <- E1|]. split; [exact E2|].
    split; [constructor; [exact C | exact F] | exact G].
Qed.

Lemma consolidate_from_length g m ds :
  forall acc,
  (1 <= length (consolidate_from g m acc ds) <= S (length ds))%nat.
Proof.
  induction ds as [|d ds IH]; intros acc; cbn [consolidate_from length].
  - lia.
  - destruct (mergeable g m acc d); cbn [length].
    + specialize (IH (absorb acc d)). lia.
    + specialize (IH d). lia.
Qed.

Lemma consolidate_from_texts g m ds :
  forall acc,
  str_join " " (map text_of (consolidate_from g m acc ds)) =
  str_join " " (text_of acc :: map text_of ds).
Proof.
  induction ds as [|d ds IH]; intros acc; cbn [consolidate_from map].
  - reflexivity.
  - destruct (mergeable g m acc d).
    + rewrite IH.
      change (text_of (absorb acc d)) with (text_of acc +:+ " " +:+ text_of d).
      destruct (map text_of ds) as [|t ts].
      * reflexivity.
      * change (str_join " " (text_of acc :: text_of d :: t :: ts))
          with (text_of acc +:+ " " +:+ (text_of d +:+ " " +:+ str_join " " (t :: ts))).
        change (str_join " " ((text_of acc +:+ " " +:+ text_of d) :: t :: ts))
          with ((text_of acc +:+ " " +:+ text_of d) +:+ " " +:+ str_join " " (t :: ts)).
        now rewrite !str_app_assoc.
    + cbn [map].
      destruct (consolidate_from g m d ds) as [|o rest] eqn:E.
      { pose proof (consolidate_from_length g m ds d) as L.
        rewrite E in L. cbn in L. lia. }
      rewrite <- E.
      change (str_join " " (text_of acc :: text_of d :: map text_of ds))
        with (text_of acc +:+ " " +:+ str_join " " (text_of d :: map text_of ds)).
      rewrite <- IH, E. reflexivity.
Qed.

Lemma consolidate_from_is_cue g m ds :
  forall acc, is_cue acc -> Forall is_cue ds ->
  Forall is_cue (consolidate_from g m acc ds).
Proof.
  induction ds as [|d ds IH]; intros acc Ha Hd; cbn [consolidate_from].
  - constructor; [exact Ha | constructor].
  - inversion Hd; subst. destruct (mergeable g m acc d).
    + apply IH; [now apply absorb_is_cue | assumption].
    + constructor; [exact Ha|]. now apply IH.
Qed.

Lemma consolidate_spec_is_cue g m ds :
  Forall is_cue ds -> Forall is_cue (consolidate_spec g m ds).
Proof.
  destruct ds as [|d ds]; intros H; [constructor|].
  rewrite consolidate_spec_cons. inversion H; subst.
  now apply consolidate_from_is_cue.
Qed.

(* --------------------------------------------------------------------- *)
(** ** Consolidating twice *)
(* --------------------------------------------------------------------- *)

Lemma consolidate_from_head g m ds :
  forall acc, ends_ordered (acc :: ds) ->
  exists o rest,
    consolidate_from g m acc ds = o :: rest /\
    d_start o = d_start acc /\ d_speaker o = d_speaker acc /\
    (end_of acc <= end_of o)%Q.
Proof.
  unfold ends_ordered.
  induction ds as [|d ds IH]; intros acc Hs; cbn [consolidate_from].
  - exists acc, []. repeat split. lra.
  - inversion Hs as [|? ? Hs' Hle]; subst.
    inversion Hle as [|? ? Had Hle']; subst.
    destruct (mergeable g m acc d).
    + destruct (IH (absorb acc d)) as (o & rest & E & E1 & E2 & E3).
      { inversion Hs' as [|? ? Hs'' Hd]; subst. constructor; assumption. }
      exists o, rest. repeat split; try assumption.
      change (end_of (absorb acc d)) with (end_of d) in E3. lra.
    + exists acc, (consolidate_from g m d ds). repeat split. lra.
Qed.

Lemma consolidate_from_again g m ds :
  forall acc, ends_ordered (acc :: ds) ->
  consolidate_spec g m (consolidate_from g m acc ds) = consolidate_from g m acc ds.
Proof.
  unfold ends_ordered.
  induction ds as [|d ds IH]; intros acc Hs; cbn [consolidate_from].
  - reflexivity.
  - inversion Hs as [|? ? Hs' Hle]; subst.
    inversion Hle as [|? ? Had Hle']; subst.
    destruct (mergeable g m acc d) eqn:E.
    + apply IH. inversion Hs' as [|? ? Hs'' Hd]; subst. constructor; assumption.
    + rewrite consolidate_spec_cons.
      destruct (consolidate_from_head g m ds d Hs') as (o & rest & Eo & E1 & E2 & E3).
      pose proof (IH d Hs') as Hagain. rewrite Eo in *.
      rewrite consolidate_spec_cons in Hagain.
      cbn [consolidate_from].
      assert (N : mergeable g m acc o = false).
      { destruct (mergeable g m acc o) eqn:E'; [|reflexivity].
        rewrite <- E. symmetry.
        apply mergeable_joins. apply mergeable_joins in E'.
        destruct E' as (L & G & D). unfold joins.
        unfold label_of, start_of in *. rewrite E1, E2 in *.
        repeat split; [exact L | exact G | lra]. }
      now rewrite N, Hagain.
Qed.

Lemma consolidate_spec_again g m ds :
  ends_ordered ds ->
  consolidate_spec g m (consolidate_spec g m ds) = consolidate_spec g m ds.
Proof.
  destruct ds as [|d ds]; intros H; [reflexivity|].
  rewrite consolidate_spec_cons. now apply consolidate_from_again.
Qed.

Lemma consolidate_spec_length g m ds :
  (length (consolidate_spec g m ds) <= length ds)%nat /\
  (ds <> [] -> consolidate_spec g m ds <> []).
Proof.
  destruct ds as [|d ds]; [split; [cbn; lia | congruence]|].
  rewrite consolidate_spec_cons.
  pose proof (consolidate_from_length g m ds d) as H. cbn [length]. split; [lia|].
  intros _ E. rewrite E in H. cbn in H. lia.
Qed.

Lemma consolidate_spec_texts g m ds :
  str_join " " (map text_of (consolidate_spec g m ds)) =
  str_join " " (map text_of ds).
Proof.
  destruct ds as [|d ds]; [reflexivity|].
  rewrite consolidate_spec_cons. apply consolidate_from_texts.
Qed.

(* --------------------------------------------------------------------- *)
(** ** The cost of a batch *)
(* --------------------------------------------------------------------- *)

Lemma spends_refl k w : spends k w w.
Proof. exists 0%nat, []. rewrite after_0. cbn. split; [reflexivity|lia]. Qed.

Lemma spends_one k w : spends (S k) w (after w 1 []).
Proof. exists 1%nat, []. cbn. split; [reflexivity|lia]. Qed.

Lemma sleep_cases secs w :
  (exists e, sleep secs w = (Raise e, w)) \/
  sleep secs w = (Ok tt, after w 0 [secs]).
Proof.
  unfold sleep. destruct (Qltb secs 0); [left; eauto|right].
  unfold after. now rewrite Nat.add_0_r.
Qed.

Section Cost.
Variable create : nat -> string -> string -> api_outcome.
Variables (texts : list string) (model : string) (max_retries : nat).
Variables (base : Q) (input_text : string).

Lemma retry_spends attempts last wait w :
  (forall last w, spends (length attempts) w
     (snd (attempt_loop create texts model max_retries base input_text
             attempts last w))) ->
  spends (S (length attempts)) w
    (snd ((sleep wait;;
           attempt_loop create texts model max_retries base input_text
             attempts last) (after w 1 []))).
Proof.
  intros IH. rewrite bind_run.
  destruct (sleep_cases wait (after w 1 [])) as [[e ->]| ->].
  - apply spends_one.
  - rewrite after_after.
    destruct (IH last (after w (1 + 0) ([] ++ [wait]))) as (r & d & E & Hr & Hd).
    exists (S r), (wait :: d). rewrite E, after_after. cbn.
    split; [reflexivity|]. lia.
Qed.

Lemma attempt_loop_spends attempts :
  forall last w,
  spends (length attempts) w
    (snd (attempt_loop create texts model max_retries base input_text
            attempts last w)).
Proof.
  induction attempts as [|a attempts IH]; intros last w.
  - apply spends_refl.
  - cbn [attempt_loop length]. rewrite bind_run, messages_create_run.
    destruct (create (w_api_calls w) model (TRANSLATION_PROMPT input_text))
      as [resp|e]; [apply spends_one|].
    destruct (exn_cls e); try apply spends_one.
    + now apply retry_spends.
    + destruct (a <? max_retries - 1)%nat; [now apply retry_spends | apply spends_one].
Qed.

End Cost.

(* --------------------------------------------------------------------- *)
(** ** The batches of a translation *)
(* --------------------------------------------------------------------- *)

Lemma answer_length create model request texts :
  responsive create -> length (answer create model request texts) = length texts.
Proof.
  intros H. unfold answer.
  destruct (H request model (TRANSLATION_PROMPT (numbered_input texts))) as [resp ->].
  apply parse_numbered_response_length.
Qed.

Lemma answers_S create model first n texts k :
  answers create model first n texts (S k) =
  answers create model first n texts k
  ++ answer create model (first + k) (batch_of n k texts).
Proof.
  unfold answers. rewrite seq_S, map_app, concat_app. cbn. now rewrite app_nil_r.
Qed.

Lemma batch_of_length {A} n j (l : list A) :
  length (batch_of n j l) = Nat.min n (length l - j * n).
Proof. unfold batch_of. now rewrite length_take, length_drop. Qed.

Lemma answers_length create model first n texts k :
  responsive create ->
  length (answers create model first n texts k) = Nat.min (k * n) (length texts).
Proof.
  intros H. induction k as [|k IH]; [reflexivity|].
  rewrite answers_S, length_app, IH, (answer_length _ _ _ _ H), batch_of_length.
  lia.
Qed.

Lemma translate_batch_answer create installed texts api_key model max_retries w :
  responsive create -> texts <> [] -> api_key <> "" -> installed = true ->
  (0 < max_retries)%nat ->
  translate_batch create installed texts api_key model max_retries 1 w =
  (Ok (answer create model (w_api_calls w) texts), after w 1 []).
Proof.
  intros Hr Ht Hk -> Hm. unfold translate_batch.
  destruct texts as [|t ts]; [congruence|]. cbn [list_empty].
  destruct api_key as [|c k]; [congruence|]. cbn [str_empty negb].
  destruct max_retries as [|r]; [lia|]. cbn [seq].
  unfold answer.
  destruct (Hr (w_api_calls w) model (TRANSLATION_PROMPT (numbered_input (t :: ts))))
    as [resp E].
  rewrite E. apply loop_returns.
  unfold attempt_outcome. now rewrite Nat.add_0_r.
Qed.

Lemma zip_with_nil_r {A B C} (f : A -> B -> C) l : zip_with f l [] = [].
Proof. now destruct l. Qed.

Lemma zip_with_short {A B C} (f : A -> B -> C) l k n :
  (length k <= n)%nat -> zip_with f (take n l) k = zip_with f l k.
Proof.
  revert l k. induction n as [|n IH]; intros l k H.
  - destruct k; [|cbn in H; lia]. now rewrite !zip_with_nil_r.
  - destruct l as [|x l]; [reflexivity|]. destruct k as [|y k]; [reflexivity|].
    cbn. f_equal. apply IH. cbn in H. lia.
Qed.

Lemma zip_with_batches {A B C} (f : A -> B -> C) l k1 k2 n :
  length k1 = Nat.min n (length l) ->
  zip_with f l (k1 ++ k2) = zip_with f l k1 ++ zip_with f (drop n l) k2.
Proof.
  intros H. rewrite <- (take_drop n l) at 1.
  rewrite zip_with_app by (rewrite length_take; lia).
  now rewrite zip_with_short by lia.
Qed.

Lemma range_step_pos total batch_size :
  (0 < batch_size)%Z ->
  range_step total batch_size =
  mret (map (fun k => k * Z.to_nat batch_size)%nat
          (seq 0 (batches total (Z.to_nat batch_size)))).
Proof. destruct batch_size; try lia. reflexivity. Qed.

Section Batches.
Variable create : nat -> string -> string -> api_outcome.
Variable anthropic_installed : bool.
Variables (api_key model : string) (max_retries : nat).
Hypothesis env : good_env create anthropic_installed api_key max_retries.

Lemma batch_body_answer segments batch_size cb total acc i w bds :
  refers w (slice segments i (i + Z.to_nat batch_size)) bds ->
  Forall has_text bds -> bds <> [] ->
  batch_body create anthropic_installed segments api_key batch_size model
    max_retries cb total acc i w =
  (Ok (acc ++ seq (length (w_heap w)) (length bds)),
   World (w_heap w ++ zip_with set_tr bds
                        (answer create model (w_api_calls w) (map text_of bds)))
     (w_api_calls w + 1) (w_sleeps w)
     (w_progress w ++
      if cb then [(Nat.min (i + Z.to_nat batch_size) total, total)] else [])
     (w_files w)).
Proof.
  intros Href Hok Hne. destruct env as (Hr & Hk & Hi & Hm).
  unfold batch_body.
  set (batch := slice segments i (i + Z.to_nat batch_size)) in *.
  rewrite (bind_ok _ _ _ _ _ (texts_read _ _ _ Href Hok)).
  assert (Htexts : map text_of bds <> []) by (destruct bds; [congruence|discriminate]).
  rewrite (bind_ok _ _ _ _ _
             (translate_batch_answer create anthropic_installed _ api_key model
                max_retries w Hr Htexts Hk Hi Hm)).
  set (trs := answer create model (w_api_calls w) (map text_of bds)).
  assert (Hl : length trs = length batch).
  { unfold trs. rewrite (answer_length _ _ _ _ Hr), length_map.
    symmetry. eapply Forall2_length. exact Href. }
  assert (Href1 : refers (after w 1 []) batch bds) by exact Href.
  pose proof (attach_loop (after w 1 []) batch bds Href1 trs Hl [] acc) as Hat.
  rewrite extend_nil in Hat. cbn [length app] in Hat. rewrite Nat.add_0_r in Hat.
  rewrite (bind_ok _ _ _ _ _ Hat).
  rewrite (Forall2_length _ _ _ Href).
  destruct w as [h c s p f]. unfold after, extend, set_heap. cbn.
  rewrite !app_nil_r. destruct cb; cbn; now rewrite ?app_nil_r.
Qed.

Variables (w : world) (segments : list loc) (ds : list pydict).
Variables (batch_size : Z) (cb : bool).
Hypothesis Href : refers w segments ds.
Hypothesis Hok : Forall has_text ds.
Hypothesis Hpos : (0 < batch_size)%Z.

Local Abbreviation n := (Z.to_nat batch_size).
Local Abbreviation total := (length segments).
Local Abbreviation state := (after_batches create model w ds n cb).
Local Abbreviation body :=
  (batch_body create anthropic_installed segments api_key batch_size model
     max_retries cb total).

Lemma batches_run b :
  forall a,
  (a + b = batches total n)%nat ->
  for_each (map (fun k => k * n)%nat (seq a b)) body
    (seq (length (w_heap w)) (Nat.min (a * n) total)) (state a) =
  (Ok (seq (length (w_heap w)) total), state (a + b)).
Proof.
  assert (Hn : (0 < n)%nat) by lia.
  assert (Hlen : length segments = length ds) by (eapply Forall2_length; exact Href).
  destruct env as (Hr & _).
  induction b as [|b IH]; intros a Hab.
  - cbn [seq map for_each]. rewrite Nat.add_0_r in *.
    pose proof (ceil_div_covers total n Hn) as Hc. fold (batches total n) in Hc.
    rewrite <- Hab in Hc. now rewrite Nat.min_r by lia.
  - cbn [seq map for_each].
    assert (Han : (a * n < total)%nat).
    { unfold batches in Hab.
      pose proof (Nat.div_mod (total + n - 1) n ltac:(lia)) as H.
      pose proof (Nat.mod_upper_bound (total + n - 1) n ltac:(lia)) as H'.
      nia. }
    set (bds := batch_of n a ds).
    assert (Hheap : w_heap (state a) =
                    w_heap w ++ zip_with set_tr ds
                      (answers create model (w_api_calls w) n (map text_of ds) a))
      by reflexivity.
    assert (Hb : refers (state a) (slice segments (a * n) (a * n + n)) bds).
    { unfold slice, refers, bds, batch_of.
      replace (a * n + n - a * n)%nat with n by lia.
      apply Forall2_take, Forall2_drop.
      eapply Forall2_impl; [exact Href|].
      intros l d Hl. rewrite Hheap. now apply lookup_app_l_Some. }
    assert (Hbt : Forall has_text bds).
    { unfold bds, batch_of. now apply Forall_take, Forall_drop. }
    assert (Hbl : length bds = Nat.min n (total - a * n)).
    { unfold bds. now rewrite batch_of_length, Hlen. }
    assert (Hne : bds <> []).
    { intros E. rewrite E in Hbl. cbn in Hbl. lia. }
    rewrite (bind_ok _ _ _ _ _
               (batch_body_answer segments batch_size cb total _ (a * n) (state a)
                  bds Hb Hbt Hne)).
    replace (a + S b)%nat with (S a + b)%nat by lia.
    rewrite <- (IH (S a)) by lia.
    assert (Hal : length (answers create model (w_api_calls w) n (map text_of ds) a)
                  = (a * n)%nat).
    { rewrite (answers_length _ _ _ _ _ _ Hr), length_map. lia. }
    f_equal.
    + assert (Hh : length (w_heap (state a)) = (length (w_heap w) + a * n)%nat).
      { rewrite Hheap, length_app, length_zip_with, Hal. lia. }
      rewrite Hh.
      replace (Nat.min (a * n) total) with (a * n)%nat by lia.
      replace (Nat.min (S a * n) total) with (a * n + length bds)%nat by lia.
      now rewrite seq_app.
    + unfold after_batches. cbn [w_heap w_api_calls w_sleeps w_progress w_files].
      f_equal.
      * rewrite <- app_assoc. f_equal. rewrite answers_S.
        rewrite (zip_with_batches set_tr ds _ _ (a * n)) by (rewrite Hal; lia).
        f_equal.
        assert (Em : map text_of bds = batch_of n a (map text_of ds)).
        { unfold bds, batch_of. now rewrite skipn_map, firstn_map. }
        rewrite Em. unfold bds. unfold batch_of at 1.
        apply zip_with_short.
        rewrite (answer_length _ _ _ _ Hr), batch_of_length. lia.
      * lia.
      * rewrite <- app_assoc. f_equal. destruct cb; [|reflexivity].
        unfold reports. rewrite seq_S, map_app. cbn [map]. rewrite <- Hlen.
        repeat f_equal. lia.
Qed.

Lemma translate_segments_run :
  translate_segments create anthropic_installed segments api_key batch_size
    model max_retries cb w =
  (Ok (seq (length (w_heap w)) total), state (batches total n)).
Proof.
  unfold translate_segments.
  assert (H0 : state 0 = w).
  { unfold after_batches, answers, reports. cbn [seq map concat].
    rewrite zip_with_nil_r. destruct w, cb; cbn; now rewrite !app_nil_r, Nat.add_0_r. }
  destruct (list_empty segments) eqn:E.
  - assert (Hs : total = 0%nat) by (destruct segments; [reflexivity|discriminate]).
    rewrite Hs. unfold batches.
    replace ((0 + n - 1) / n)%nat with 0%nat; [now rewrite H0|].
    symmetry. apply Nat.div_small. lia.
  - rewrite (range_step_pos _ _ Hpos), bind_run. cbn [mret M_ret].
    pose proof (batches_run (batches total n) 0 ltac:(lia)) as H.
    cbn [Nat.mul Nat.min seq] in H. rewrite H0 in H. exact H.
Qed.

End Batches.

(* --------------------------------------------------------------------- *)
(** ** The lines of a response, one after the other *)
(* --------------------------------------------------------------------- *)

Lemma collect_supplies m line i t :
  supplies (str_strip line) i t -> collect m line !! i = Some t.
Proof.
  intros (g1 & g2 & E & <- & ->). unfold collect. rewrite E.
  apply lookup_insert_eq.
Qed.

Lemma collect_other m line i :
  (forall t, ~ supplies (str_strip line) i t) -> collect m line !! i = m !! i.
Proof.
  intros H. unfold collect.
  destruct (re_match (str_strip line)) as [[g1 g2]|] eqn:E; [|reflexivity].
  apply lookup_insert_ne. intros Ei.
  apply (H (str_strip g2)). exists g1, g2. auto.
Qed.

Lemma fold_collect_other lines i :
  (forall line t, line ∈ lines -> ~ supplies (str_strip line) i t) ->
  forall m, fold_left collect lines m !! i = m !! i.
Proof.
  induction lines as [|line lines IH]; intros H m; [reflexivity|].
  cbn [fold_left]. rewrite IH.
  - apply collect_other. intros t. apply H. now left.
  - intros l t Hl. apply H. now right.
Qed.

(* --------------------------------------------------------------------- *)
(** ** From the numbered lines back to the texts *)
(* --------------------------------------------------------------------- *)

Lemma strip_chars_ends c l :
  is_space c = false -> is_space (List.last l c) = false ->
  strip_chars (c :: l) = c :: l.
Proof.
  intros Hc Hl. unfold strip_chars, lstrip_chars, rstrip_chars.
  cbn [drop_spaces]. rewrite Hc.
  destruct (rev (c :: l)) as [|x r] eqn:E.
  { apply (f_equal (@length _)) in E. rewrite length_rev in E. discriminate. }
  assert (Hx : x = List.last l c).
  { assert (H : c :: l = rev r ++ [x]).
    { rewrite <- (rev_involutive (c :: l)), E. reflexivity. }
    pose proof (last_cons l c c) as L. rewrite H, last_last in L. exact L. }
  cbn [drop_spaces]. rewrite Hx, Hl, <- Hx, <- E. apply rev_involutive.
Qed.

Lemma last_app_cons {A} (a : list A) x b :
  forall d, List.last (a ++ x :: b) d = List.last b x.
Proof.
  induction a as [|y a IH]; intros d; cbn [app].
  - apply last_cons.
  - rewrite last_cons. apply IH.
Qed.

Lemma tidy_strip s : tidy s = true -> str_strip s = s.
Proof.
  unfold tidy, str_strip. destruct (chars s) as [|c l] eqn:E; [discriminate|].
  intros H. apply andb_prop in H as [H1 H2].
  apply negb_true_iff in H1, H2.
  rewrite (strip_chars_ends c l H1 H2), <- E.
  apply string_of_list_ascii_of_string.
Qed.

Lemma sep_space c : is_sep c = false -> is_space c = false.
Proof. unfold is_sep. intros H. now apply orb_false_elim in H as [_ H]. Qed.

Lemma echoable_tidy t : echoable t = true -> tidy t = true.
Proof.
  unfold echoable, tidy. destruct (chars t) as [|c l]; [discriminate|].
  intros H. apply andb_prop in H as [H _]. apply andb_prop in H as [H1 H2].
  apply negb_true_iff in H1. now rewrite (sep_space _ H1), H2.
Qed.

Lemma numbered_line_chars i t :
  chars (numbered_line i t) =
  chars (str_of_N (N.of_nat (i + 1))) ++ "."%char :: " "%char :: chars t.
Proof. unfold numbered_line. now rewrite !chars_app. Qed.

Lemma str_of_N_chars n :
  exists d ds, chars (str_of_N n) = d :: ds /\ all_digits (d :: ds) = true.
Proof.
  pose proof (uint_chars_digits (N.to_uint n)) as H. fold (str_of_N n) in H.
  destruct (chars (str_of_N n)) as [|d ds] eqn:E; [|eauto].
  exfalso. apply (str_of_N_nonempty n).
  rewrite <- (string_of_list_ascii_of_string (str_of_N n)), E. reflexivity.
Qed.

Lemma numbered_line_tidy i t : echoable t = true -> tidy (numbered_line i t) = true.
Proof.
  intros H. unfold tidy. rewrite numbered_line_chars.
  destruct (str_of_N_chars (N.of_nat (i + 1))) as (d & ds & -> & Hd).
  apply echoable_tidy in H. unfold tidy in H.
  destruct (chars t) as [|c l]; [discriminate|].
  apply andb_prop in H as [_ H2]. cbn [app].
  apply andb_prop in Hd as [Hd _].
  rewrite (digit_not_space _ Hd). cbn [negb andb].
  change (ds ++ "."%char :: " "%char :: c :: l)
    with (ds ++ "."%char :: [" "%char] ++ c :: l).
  now rewrite last_app_cons, last_app_cons.
Qed.

Lemma numbered_line_no_lf i t :
  echoable t = true -> no_char LF (numbered_line i t) = true.
Proof.
  intros H. unfold numbered_line. rewrite !no_char_app, str_of_N_no_lf.
  unfold echoable in H. destruct (chars t) as [|c l] eqn:E; [discriminate|].
  apply andb_prop in H as [_ H]. unfold no_char at 2. rewrite E.
  unfold is_dot in H. now rewrite H.
Qed.

Lemma re_match_numbered_line i t :
  echoable t = true ->
  re_match (numbered_line i t) = Some (str_of_N (N.of_nat (i + 1)), t).
Proof.
  intros H. unfold re_match. rewrite numbered_line_chars.
  destruct (str_of_N_chars (N.of_nat (i + 1))) as (d & ds & Ed & Hd).
  rewrite Ed.
  assert (Hd0 : is_digit d = true) by (now apply andb_prop in Hd as [Hd _]).
  pose proof (span_all is_space [] ((d :: ds) ++ "."%char :: " "%char :: chars t)
                eq_refl) as S1.
  cbn [app] in S1. specialize (S1 (digit_not_space _ Hd0)).
  cbn [app]. rewrite S1.
  pose proof (span_all is_digit (d :: ds) ("."%char :: " "%char :: chars t) Hd eq_refl)
    as S2.
  cbn [app] in S2. rewrite S2.
  unfold echoable in H. destruct (chars t) as [|c l] eqn:E; [discriminate|].
  apply andb_prop in H as [H H3]. apply andb_prop in H as [H1 _].
  apply negb_true_iff in H1.
  pose proof (span_all is_sep ["."%char; " "%char] (c :: l) eq_refl H1) as S3.
  cbn [app] in S3. rewrite S3. cbn [rev app seps_then_text].
  pose proof (dot_plus_end_complete (c :: l) [] ltac:(discriminate) H3 (or_introl eq_refl))
    as D. rewrite app_nil_r in D. rewrite D.
  rewrite <- Ed, <- E, !string_of_list_ascii_of_string. reflexivity.
Qed.

Lemma collect_numbered_line m i t :
  echoable t = true ->
  collect m (numbered_line i t) = <[N.of_nat (i + 1) := t]> m.
Proof.
  intros H. unfold collect.
  rewrite (tidy_strip _ (numbered_line_tidy i t H)), (re_match_numbered_line i t H).
  unfold int_of_digits. rewrite digits_value_str_of_N.
  now rewrite (tidy_strip _ (echoable_tidy t H)).
Qed.

Lemma split_join lines :
  lines <> [] -> Forall (fun s => no_char LF s = true) lines ->
  str_split LF (str_join NL lines) = lines.
Proof.
  induction lines as [|x lines IH]; [congruence|]. intros _ H.
  inversion H as [|? ? Hx Hl]; subst.
  destruct lines as [|y lines].
  - cbn [str_join]. unfold str_split. now rewrite (split_fields_none _ _ Hx).
  - change (str_join NL (x :: y :: lines))
      with (x +:+ String LF (str_join NL (y :: lines))).
    unfold str_split. rewrite (split_fields_app _ _ _ Hx).
    specialize (IH ltac:(discriminate) Hl). unfold str_split in IH.
    destruct (split_fields LF (str_join NL (y :: lines))) as [f fs].
    cbn [fst snd]. now rewrite IH.
Qed.

Lemma tidy_join lines :
  lines <> [] -> Forall (fun s => tidy s = true) lines ->
  tidy (str_join NL lines) = true.
Proof.
  induction lines as [|x lines IH]; [congruence|]. intros _ H.
  inversion H as [|? ? Hx Hl]; subst.
  destruct lines as [|y lines]; [exact Hx|].
  change (str_join NL (x :: y :: lines))
    with (x +:+ String LF (str_join NL (y :: lines))).
  specialize (IH ltac:(discriminate) Hl).
  unfold tidy in *. rewrite chars_app.
  destruct (chars x) as [|c l]; [discriminate|].
  apply andb_prop in Hx as [Hx _].
  cbn [app list_ascii_of_string]. rewrite Hx. cbn [andb].
  destruct (chars (str_join NL (y :: lines))) as [|c' l']; [discriminate|].
  apply andb_prop in IH as [_ IH].
  change (l ++ LF :: c' :: l') with (l ++ LF :: [] ++ c' :: l').
  now rewrite last_app_cons, last_app_cons.
Qed.

Lemma fold_numbered texts :
  Forall (fun t => echoable t = true) texts ->
  forall off m k,
  fold_left collect (imap (fun i => numbered_line (off + i)) texts) m
  !! N.of_nat k =
  if decide (off < k <= off + length texts)%nat
  then texts !! (k - off - 1)%nat
  else m !! N.of_nat k.
Proof.
  induction 1 as [|t texts Ht _ IH]; intros off m k.
  - cbn. case_decide; [lia|reflexivity].
  - rewrite imap_cons. cbn [fold_left length].
    rewrite (imap_ext _ (fun i => numbered_line (S off + i))).
    2:{ intros i x _. cbn. f_equal. lia. }
    rewrite IH, (collect_numbered_line _ _ _ Ht).
    repeat case_decide; try lia.
    + replace (k - off - 1)%nat with (S (k - S off - 1)) by lia. reflexivity.
    + replace k with (off + 0 + 1)%nat by lia. rewrite lookup_insert_eq.
      replace (off + 0 + 1 - off - 1)%nat with 0%nat by lia. reflexivity.
    + apply lookup_insert_ne. lia.
Qed.

(* --------------------------------------------------------------------- *)
(** ** Segments as dictionaries *)
(* --------------------------------------------------------------------- *)

Lemma suggestion_round_trip s :
  Models.suggestion_from_dict (Models.suggestion_to_dict s) = Ok s.
Proof. now destruct s. Qed.

Lemma suggestions_round_trip l :
  Models.list_comprehension Models.suggestion_from_dict
    (map Models.suggestion_to_dict l) = Ok l.
Proof.
  induction l as [|s l IH]; [reflexivity|].
  cbn [map Models.list_comprehension].
  rewrite suggestion_round_trip. cbn. now rewrite IH.
Qed.

Lemma item_cases {A} name (o : option A) :
  (exists v, o = Some v /\ Models.item name o = Ok v) \/
  (o = None /\ Models.item name o = Raise (exn_new KeyError name)).
Proof. destruct o; [left; eauto | right; auto]. Qed.

Lemma suggestion_from_dict_cases s :
  match Models.suggestion_from_dict s with
  | Ok x => Models.suggestion_to_dict x = suggestion_defaults s
  | Raise e => exists k, e = exn_new KeyError k /\ k ∈ required_keys
  end.
Proof.
  unfold Models.suggestion_from_dict, required_keys. destruct s as [a b c d e f].
  cbn [Models.sd_type Models.sd_field Models.sd_original Models.sd_suggested
       Models.sd_reason Models.sd_add_to_dict].
  destruct a; cbn; [|eexists; split; [reflexivity|set_solver]].
  destruct b; cbn; [|eexists; split; [reflexivity|set_solver]].
  destruct c; cbn; [|eexists; split; [reflexivity|set_solver]].
  destruct d; cbn; [|eexists; split; [reflexivity|set_solver]].
  destruct e; cbn; [|eexists; split; [reflexivity|set_solver]].
  reflexivity.
Qed.

Lemma suggestions_from_dict_cases l :
  match Models.list_comprehension Models.suggestion_from_dict l with
  | Ok xs => map Models.suggestion_to_dict xs = map suggestion_defaults l
  | Raise e => exists k, e = exn_new KeyError k /\ k ∈ required_keys
  end.
Proof.
  induction l as [|s l IH]; [reflexivity|].
  cbn [Models.list_comprehension map].
  pose proof (suggestion_from_dict_cases s) as H.
  destruct (Models.suggestion_from_dict s) as [x|e]; cbn; [|exact H].
  destruct (Models.list_comprehension Models.suggestion_from_dict l) as [xs|e];
    cbn; [|exact IH].
  now rewrite H, IH.
Qed.

(* --------------------------------------------------------------------- *)
(** ** Speaker statistics *)
(* --------------------------------------------------------------------- *)

Lemma stats_body_run w l d vars :
  w_heap w !! l = Some d -> is_turn d ->
  Diarizer.stats_body vars l w = (Ok (stats_step vars d), w).
Proof.
  intros Hl ([s Hs] & [e He] & [sp Hsp]). unfold Diarizer.stats_body.
  destruct vars as [speakers durations].
  rewrite (bind_ok _ _ _ _ _ (getitem_ok k_speaker _ _ _ _ Hl Hsp)).
  rewrite (bind_ok _ _ _ _ _ (getitem_ok k_end _ _ _ _ Hl He)).
  rewrite (bind_ok _ _ _ _ _ (getitem_ok k_start _ _ _ _ Hl Hs)).
  unfold stats_step, turn_duration, label_of, end_of, start_of.
  now rewrite Hs, He, Hsp.
Qed.

Lemma durations_get_set k v s D :
  Diarizer.durations_get s 0 (Diarizer.durations_set k v D) =
  if String.eqb k s then v else Diarizer.durations_get s 0 D.
Proof.
  induction D as [|[k' v'] D IH]; cbn [Diarizer.durations_set Diarizer.durations_get].
  - reflexivity.
  - destruct (String.eqb k' k) eqn:E; cbn [Diarizer.durations_get].
    + apply String.eqb_eq in E. subst k'. now destruct (String.eqb k s).
    + destruct (String.eqb k' s) eqn:E'; [|exact IH].
      destruct (String.eqb k s) eqn:E''; [|reflexivity].
      apply String.eqb_eq in E', E''. subst. now rewrite String.eqb_refl in E.
Qed.

Lemma sum_from (l : list Q) (a : Q) :
  (fold_left Qplus l a == a + Diarizer.py_sum l)%Q.
Proof.
  unfold Diarizer.py_sum. revert a. induction l as [|x l IH]; intros a; cbn [fold_left].
  - lra.
  - rewrite (IH (a + x)%Q), (IH (0 + x)%Q). lra.
Qed.

Lemma py_sum_cons x l : (Diarizer.py_sum (x :: l) == x + Diarizer.py_sum l)%Q.
Proof. unfold Diarizer.py_sum at 1. cbn [fold_left]. rewrite sum_from. lra. Qed.

Lemma py_sum_snoc l x : Diarizer.py_sum (l ++ [x]) = (Diarizer.py_sum l + x)%Q.
Proof. unfold Diarizer.py_sum. now rewrite fold_left_app. Qed.

Lemma durations_set_sum k x D :
  (Diarizer.py_sum
     (map snd (Diarizer.durations_set k (Diarizer.durations_get k 0 D + x) D))
   == Diarizer.py_sum (map snd D) + x)%Q.
Proof.
  induction D as [|[k' v'] D IH];
    cbn [Diarizer.durations_set Diarizer.durations_get map snd].
  - rewrite py_sum_cons. unfold Diarizer.py_sum. cbn. lra.
  - destruct (String.eqb k' k); cbn [map snd].
    + rewrite !py_sum_cons. lra.
    + rewrite !py_sum_cons, IH. lra.
Qed.

Lemma durations_set_keys k v D s :
  s ∈ map fst (Diarizer.durations_set k v D) <-> s = k \/ s ∈ map fst D.
Proof.
  induction D as [|[k' v'] D IH]; cbn [Diarizer.durations_set map fst].
  - rewrite list_elem_of_singleton, elem_of_nil. tauto.
  - destruct (String.eqb k' k) eqn:E; cbn [map fst].
    + apply String.eqb_eq in E. subst k'. rewrite !elem_of_cons. tauto.
    + rewrite !elem_of_cons, IH. tauto.
Qed.

Lemma durations_set_NoDup k v D :
  NoDup (map fst D) -> NoDup (map fst (Diarizer.durations_set k v D)).
Proof.
  induction D as [|[k' v'] D IH]; cbn [Diarizer.durations_set map fst]; intros H.
  - apply NoDup_singleton.
  - inversion H as [|? ? Hn Hd]; subst.
    destruct (String.eqb k' k) eqn:E; cbn [map fst].
    + now constructor.
    + constructor; [|now apply IH].
      rewrite durations_set_keys. intros [->|Hin]; [|contradiction].
      now rewrite String.eqb_refl in E.
Qed.

Lemma turns_of_snoc s turns d :
  map turn_duration (turns_of s (turns ++ [d])) =
  map turn_duration (turns_of s turns)
  ++ (if String.eqb (label_of d) s then [turn_duration d] else []).
Proof.
  unfold turns_of. rewrite List.filter_app, map_app. cbn [List.filter].
  now destruct (String.eqb (label_of d) s).
Qed.

Lemma stats_fold turns :
  let st := fold_left stats_step turns (∅, []) in
  (forall s, s ∈ fst st <-> exists d, d ∈ turns /\ label_of d = s) /\
  (forall s, Diarizer.durations_get s 0 (snd st) =
             Diarizer.py_sum (map turn_duration (turns_of s turns))) /\
  (Diarizer.py_sum (map snd (snd st))
   == Diarizer.py_sum (map turn_duration turns))%Q /\
  NoDup (map fst (snd st)) /\
  (forall s, s ∈ map fst (snd st) <-> s ∈ fst st).
Proof.
  induction turns as [|d turns IH] using rev_ind.
  - cbn. split; [|split; [|split; [|split]]].
    + intros s. rewrite elem_of_empty. split; [tauto|].
      intros (d & Hd & _). now apply elem_of_nil in Hd.
    + reflexivity.
    + reflexivity.
    + constructor.
    + intros s. rewrite elem_of_nil, elem_of_empty. tauto.
  - rewrite fold_left_app. cbn [fold_left].
    destruct (fold_left stats_step turns (∅, [])) as [S D].
    cbn [fst snd] in IH. destruct IH as (I1 & I2 & I3 & I4 & I5).
    unfold stats_step. cbn [fst snd]. split; [|split; [|split; [|split]]].
    + intros s. rewrite elem_of_union, elem_of_singleton, I1. split.
      * intros [->|(x & Hx & E)].
        -- exists d. split; [|reflexivity]. apply elem_of_app. right.
           now apply list_elem_of_singleton.
        -- exists x. split; [|exact E]. apply elem_of_app. now left.
      * intros (x & Hx & E). apply elem_of_app in Hx as [Hx|Hx].
        -- right. eauto.
        -- apply list_elem_of_singleton in Hx. subst x. now left.
    + intros s. rewrite durations_get_set, turns_of_snoc.
      destruct (String.eqb (label_of d) s) eqn:E.
      * apply String.eqb_eq in E. subst s. now rewrite I2, py_sum_snoc.
      * now rewrite app_nil_r.
    + rewrite durations_set_sum, I3, map_app. cbn [map]. rewrite py_sum_snoc. reflexivity.
    + now apply durations_set_NoDup.
    + intros s. rewrite durations_set_keys, I5, elem_of_union, elem_of_singleton.
      tauto.
Qed.

(* --------------------------------------------------------------------- *)
(** ** From the transcription to the subtitle file *)
(* --------------------------------------------------------------------- *)

Lemma merge_spec_is_cue texts turns :
  Forall is_text texts -> Forall is_cue (merge_spec texts turns).
Proof.
  intros H. unfold merge_spec. apply Forall_forall. intros c Hc.
  apply list_elem_of_fmap in Hc as (t & -> & Ht).
  rewrite Forall_forall in H. destruct (H t Ht) as (H1 & H2 & H3).
  unfold is_cue, cue_of. cbn. eauto.
Qed.

Lemma set_tr_has_times d t : is_cue d -> has_times (set_tr d t).
Proof. intros (H1 & H2 & _). split; assumption. Qed.

Lemma answers_all create model first n texts :
  responsive create -> (0 < n)%nat ->
  length (answers create model first n texts (batches (length texts) n)) =
  length texts.
Proof.
  intros Hr Hn. rewrite (answers_length _ _ _ _ _ _ Hr).
  pose proof (ceil_div_covers (length texts) n Hn) as H.
  fold (batches (length texts) n) in H. lia.
Qed.

(* --------------------------------------------------------------------- *)
(** ** Whole hundredths *)
(* --------------------------------------------------------------------- *)

Lemma round_half_even_Z (z : Z) : round_half_even (inject_Z z) = z.
Proof.
  unfold round_half_even. cbv zeta. rewrite Qfloor_Z.
  assert (E : (inject_Z z - inject_Z z ?= 1 # 2)%Q = Lt).
  { apply (proj1 (Qlt_alt _ _)). lra. }
  now rewrite E.
Qed.

(* --------------------------------------------------------------------- *)
(** ** A transcription segment without its keys *)
(* --------------------------------------------------------------------- *)

Lemma comprehension_raise {A B} (f : A -> M B) l1 x l2 :
  forall w ys w1 e w2,
  comprehension f l1 w = (Ok ys, w1) -> f x w1 = (Raise e, w2) ->
  comprehension f (l1 ++ x :: l2) w = (Raise e, w2).
Proof.
  induction l1 as [|a l1 IH]; intros w ys w1 e w2 H1 H2; cbn [app comprehension].
  - cbn in H1. injection H1 as <- <-. now rewrite bind_run, H2.
  - cbn [comprehension] in H1. rewrite bind_run in H1 |- *.
    destruct (f a w) as [[b|e'] w']; [|discriminate].
    rewrite bind_run in H1 |- *.
    destruct (comprehension f l1 w') as [[bs|e'] w''] eqn:E; [|discriminate].
    cbn in H1. injection H1 as <- <-.
    now rewrite (IH _ _ _ _ _ E H2).
Qed.

Lemma getitem_missing {A} (k : key A) w l d :
  w_heap w !! l = Some d -> key_get k d = None ->
  getitem k l w = (Raise (exn_new KeyError (key_name k)), w).
Proof.
  intros H1 H2. unfold getitem. rewrite (bind_ok _ _ _ _ _ (deref_ok _ _ _ H1)).
  now rewrite H2.
Qed.

Lemma default_speaker_dict_missing w l t :
  w_heap w !! l = Some t -> ~ is_text t ->
  default_speaker_dict l w = (Raise (exn_new KeyError (missing_text_key t)), w).
Proof.
  intros Hl Hn. unfold default_speaker_dict, missing_text_key.
  destruct (d_start t) as [s|] eqn:Es.
  2:{ now rewrite (bind_raise _ _ _ _ _ (getitem_missing k_start _ _ _ Hl Es)). }
  rewrite (bind_ok _ _ _ _ _ (getitem_ok k_start _ _ _ _ Hl Es)).
  destruct (d_end t) as [e|] eqn:Ee.
  2:{ now rewrite (bind_raise _ _ _ _ _ (getitem_missing k_end _ _ _ Hl Ee)). }
  rewrite (bind_ok _ _ _ _ _ (getitem_ok k_end _ _ _ _ Hl Ee)).
  destruct (d_text t) as [x|] eqn:Ex.
  { exfalso. apply Hn. unfold is_text. rewrite Es, Ee, Ex. eauto. }
  now rewrite (bind_raise _ _ _ _ _ (getitem_missing k_text _ _ _ Hl Ex)).
Qed.

Lemma merge_body_missing w dls turns l t merged :
  refers w dls turns -> Forall is_turn turns ->
  w_heap w !! l = Some t -> ~ is_text t ->
  merge_body dls merged l w =
  (Raise (exn_new KeyError (missing_text_key t)), w).
Proof.
  intros Hd Hturn Hl Hn. unfold merge_body, missing_text_key.
  destruct (d_start t) as [s|] eqn:Es.
  2:{ now rewrite (bind_raise _ _ _ _ _ (getitem_missing k_start _ _ _ Hl Es)). }
  rewrite (bind_ok _ _ _ _ _ (getitem_ok k_start _ _ _ _ Hl Es)).
  destruct (d_end t) as [e|] eqn:Ee.
  2:{ now rewrite (bind_raise _ _ _ _ _ (getitem_missing k_end _ _ _ Hl Ee)). }
  rewrite (bind_ok _ _ _ _ _ (getitem_ok k_end _ _ _ _ Hl Ee)).
  rewrite (bind_ok _ _ _ _ _ (find_best_speaker_run s e _ _ _ Hd Hturn)).
  rewrite (bind_ok _ _ _ _ _ (getitem_ok k_start _ _ _ _ Hl Es)).
  rewrite (bind_ok _ _ _ _ _ (getitem_ok k_end _ _ _ _ Hl Ee)).
  destruct (d_text t) as [x|] eqn:Ex.
  { exfalso. apply Hn. unfold is_text. rewrite Es, Ee, Ex. eauto. }
  now rewrite (bind_raise _ _ _ _ _ (getitem_missing k_text _ _ _ Hl Ex)).
Qed.

(* ===================================================================== *)
(** * The properties                                                      *)
(* ===================================================================== *)



Example find_best_speaker_tie :
  find_best_speaker 1 3 [0%nat; 1%nat] tie_world = (Ok "SPEAKER_00", tie_world).
Proof. reflexivity. Qed.



Example merge_segments_with_diarization :
  fst (merge_segments [0%nat; 1%nat] (Some [2%nat; 3%nat]) merge_world) =
    Ok [4%nat; 5%nat] /\
  drop 4 (w_heap (snd (merge_segments [0%nat; 1%nat] (Some [2%nat; 3%nat])
                         merge_world))) =
    [Dict (Some 0%Q) (Some 3%Q) (Some "Hello") (Some "SPEAKER_00") None;
     Dict (Some 4%Q) (Some 7%Q) (Some "How are you?") (Some "SPEAKER_01") None].
Proof. split; reflexivity. Qed.

Example merge_segments_without_diarization :
  drop 4 (w_heap (snd (merge_segments [0%nat] None merge_world))) =
    [Dict (Some 0%Q) (Some 3%Q) (Some "Hello") (Some "SPEAKER_00") None].
Proof. reflexivity. Qed.



Example consolidate_merges_same_speaker :
  consolidate_spec 0.5 10 (w_heap consolidate_world) =
  [Dict (Some 0%Q) (Some 4%Q) (Some "Hello world") (Some "SPEAKER_00") None].
Proof. reflexivity. Qed.

Example consolidate_single_is_a_copy :
  consolidate_segments [0%nat] 0.5 10 consolidate_world =
  (Ok [2%nat],
   extend consolidate_world
     [Dict (Some 0%Q) (Some 2%Q) (Some "Hello") (Some "SPEAKER_00") None]).
Proof. reflexivity. Qed.

Example consolidate_empty :
  consolidate_segments [] 0.5 10 consolidate_world = (Ok [], consolidate_world).
Proof. reflexivity. Qed.



Example parse_simple_response :
  parse_numbered_response ("1. 你好" +:+ NL +:+ "2. 再见") 2 = ["你好"; "再见"].
Proof. reflexivity. Qed.

Example parse_with_colon_separator :
  parse_numbered_response ("1: 你好" +:+ NL +:+ "2: 再见") 2 = ["你好"; "再见"].
Proof. reflexivity. Qed.

Example parse_with_extra_whitespace :
  parse_numbered_response ("  1.  你好  " +:+ NL +:+ "  2.  再见  ") 2
  = ["你好"; "再见"].
Proof. reflexivity. Qed.

Example parse_empty_response : parse_numbered_response "" 2 = [""; ""].
Proof. reflexivity. Qed.



Example translate_batch_exhausted :
  translate_batch limited_client true ["こんにちは"] "key" "model" 3 1 empty_world =
  (Raise (exn_new TranslationError
            "Translation failed after 3 attempts: rate limited"),
   after empty_world 3 [1%Q; 2%Q; 4%Q]).
Proof. reflexivity. Qed.

Example translate_batch_api_error :
  translate_batch failing_client true ["こんにちは"] "key" "model" 3 1 empty_world =
  (Raise (exn_from TranslationError "Claude API error: overloaded"
            (exn_new APIError "overloaded")),
   after empty_world 3 [1%Q; 2%Q]).
Proof. reflexivity. Qed.



Example translate_segments_adds_translation :
  fst (translate_segments steady_client true [0%nat; 1%nat] "key" 10 "model"
         3 false cue_world) = Ok [2%nat; 3%nat] /\
  w_heap (snd (translate_segments steady_client true [0%nat; 1%nat] "key" 10
                 "model" 3 false cue_world)) =
  w_heap cue_world ++
  [Dict (Some 0.5%Q) (Some 3%Q) (Some "こんにちは") (Some "SPEAKER_00")
     (Some "你好");
   Dict (Some 3.5%Q) (Some 6%Q) (Some "お元気ですか") (Some "SPEAKER_01")
     (Some "你好吗")].
Proof. split; reflexivity. Qed.



Example seconds_to_ass_time_fractional :
  seconds_to_ass_time 1.5 = "0:00:01.50" /\
  seconds_to_ass_time 0.75 = "0:00:00.75" /\
  seconds_to_ass_time 1.23 = "0:00:01.23" /\
  seconds_to_ass_time 90 = "0:01:30.00".
Proof. repeat split; reflexivity. Qed.

(** Just below a full minute the seconds field rounds up to 60. *)
Example seconds_to_ass_time_rounds_up :
  seconds_to_ass_time 59.996 = "0:00:60.00" /\
  ass_time_to_seconds "0:00:60.00" = Ok (PFin 60.00).
Proof. split; reflexivity. Qed.




Example ass_time_to_seconds_tests :
  ass_time_to_seconds "0:00:00.00" = Ok (PFin 0.00) /\
  ass_time_to_seconds "0:00:30.00" = Ok (PFin 30.00) /\
  ass_time_to_seconds "1:01:01.00" = Ok (PFin 3661.00) /\
  ass_time_to_seconds "0:00:01.50" = Ok (PFin 1.50) /\
  ass_time_to_seconds "invalid" =
    Raise (exn_new ValueError "Invalid ASS time format: invalid") /\
  ass_time_to_seconds "00:00" =
    Raise (exn_new ValueError "Invalid ASS time format: 00:00").
Proof. repeat split; reflexivity. Qed.

(** Other inputs outside the shape that are accepted. *)
Example ass_time_to_seconds_lenient :
  ass_time_to_seconds " 1 : 2 :1_0.5e1 " = Ok (PFin 3825) /\
  ass_time_to_seconds "-1:00:00.00" = Ok (PFin (-3600 + 0.00)) /\
  ass_time_to_seconds "0:00:nan" = Ok PNaN.
Proof. repeat split; reflexivity. Qed.

(** C6: [escape_ass_text] replaces every line feed by [\N], every [{] by
    [\{], every [}] by [\}] and leaves every other character as it is; for
    a non-empty list of cues [generate_ass] writes one dialogue line per
    cue, in order, whose text is the escaped original text alone when the
    translation is disabled or empty, and otherwise the escaped original
    text, [\N] and the escaped translation; and the escape of
    ["Hello\n{world}"] is ["Hello\N\{world\}"]. *)
Theorem C6_rendered_text :
  (forall s, escape_ass_text s = escape_spec s) /\
  (forall include_translation d,
     rendered_text include_translation d =
     if include_translation && negb (str_empty (default "" (d_translation d)))
     then escape_ass_text (default "" (d_text d)) +:+ "\N"
          +:+ escape_ass_text (default "" (d_translation d))
     else escape_ass_text (default "" (d_text d))) /\
  (forall w segments ds path include_translation,
     segments <> [] -> refers w segments ds -> Forall has_times ds ->
     generate_ass segments path include_translation w =
     (Ok path,
      written w path
        (ASS_HEADER (generate_styles (sorted_set (map speaker_of ds)))
         +:+ str_join NL (map (dialogue_of include_translation) ds) +:+ NL))) /\
  escape_ass_text ("Hello" +:+ NL +:+ "{world}") = "Hello\N\{world\}".
Proof.
  split; [apply escape_ass_text_spec|].
  split.
  - intros incl d. unfold rendered_text, dialogue_text.
    destruct incl; [|reflexivity].
    now destruct (str_empty (default "" (d_translation d))).
  - split; [|reflexivity].
    intros w segments ds path incl Hne Href Ht.
    now apply generate_ass_ok.
Qed.

Lemma C6_rendered_text_witness :
  [0%nat; 1%nat] <> [] /\
  refers translated_world [0%nat; 1%nat] (w_heap translated_world) /\
  Forall has_times (w_heap translated_world) /\
  generate_ass [0%nat; 1%nat] "test.ass" true translated_world =
  (Ok "test.ass",
   written translated_world "test.ass"
     (ASS_HEADER
        (generate_styles (sorted_set (map speaker_of (w_heap translated_world))))
      +:+ str_join NL (map (dialogue_of true) (w_heap translated_world))
      +:+ NL)).
Proof.
  assert (H1 : [0%nat; 1%nat] <> ([] : list nat)) by discriminate.
  assert (H2 : refers translated_world [0%nat; 1%nat] (w_heap translated_world)).
  { repeat constructor. }
  assert (H3 : Forall has_times (w_heap translated_world)).
  { cbn. repeat (constructor; [split; eexists; reflexivity|]). constructor. }
  split; [exact H1|]. split; [exact H2|]. split; [exact H3|].
  exact (proj1 (proj2 (proj2 C6_rendered_text)) translated_world
           [0%nat; 1%nat] (w_heap translated_world) "test.ass" true H1 H2 H3).
Defined.

Example dialogue_lines_of_translated_cues :
  map (dialogue_of true) (w_heap translated_world) =
  ["Dialogue: 0,0:00:00.50,0:00:03.00,SPEAKER_00,,0,0,0,,こんにちは\N你好";
   "Dialogue: 0,0:00:03.50,0:00:06.00,SPEAKER_01,,0,0,0,,お元気ですか\N你好吗"].
Proof. reflexivity. Qed.

Example dialogue_lines_without_translation :
  map (dialogue_of false) (w_heap translated_world) =
  ["Dialogue: 0,0:00:00.50,0:00:03.00,SPEAKER_00,,0,0,0,,こんにちは";
   "Dialogue: 0,0:00:03.50,0:00:06.00,SPEAKER_01,,0,0,0,,お元気ですか"].
Proof. reflexivity. Qed.

Example escape_ass_text_tests :
  escape_ass_text "Hello world" = "Hello world" /\
  escape_ass_text ("Hello" +:+ NL +:+ "world") = "Hello\Nworld" /\
  escape_ass_text "{tag}" = "\{tag\}".
Proof. repeat split; reflexivity. Qed.

Example generate_ass_empty :
  generate_ass [] "test.ass" true empty_world =
  (Raise (exn_new ValueError "No segments provided"), empty_world).
Proof. reflexivity. Qed.

(** C9 fails as stated: with the translation enabled, [generate_ass]
    serializes a cue whose text and translation are empty into a dialogue
    line whose text is empty. *)
Lemma C9_counterexample :
  [0%nat] <> [] /\
  refers silent_world [0%nat] (w_heap silent_world) /\
  generate_ass [0%nat] "out.ass" true silent_world =
  (Ok "out.ass",
   written silent_world "out.ass"
     (ASS_HEADER (generate_styles ["SPEAKER_00"])
      +:+ "Dialogue: 0,0:00:00.00,0:00:01.00,SPEAKER_00,,0,0,0,," +:+ "" +:+ NL)) /\
  Exists (fun d => rendered_text true d = "") (w_heap silent_world).
Proof.
  split; [discriminate|]. split; [repeat constructor|].
  split; [reflexivity|]. constructor. reflexivity.
Qed.

(** C9, amended: the text of the dialogue line of a cue is empty exactly
    when the original text of the cue is empty (or absent) and the
    translation is disabled, empty or absent; so with the translation
    enabled every cue that has a non-empty text or a non-empty translation
    is rendered with a non-empty text. *)
Theorem C9_rendered_text_empty (include_translation : bool) (d : pydict) :
  (rendered_text include_translation d = "" <->
   default "" (d_text d) = "" /\
   (include_translation = false \/ default "" (d_translation d) = "")) /\
  (forall w segments ds path,
     segments <> [] -> refers w segments ds -> Forall has_times ds ->
     generate_ass segments path include_translation w =
     (Ok path, written w path (ass_content include_translation ds))) /\
  dialogue_of include_translation d =
  "Dialogue: 0," +:+ seconds_to_ass_time (start_of d) +:+ ","
  +:+ seconds_to_ass_time (end_of d) +:+ "," +:+ speaker_of d +:+ ",,0,0,0,,"
  +:+ rendered_text include_translation d.
Proof.
  split; [|split; [|reflexivity]].
  - unfold rendered_text. rewrite dialogue_text_empty.
    destruct include_translation.
    + split; [intros [H1 H2]; auto|]. intros [H1 [H2|H2]]; [discriminate|auto].
    + split; [intros [H1 _]; auto|]. intros [H1 _]; auto.
  - intros w segments ds path Hne Href Ht. now apply generate_ass_ok.
Qed.

Lemma C9_rendered_text_empty_witness :
  [0%nat; 1%nat] <> [] /\
  refers translated_world [0%nat; 1%nat] (w_heap translated_world) /\
  Forall has_times (w_heap translated_world) /\
  generate_ass [0%nat; 1%nat] "test.ass" true translated_world =
  (Ok "test.ass",
   written translated_world "test.ass"
     (ass_content true (w_heap translated_world))).
Proof.
  assert (H1 : [0%nat; 1%nat] <> ([] : list nat)) by discriminate.
  assert (H2 : refers translated_world [0%nat; 1%nat] (w_heap translated_world)).
  { repeat constructor. }
  assert (H3 : Forall has_times (w_heap translated_world)).
  { cbn. repeat (constructor; [split; eexists; reflexivity|]). constructor. }
  split; [exact H1|]. split; [exact H2|]. split; [exact H3|].
  exact (proj1 (proj2 (C9_rendered_text_empty true empty_dict)) translated_world
           [0%nat; 1%nat] (w_heap translated_world) "test.ass" H1 H2 H3).
Defined.

(* ===================================================================== *)
(** * Further properties                                                *)
(* ===================================================================== *)






Example format_duration_tests :
  format_duration 30 = "30s" /\ format_duration 90 = "1m 30s" /\
  format_duration 3661 = "1h 1m 1s" /\ format_duration 0 = "0s" /\
  format_duration (-5) = "0s" /\ format_duration 3600.9 = "1h 0m 0s".
Proof. repeat split; reflexivity. Qed.

(** X5: a dialogue line is one line: when the speaker label holds no line
    feed, the line [generate_dialogue_line] builds holds none, whatever
    the times and the texts. *)
Theorem X5_dialogue_line_is_one_line (start end_ : Q) (speaker text_ja text_zh : string) :
  no_char LF speaker = true ->
  no_char LF (generate_dialogue_line start end_ speaker text_ja text_zh) = true.
Proof.
  intros H. unfold generate_dialogue_line.
  rewrite !no_char_app, !timestamp_no_lf, H, dialogue_text_no_lf. reflexivity.
Qed.

Lemma X5_dialogue_line_is_one_line_witness :
  no_char LF "SPEAKER_00" = true /\
  no_char LF (generate_dialogue_line 0.5 3 "SPEAKER_00"
                ("Hello" +:+ NL +:+ "world") ("你好" +:+ NL)) = true.
Proof.
  assert (H : no_char LF "SPEAKER_00" = true) by reflexivity.
  split; [exact H|].
  exact (X5_dialogue_line_is_one_line 0.5 3 "SPEAKER_00"
           ("Hello" +:+ NL +:+ "world") ("你好" +:+ NL) H).
Defined.

(** X6: [escape_ass_text] returns its argument unchanged exactly when the
    text holds no line feed and no brace. *)
Theorem X6_escape_leaves_plain_text (s : string) :
  escape_ass_text s = s <-> plain s = true.
Proof.
  rewrite escape_ass_text_spec. unfold plain.
  induction s as [|c s IH]; [cbn; tauto|].
  cbn [escape_spec list_ascii_of_string forallb].
  rewrite andb_true_iff, <- IH. unfold escape_char, is_special.
  destruct (Ascii.eqb c LF) eqn:E1.
  { cbn. split; [|intros [? _]; discriminate].
    intros [= <- _]. discriminate. }
  destruct (Ascii.eqb c "{") eqn:E2.
  { cbn. split; [|intros [? _]; discriminate].
    intros [= <- _]. discriminate. }
  destruct (Ascii.eqb c "}") eqn:E3.
  { cbn. split; [|intros [? _]; discriminate].
    intros [= <- _]. discriminate. }
  cbn. rewrite str_app_cons, str_app_nil_l. split.
  - intros [= H]. auto.
  - intros [_ H]. now rewrite H.
Qed.




(** X9: in the file [generate_ass] writes, the styles are those of a list
    of names without repetition that holds [UNKNOWN] and the speaker of
    every segment, and nothing else: every dialogue line names a style
    that the header defines exactly once. *)
Theorem X9_generate_ass_styles (w : world) (segments : list loc)
  (ds : list pydict) (path : string) (include_translation : bool) :
  segments <> [] -> refers w segments ds -> Forall has_times ds ->
  exists names,
    generate_ass segments path include_translation w =
    (Ok path,
     written w path
       (ASS_HEADER (str_join NL (map style_of names))
        +:+ str_join NL (map (dialogue_of include_translation) ds) +:+ NL)) /\
    NoDup names /\
    (forall n, n ∈ names <->
               n = "UNKNOWN" \/ exists d, d ∈ ds /\ speaker_of d = n).
Proof.
  intros Hne Href Ht.
  set (sp := sorted_set (map speaker_of ds)).
  exists (sp ++ if str_in "UNKNOWN" sp then [] else ["UNKNOWN"]).
  split; [|split].
  - rewrite (generate_ass_ok w segments ds path include_translation Hne Href Ht).
    unfold ass_content. fold sp. now rewrite generate_styles_lines.
  - pose proof (sorted_NoDup _ (sorted_set_sorted (map speaker_of ds))) as Hnd.
    fold sp in Hnd.
    destruct (str_in "UNKNOWN" sp) eqn:E; [now rewrite app_nil_r|].
    apply NoDup_app. split; [exact Hnd|]. split; [|apply NoDup_singleton].
    intros x Hx Hx'. apply list_elem_of_singleton in Hx'. subst x.
    apply str_in_elem in Hx. congruence.
  - intros n. rewrite elem_of_app. unfold sp at 1.
    rewrite sorted_set_elem, list_elem_of_fmap.
    destruct (str_in "UNKNOWN" sp) eqn:E.
    + apply str_in_elem in E. unfold sp in E.
      rewrite sorted_set_elem, list_elem_of_fmap in E.
      rewrite elem_of_nil. split.
      * intros [(d & -> & Hd)|[]]. right. eauto.
      * intros [->|(d & Hd & <-)]; left; [exact E | eauto].
    + rewrite list_elem_of_singleton. split.
      * intros [(d & -> & Hd)| ->]; [right; eauto | now left].
      * intros [->|(d & Hd & <-)]; [now right | left; eauto].
Qed.

Lemma X9_generate_ass_styles_witness :
  [0%nat; 1%nat] <> [] /\
  refers translated_world [0%nat; 1%nat] (w_heap translated_world) /\
  Forall has_times (w_heap translated_world) /\
  exists names,
    generate_ass [0%nat; 1%nat] "test.ass" true translated_world =
    (Ok "test.ass",
     written translated_world "test.ass"
       (ASS_HEADER (str_join NL (map style_of names))
        +:+ str_join NL (map (dialogue_of true) (w_heap translated_world))
        +:+ NL)) /\
    NoDup names /\
    (forall n, n ∈ names <->
               n = "UNKNOWN" \/
               exists d, d ∈ w_heap translated_world /\ speaker_of d = n).
Proof.
  assert (H1 : [0%nat; 1%nat] <> ([] : list nat)) by discriminate.
  assert (H2 : refers translated_world [0%nat; 1%nat] (w_heap translated_world)).
  { repeat constructor. }
  assert (H3 : Forall has_times (w_heap translated_world)).
  { cbn. repeat (constructor; [split; eexists; reflexivity|]). constructor. }
  split; [exact H1|]. split; [exact H2|]. split; [exact H3|].
  exact (X9_generate_ass_styles translated_world [0%nat; 1%nat]
           (w_heap translated_world) "test.ass" true H1 H2 H3).
Defined.

Example generate_styles_tests :
  generate_styles ["SPEAKER_00"] =
    style_of "SPEAKER_00" +:+ NL +:+ style_of "UNKNOWN" /\
  generate_styles ["GUEST"; "UNKNOWN"] =
    style_of "GUEST" +:+ NL +:+ style_of "UNKNOWN" /\
  style_of "GUEST" =
    "Style: GUEST,Arial,48,&H00C0C0C0,&H000000FF,&H00000000,&H80000000,0,0,0,0,100,100,0,0,1,2,1,2,10,10,10,1".
Proof. repeat split; reflexivity. Qed.


(** X11: the functions of the merger never change what they are given:
    [find_best_speaker] leaves the world as it is, and [merge_segments] and
    [consolidate_segments] at most add dictionaries to the store; this
    holds for every input and every outcome, an exception included. *)
Theorem X11_merger_only_allocates :
  (forall ts te ls w, snd (find_best_speaker ts te ls w) = w) /\
  (forall ls dls w, grows w (snd (merge_segments ls dls w))) /\
  (forall ls g m w, grows w (snd (consolidate_segments ls g m w))).
Proof.
  split; [|split].
  - intros ts te ls. apply read_only_find_best_speaker.
  - intros ls dls. apply allocates_merge_segments.
  - intros ls g m w. apply consolidate_segments_grows.
Qed.



(** X13: consolidation loses no text: the texts of the cues returned,
    joined by spaces, are the texts of the cues given, joined by spaces;
    there are never more cues than were given, and at least one when any
    was given. *)
Theorem X13_consolidate_keeps_text (w : world) (segments : list loc)
  (ds : list pydict) (max_gap max_duration : Q) :
  refers w segments ds -> Forall is_cue ds ->
  exists out,
    consolidate_segments segments max_gap max_duration w =
      (Ok (seq (length (w_heap w)) (length out)), extend w out) /\
    str_join " " (map text_of out) = str_join " " (map text_of ds) /\
    (length out <= length ds)%nat /\
    (ds <> [] -> out <> []).
Proof.
  intros Href Hc. exists (consolidate_spec max_gap max_duration ds).
  split; [now apply consolidate_segments_run|].
  split; [apply consolidate_spec_texts | apply consolidate_spec_length].
Qed.

Lemma X13_consolidate_keeps_text_witness :
  refers consolidate_world [0%nat; 1%nat] (w_heap consolidate_world) /\
  Forall is_cue (w_heap consolidate_world) /\
  exists out,
    consolidate_segments [0%nat; 1%nat] 0.5 10 consolidate_world =
      (Ok (seq (length (w_heap consolidate_world)) (length out)),
       extend consolidate_world out) /\
    str_join " " (map text_of out) =
      str_join " " (map text_of (w_heap consolidate_world)) /\
    (length out <= length (w_heap consolidate_world))%nat /\
    (w_heap consolidate_world <> [] -> out <> []).
Proof.
  assert (H1 : refers consolidate_world [0%nat; 1%nat] (w_heap consolidate_world)).
  { repeat constructor. }
  assert (H2 : Forall is_cue (w_heap consolidate_world)).
  { cbn. repeat (constructor; [repeat split; eexists; reflexivity|]). constructor. }
  split; [exact H1|]. split; [exact H2|].
  exact (X13_consolidate_keeps_text consolidate_world [0%nat; 1%nat]
           (w_heap consolidate_world) 0.5 10 H1 H2).
Defined.

(** X14: on cues that end in the order of the list, consolidating a second
    time with the same limits changes nothing: the second call returns
    copies of the cues the first call returned. *)
Theorem X14_consolidate_twice (w : world) (segments : list loc) (ds : list pydict)
  (max_gap max_duration : Q) :
  refers w segments ds -> Forall is_cue ds -> ends_ordered ds ->
  exists out once twice,
    consolidate_segments segments max_gap max_duration w =
      (Ok once, extend w out) /\
    refers (extend w out) once out /\
    consolidate_segments once max_gap max_duration (extend w out) =
      (Ok twice, extend (extend w out) out) /\
    refers (extend (extend w out) out) twice out.
Proof.
  intros Href Hc Hs.
  set (out := consolidate_spec max_gap max_duration ds).
  exists out, (seq (length (w_heap w)) (length out)),
    (seq (length (w_heap (extend w out))) (length out)).
  assert (R1 : refers (extend w out) (seq (length (w_heap w)) (length out)) out)
    by apply refers_fresh.
  split; [now apply consolidate_segments_run|]. split; [exact R1|].
  split; [|apply refers_fresh].
  rewrite (consolidate_segments_run max_gap max_duration _ _ _ R1
             (consolidate_spec_is_cue _ _ _ Hc)).
  unfold out at 2 4. now rewrite (consolidate_spec_again _ _ _ Hs).
Qed.

Lemma X14_consolidate_twice_witness :
  refers consolidate_world [0%nat; 1%nat] (w_heap consolidate_world) /\
  Forall is_cue (w_heap consolidate_world) /\
  ends_ordered (w_heap consolidate_world) /\
  exists out once twice,
    consolidate_segments [0%nat; 1%nat] 0.5 10 consolidate_world =
      (Ok once, extend consolidate_world out) /\
    refers (extend consolidate_world out) once out /\
    consolidate_segments once 0.5 10 (extend consolidate_world out) =
      (Ok twice, extend (extend consolidate_world out) out) /\
    refers (extend (extend consolidate_world out) out) twice out.
Proof.
  assert (H1 : refers consolidate_world [0%nat; 1%nat] (w_heap consolidate_world)).
  { repeat constructor. }
  assert (H2 : Forall is_cue (w_heap consolidate_world)).
  { cbn. repeat (constructor; [repeat split; eexists; reflexivity|]). constructor. }
  assert (H3 : ends_ordered (w_heap consolidate_world)).
  { unfold ends_ordered. cbn.
    repeat (constructor; [|repeat (constructor; [unfold Qle; cbn; lia|]); constructor]).
    constructor. }
  split; [exact H1|]. split; [exact H2|]. split; [exact H3|].
  exact (X14_consolidate_twice consolidate_world [0%nat; 1%nat]
           (w_heap consolidate_world) 0.5 10 H1 H2 H3).
Defined.

Example consolidate_respects_max_duration :
  consolidate_spec 0.5 5
    [Dict (Some 0%Q) (Some 3%Q) (Some "a") (Some "SPEAKER_00") None;
     Dict (Some 3%Q) (Some 6%Q) (Some "b") (Some "SPEAKER_00") None] =
    [Dict (Some 0%Q) (Some 3%Q) (Some "a") (Some "SPEAKER_00") None;
     Dict (Some 3%Q) (Some 6%Q) (Some "b") (Some "SPEAKER_00") None].
Proof. reflexivity. Qed.

(** X15: a call of [translate_batch] sends at most [max_retries] requests
    and waits at most once after each; it changes nothing else in the
    world, whatever the collaborator answers and however the call ends. *)
Theorem X15_translate_batch_cost
  (create : nat -> string -> string -> api_outcome) (anthropic_installed : bool)
  (texts : list string) (api_key model : string) (max_retries : nat)
  (retry_delay_base : Q) (w : world) :
  exists requests delays,
    snd (translate_batch create anthropic_installed texts api_key model
           max_retries retry_delay_base w) = after w requests delays /\
    (requests <= max_retries)%nat /\ (length delays <= requests)%nat.
Proof.
  change (spends max_retries w
            (snd (translate_batch create anthropic_installed texts api_key model
                    max_retries retry_delay_base w))).
  unfold translate_batch.
  destruct (list_empty texts); [apply spends_refl|].
  destruct (str_empty api_key); [apply spends_refl|].
  destruct (negb anthropic_installed); [apply spends_refl|].
  pose proof (attempt_loop_spends create texts model max_retries retry_delay_base
                (numbered_input texts) (seq 0 max_retries) None w) as H.
  now rewrite length_seq in H.
Qed.

(** X16: [translate_batch] sends no request and changes nothing when there
    is no text, no API key, no [anthropic] package or no attempt allowed:
    without texts it returns the empty list, and otherwise it raises a
    [TranslationError]. *)
Theorem X16_translate_batch_idle
  (create : nat -> string -> string -> api_outcome) (anthropic_installed : bool)
  (texts : list string) (api_key model : string) (max_retries : nat)
  (retry_delay_base : Q) (w : world) :
  texts = [] \/ api_key = "" \/ anthropic_installed = false \/
  max_retries = 0%nat ->
  snd (translate_batch create anthropic_installed texts api_key model
         max_retries retry_delay_base w) = w /\
  (texts = [] ->
   fst (translate_batch create anthropic_installed texts api_key model
          max_retries retry_delay_base w) = Ok []) /\
  (texts <> [] ->
   exists msg,
     fst (translate_batch create anthropic_installed texts api_key model
            max_retries retry_delay_base w)
     = Raise (exn_new TranslationError msg)).
Proof.
  intros H. unfold translate_batch.
  destruct texts as [|t ts]; cbn [list_empty].
  { split; [reflexivity|]. split; [reflexivity|congruence]. }
  destruct api_key as [|c k]; cbn [str_empty].
  { split; [reflexivity|]. split; [discriminate|]. intros _. eexists. reflexivity. }
  destruct anthropic_installed; cbn [negb].
  2:{ split; [reflexivity|]. split; [discriminate|]. intros _. eexists. reflexivity. }
  destruct H as [H|[H|[H|H]]]; try discriminate. subst max_retries.
  cbn. split; [reflexivity|]. split; [discriminate|]. intros _. eexists. reflexivity.
Qed.

Lemma X16_translate_batch_idle_witness :
  (["こんにちは"] = [] \/ "key" = "" \/ true = false \/ 0%nat = 0%nat) /\
  snd (translate_batch steady_client true ["こんにちは"] "key" "model" 0 1
         empty_world) = empty_world /\
  (["こんにちは"] = [] ->
   fst (translate_batch steady_client true ["こんにちは"] "key" "model" 0 1
          empty_world) = Ok []) /\
  (["こんにちは"] <> [] ->
   exists msg,
     fst (translate_batch steady_client true ["こんにちは"] "key" "model" 0 1
            empty_world)
     = Raise (exn_new TranslationError msg)).
Proof.
  assert (H : ["こんにちは"] = [] \/ "key" = "" \/ true = false \/ 0%nat = 0%nat).
  { right. right. right. reflexivity. }
  split; [exact H|].
  exact (X16_translate_batch_idle steady_client true ["こんにちは"] "key" "model"
           0 1 empty_world H).
Defined.

Example translate_batch_no_attempt :
  translate_batch steady_client true ["こんにちは"] "key" "model" 0 1 empty_world =
  (Raise (exn_new TranslationError "Translation failed after 0 attempts: None"),
   empty_world).
Proof. reflexivity. Qed.

(** X17: without segments, or with a batch size that is not positive,
    [translate_segments] sends no request and changes nothing: it returns
    the empty list when there is no segment or the batch size is negative
    (the segments are then dropped without an error), and raises the
    [ValueError] of [range] when the batch size is zero. *)
Theorem X17_translate_segments_idle
  (create : nat -> string -> string -> api_outcome) (anthropic_installed : bool)
  (segments : list loc) (api_key : string) (batch_size : Z) (model : string)
  (max_retries : nat) (progress_callback : bool) (w : world) :
  segments = [] \/ (batch_size <= 0)%Z ->
  translate_segments create anthropic_installed segments api_key batch_size
    model max_retries progress_callback w =
  (if list_empty segments || (batch_size <? 0)%Z then Ok []
   else Raise (exn_new ValueError "range() arg 3 must not be zero"), w).
Proof.
  intros H. unfold translate_segments.
  destruct segments as [|l ls]; cbn [list_empty orb]; [reflexivity|].
  destruct H as [H|H]; [discriminate|].
  destruct batch_size as [|p|p]; [reflexivity|lia|reflexivity].
Qed.

Lemma X17_translate_segments_idle_witness :
  ([0%nat; 1%nat] = [] \/ (-5 <= 0)%Z) /\
  translate_segments steady_client true [0%nat; 1%nat] "key" (-5) "model" 3 true
    cue_world = (Ok [], cue_world).
Proof.
  assert (H : [0%nat; 1%nat] = [] \/ (-5 <= 0)%Z) by (right; lia).
  split; [exact H|].
  exact (X17_translate_segments_idle steady_client true [0%nat; 1%nat] "key" (-5)
           "model" 3 true cue_world H).
Defined.







Example numbered_input_drops_leading_separators :
  parse_numbered_response (numbered_input [". a"; " b "; ""]) 3 = ["a"; "b"; ""].
Proof. reflexivity. Qed.

(** X21: a segment survives the way through its dictionary: [from_dict]
    applied to [to_dict] of a segment returns that segment, its
    suggestions included. *)
Theorem X21_segment_round_trip (s : Models.Segment) :
  Models.from_dict (Models.to_dict s) = Ok s.
Proof.
  unfold Models.from_dict, Models.to_dict. cbn.
  rewrite suggestions_round_trip. now destruct s.
Qed.

(** X22: [from_dict] either returns a segment whose dictionary is the one
    given with the defaults filled in ([text_zh] empty, [status] ok, no
    suggestions, [add_to_dict] false), or raises a [KeyError] for one of
    the required keys of a segment or of a suggestion. *)
Theorem X22_segment_from_dict (d : Models.segment_dict) :
  match Models.from_dict d with
  | Ok s => Models.to_dict s = segment_defaults d
  | Raise e => exists k, e = exn_new KeyError k /\ k ∈ required_keys
  end.
Proof.
  unfold Models.from_dict.
  pose proof (suggestions_from_dict_cases (default [] (Models.gd_suggestions d))) as H.
  destruct (Models.list_comprehension Models.suggestion_from_dict
              (default [] (Models.gd_suggestions d))) as [xs|e]; cbn; [|exact H].
  unfold required_keys. destruct d as [a b c e f g h i].
  cbn [Models.gd_id Models.gd_start Models.gd_end Models.gd_speaker
       Models.gd_text_ja Models.gd_text_zh Models.gd_status
       Models.gd_suggestions] in *.
  destruct a; cbn; [|eexists; split; [reflexivity|set_solver]].
  destruct b; cbn; [|eexists; split; [reflexivity|set_solver]].
  destruct c; cbn; [|eexists; split; [reflexivity|set_solver]].
  destruct e; cbn; [|eexists; split; [reflexivity|set_solver]].
  destruct f; cbn; [|eexists; split; [reflexivity|set_solver]].
  unfold Models.to_dict, segment_defaults. cbn. now rewrite H.
Qed.

Example segment_from_dict_tests :
  Models.from_dict
    {| Models.gd_id := Some 1%Z; Models.gd_start := Some 0%Q;
       Models.gd_end := Some 5%Q; Models.gd_speaker := Some "SPEAKER_00";
       Models.gd_text_ja := Some "テスト"; Models.gd_text_zh := None;
       Models.gd_status := None; Models.gd_suggestions := None |} =
  Ok {| Models.id := 1; Models.start := 0; Models.end_ := 5;
        Models.speaker := "SPEAKER_00"; Models.text_ja := "テスト";
        Models.text_zh := ""; Models.status := "ok";
        Models.suggestions := [] |} /\
  Models.from_dict
    {| Models.gd_id := None; Models.gd_start := Some 0%Q;
       Models.gd_end := Some 5%Q; Models.gd_speaker := Some "SPEAKER_00";
       Models.gd_text_ja := None; Models.gd_text_zh := None;
       Models.gd_status := None; Models.gd_suggestions := None |} =
  Raise (exn_new KeyError "id").
Proof. split; reflexivity. Qed.



Example get_speaker_stats_test :
  fst (Diarizer.get_speaker_stats [0%nat; 1%nat; 0%nat] tie_world) =
  Ok {| Diarizer.speakers := ["SPEAKER_00"; "SPEAKER_01"];
        Diarizer.total_duration := (0 + (0 + (2 - 0) + (2 - 0)) + (0 + (4 - 2)))%Q;
        Diarizer.speaker_durations :=
          [("SPEAKER_00", (0 + (2 - 0) + (2 - 0))%Q);
           ("SPEAKER_01", (0 + (4 - 2))%Q)] |}.
Proof. reflexivity. Qed.





(** X26: when the transcription segments before the position [i] have
    their keys and the segment at [i] lacks [start], [end] or [text],
    [merge_segments] raises a [KeyError] for the first of these keys that
    is missing; the cues of the earlier segments have been added to the
    store by then, and nothing else has changed. *)
Theorem X26_merge_segments_missing_key (w : world) (texts : list loc)
  (ts : list pydict) (turns : option (list loc)) (tds : list pydict)
  (i : nat) (t : pydict) :
  refers w texts ts -> refers w (default [] turns) tds -> Forall is_turn tds ->
  ts !! i = Some t -> Forall is_text (take i ts) -> ~ is_text t ->
  merge_segments texts turns w =
  (Raise (exn_new KeyError
            (match d_start t, d_end t with
             | None, _ => "start"
             | Some _, None => "end"
             | Some _, Some _ => "text"
             end)),
   extend w (merge_spec (take i ts) tds)).
Proof.
  change (match d_start t, d_end t with
          | None, _ => "start"
          | Some _, None => "end"
          | Some _, Some _ => "text"
          end) with (missing_text_key t).
  intros Href Hd Hturn Hi Hpre Hn. unfold merge_segments.
  assert (Hlen : length texts = length ts) by (eapply Forall2_length; exact Href).
  destruct (lookup_lt_is_Some_2 texts i) as [l Hl].
  { rewrite Hlen. now apply lookup_lt_Some in Hi. }
  assert (Ht : w_heap w !! l = Some t).
  { unfold refers in Href. rewrite Forall2_lookup in Href.
    specialize (Href i). rewrite Hl, Hi in Href. now inversion Href. }
  assert (Hpref : refers w (take i texts) (take i ts)).
  { unfold refers. now apply Forall2_take. }
  destruct texts as [|l0 ls0] eqn:E; [now rewrite lookup_nil in Hl|].
  cbn [list_empty]. rewrite <- E in *. clear E.
  rewrite <- (take_drop_middle texts i l Hl).
  destruct (opt_list_empty turns) eqn:Ee.
  - assert (tds = []) as ->.
    { destruct turns as [[|]|]; try discriminate; now inversion Hd. }
    pose proof (default_speaker_loop w _ _ Hpref Hpre []) as H.
    rewrite extend_nil in H. cbn [app] in H.
    apply (comprehension_raise _ _ _ _ _ _ _ _ _ H).
    apply default_speaker_dict_missing; [now apply extend_lookup | exact Hn].
  - pose proof (merge_loop w _ tds _ _ Hd Hturn Hpref Hpre [] []) as H.
    rewrite extend_nil in H. cbn [app] in H.
    rewrite for_each_app, (bind_ok _ _ _ _ _ H). cbn [for_each].
    assert (Hm : merge_spec (take i ts) tds =
                 map (fun t => cue_of (best_label (start_of t) (end_of t) tds) t)
                   (take i ts)).
    { unfold merge_spec. destruct tds; [|reflexivity].
      destruct turns as [[|]|]; try discriminate. inversion Hd. }
    rewrite Hm.
    rewrite (bind_raise _ _ _ _ _
               (merge_body_missing _ _ tds l t _
                  (refers_extend w _ _ _ Hd) Hturn
                  (extend_lookup w _ _ _ Ht) Hn)).
    reflexivity.
Qed.

Lemma X26_merge_segments_missing_key_witness :
  refers textless_world [0%nat; 1%nat] (w_heap textless_world) /\
  refers textless_world (default [] None) [] /\
  Forall is_turn [] /\
  w_heap textless_world !! 1%nat = Some (Dict (Some 4%Q) (Some 7%Q) None None None) /\
  Forall is_text (take 1 (w_heap textless_world)) /\
  ~ is_text (Dict (Some 4%Q) (Some 7%Q) None None None) /\
  merge_segments [0%nat; 1%nat] None textless_world =
  (Raise (exn_new KeyError "text"),
   extend textless_world
     [Dict (Some 0%Q) (Some 3%Q) (Some "Hello") (Some "SPEAKER_00") None]).
Proof.
  assert (H1 : refers textless_world [0%nat; 1%nat] (w_heap textless_world)).
  { repeat constructor. }
  assert (H2 : refers textless_world (default [] None) []) by constructor.
  assert (H3 : Forall is_turn []) by constructor.
  assert (H4 : w_heap textless_world !! 1%nat =
               Some (Dict (Some 4%Q) (Some 7%Q) None None None)) by reflexivity.
  assert (H5 : Forall is_text (take 1 (w_heap textless_world))).
  { cbn. repeat (constructor; [repeat split; eexists; reflexivity|]). constructor. }
  assert (H6 : ~ is_text (Dict (Some 4%Q) (Some 7%Q) None None None)).
  { intros (_ & _ & [x Hx]). discriminate. }
  split; [exact H1|]. split; [exact H2|]. split; [exact H3|]. split; [exact H4|].
  split; [exact H5|]. split; [exact H6|].
  exact (X26_merge_segments_missing_key textless_world [0%nat; 1%nat]
           (w_heap textless_world) None [] 1 _ H1 H2 H3 H4 H5 H6).
Defined.
